(** * Prompt search engine and virtualized prompt list: a verification model

    Shallow embedding of
      - js/util/searchEngine.js      (tokenizer, edit distance, scorer,
                                      filter engine, cached search),
      - js/ui/promptListRender.js    (renderVisible, the windowed list),
      - js/util/performanceOptimizer.js (VirtualScroller.render).

    Conventions of the model.
      - A JavaScript string is a [string] of 8-bit code units read as
        Latin-1 (U+0000..U+00FF); code units above U+00FF are outside the
        model.  [length] counts code units, as [String.prototype.length].
      - An absent, [undefined] or [null] property is [None].
      - Integers that the code keeps in JS numbers (scores, indices, pixel
        offsets, epoch milliseconds) are [Z] or [nat]; none of the modelled
        computations leaves the exactly representable range.
      - A thrown exception is the [Throw] outcome of a call. *)

From Stdlib Require Import ZArith QArith Lia Bool Ascii String DecimalString.
From Stdlib Require Import Sorting.Sorted Sorting.Permutation.
From stdpp Require Import base list.

Local Open Scope string_scope.
Local Open Scope list_scope.

(** * Part I: the model, from the source *)

(** ** JavaScript strings *)

Module Js.

Definition chars (s : string) : list ascii := list_ascii_of_string s.
Definition str (l : list ascii) : string := string_of_list_ascii l.

Definition code (c : ascii) : N := N_of_ascii c.

Definition in_range (lo hi : N) (c : ascii) : bool :=
  ((lo <=? code c) && (code c <=? hi))%N.

(** [\w] of a RegExp without the [u] flag: [A-Za-z0-9_]. *)
Definition is_word (c : ascii) : bool :=
  in_range 65 90 c || in_range 97 122 c || in_range 48 57 c
  || (code c =? 95)%N.

(** [\s] restricted to U+0000..U+00FF: TAB, LF, VT, FF, CR, SPACE, NBSP.
    [String.prototype.trim] strips the same set. *)
Definition is_space (c : ascii) : bool :=
  in_range 9 13 c || (code c =? 32)%N || (code c =? 160)%N.

(** [toLowerCase] on one Latin-1 code unit: A-Z and the accented
    capitals U+00C0..U+00DE (the multiplication sign U+00D7 excepted)
    move up by 32. *)
Definition lower_char (c : ascii) : ascii :=
  if in_range 65 90 c
     || (in_range 192 222 c && negb (code c =? 215)%N)
  then ascii_of_N (code c + 32)
  else c.

Definition toLowerCase (s : string) : string := str (map lower_char (chars s)).

(** Truthiness of a string value: the empty string is falsy. *)
Definition truthy (s : string) : bool := negb (String.eqb s EmptyString).

(** Truthiness of a possibly absent string property. *)
Definition truthy_opt (o : option string) : bool :=
  match o with Some s => truthy s | None => false end.

(** [a || b] on possibly absent strings, seen as a string-or-undefined. *)
Definition or_else (a b : option string) : option string :=
  if truthy_opt a then a else if truthy_opt b then b else None.

Fixpoint prefix_of (p s : list ascii) : bool :=
  match p, s with
  | [], _ => true
  | _ :: _, [] => false
  | a :: p', b :: s' => Ascii.eqb a b && prefix_of p' s'
  end.

Fixpoint includes_chars (s p : list ascii) : bool :=
  prefix_of p s ||
  match s with
  | [] => false
  | _ :: s' => includes_chars s' p
  end.

(** [s.includes(p)]. *)
Definition includes (s p : string) : bool := includes_chars (chars s) (chars p).

(** [arr.join(sep)] on an array of strings. *)
Fixpoint join (sep : string) (l : list string) : string :=
  match l with
  | [] => EmptyString
  | [x] => x
  | x :: rest => x ++ sep ++ join sep rest
  end.

Fixpoint drop_space (l : list ascii) : list ascii :=
  match l with
  | c :: l' => if is_space c then drop_space l' else l
  | [] => []
  end.

(** [s.trim()]. *)
Definition trim (s : string) : string :=
  str (rev (drop_space (rev (drop_space (chars s))))).

(** [s.split(/\s+/)]: cut at every maximal run of white space.  [cur]
    is the piece being read, in reverse; [in_run] tells that the previous
    code unit belonged to a separator. *)
Fixpoint split_ws_from (cur : list ascii) (in_run : bool) (s : list ascii)
  : list (list ascii) :=
  match s with
  | [] => [rev cur]
  | c :: s' =>
      if is_space c
      then if in_run then split_ws_from [] true s'
           else rev cur :: split_ws_from [] true s'
      else split_ws_from (c :: cur) false s'
  end.

Definition split_ws (s : list ascii) : list (list ascii) :=
  split_ws_from [] false s.

(** Array membership of a string, [arr.includes(x)]. *)
Definition arr_includes (l : list string) (x : string) : bool :=
  existsb (String.eqb x) l.

End Js.

(** ** Configuration (searchEngine.js, lines 9-11) *)

Definition SCORE_THRESHOLD : Q := 1 # 10.
Definition FUZZY_MATCH_THRESHOLD : nat := 2.
Definition CACHE_MAX_SIZE : nat := 100.

(** ** tokenizeAndNormalize *)

Definition is_some {A} (o : option A) : bool :=
  match o with Some _ => true | None => false end.

Definition is_nil {A} (l : list A) : bool :=
  match l with [] => true | _ => false end.

(** [text] is the property as read: [None] when it is missing.  The
    pipeline is lower-casing, deletion of every code unit matching
    [[^\w\s]], splitting at white-space runs, and [filter(Boolean)]. *)
Definition tokenizeAndNormalize (text : option string) : list string :=
  match text with
  | None => []
  | Some t =>
      if negb (Js.truthy t) then []
      else
        let lowered := map Js.lower_char (Js.chars t) in
        let kept := List.filter (fun c => Js.is_word c || Js.is_space c) lowered in
        map Js.str (List.filter (fun p => negb (is_nil p)) (Js.split_ws kept))
  end.

(** ** levenshteinDistance *)

Module Track.

(** The [track] array of arrays; a cell is [null] until written. *)
Abbreviation t := (list (list (option nat))).

(** [Array(rows).fill(null).map(() => Array(cols).fill(null))]. *)
Definition make (rows cols : nat) : t := replicate rows (replicate cols None).

(** Reading a cell inside an arithmetic expression; [null] converts to 0.
    Every read of the algorithm is in range. *)
Definition rd (m : t) (j i : nat) : nat :=
  match m !! j with
  | Some row => match row !! i with Some (Some v) => v | _ => 0 end
  | None => 0
  end.

(** [track[j][i] = v]. *)
Definition wr (m : t) (j i v : nat) : t := alter (fun row => <[i := Some v]> row) j m.

End Track.

Definition min3 (a b c : nat) : nat := Nat.min a (Nat.min b c).

Definition indicator (a b : ascii) : nat := if Ascii.eqb a b then 0 else 1.

(** [s[i]] for an index inside the string. *)
Definition char_at (s : list ascii) (i : nat) : ascii := nth i s Ascii.zero.

Definition fill_cell (a b : list ascii) (j : nat) (m : Track.t) (i : nat) : Track.t :=
  Track.wr m j i
    (min3 (Track.rd m j (i - 1) + 1)
          (Track.rd m (j - 1) i + 1)
          (Track.rd m (j - 1) (i - 1) + indicator (char_at a (i - 1)) (char_at b (j - 1)))).

Definition fill_row (a b : list ascii) (m : Track.t) (j : nat) : Track.t :=
  fold_left (fill_cell a b j) (seq 1 (length a)) m.

Definition fill_track (a b : list ascii) : Track.t :=
  let s1Len := length a in
  let s2Len := length b in
  let track := Track.make (S s2Len) (S s1Len) in
  let track := fold_left (fun m i => Track.wr m 0 i i) (seq 0 (S s1Len)) track in
  let track := fold_left (fun m j => Track.wr m j 0 j) (seq 0 (S s2Len)) track in
  fold_left (fill_row a b) (seq 1 s2Len) track.

Definition levenshteinDistance (s1 s2 : string) : nat :=
  if String.eqb s1 s2 then 0
  else if negb (Js.truthy s1) then (if Js.truthy s2 then String.length s2 else 0)
  else if negb (Js.truthy s2) then String.length s1
  else
    let a := Js.chars s1 in
    let b := Js.chars s2 in
    Track.rd (fill_track a b) (length b) (length a).

(** ** termMatches *)

Definition termMatches (term : string) (textTokens : list string)
           (fuzzy : bool) (fuzzyThreshold : nat) : bool :=
  if Js.arr_includes textTokens term then true
  else if fuzzy
       then existsb (fun token => Nat.leb (levenshteinDistance term token) fuzzyThreshold) textTokens
       else false.

(** ** Data model *)

(** Outcome of a call that may throw. *)
Inductive JsError := TypeError (msg : string).

Inductive outcome (A : Type) :=
| Return (a : A)
| Throw (e : JsError).
Arguments Return {A} a.
Arguments Throw {A} e.

(** A prompt object.  The text properties are strings or missing, as the
    data layer produces them; [tags] may be missing, an array of tag ids,
    or some other value (the code tests [Array.isArray]).  [_searchScore]
    is the temporary annotation of [search]; [extra] holds every other
    property (author, prompt text variants, ...), carried along by object
    spread. *)
Module Prompt.

Inductive TagsField :=
| Missing
| NotArray (v : string)
| Array (l : list string).

Record t := mk {
  id : string;
  title : option string;
  description : option string;
  content : option string;
  tags : TagsField;
  category : option string;
  updated_at : option string;
  created_at : option string;
  _searchScore : option Z;
  extra : list (string * string)
}.

(** [{ ...prompt, _searchScore: s }] with [s = Some score], and the rest
    pattern [({ _searchScore, ...prompt }) => prompt] with [s = None]. *)
Definition with_score (p : t) (s : option Z) : t :=
  {| id := id p; title := title p; description := description p;
     content := content p; tags := tags p; category := category p;
     updated_at := updated_at p; created_at := created_at p;
     _searchScore := s; extra := extra p |}.

(** [prompt.tags] as a condition. *)
Definition tags_truthy (p : t) : bool :=
  match tags p with
  | Missing => false
  | NotArray v => Js.truthy v
  | Array _ => true
  end.

(** [prompt.tags.length] when [prompt.tags] is truthy. *)
Definition tags_length (p : t) : nat :=
  match tags p with
  | Missing => 0
  | NotArray v => String.length v
  | Array l => length l
  end.

End Prompt.

(** A primitive value found where the code expects the category id. *)
Inductive JsPrim :=
| PUndefined
| PNull
| PBool (b : bool)
| PNum (n : Z)
| PStr (s : string)
| PBigInt (n : Z).

(** The filter object.  [category] is whatever the caller put there (the
    code checks [typeof filters.category === 'string']); [PUndefined],
    [None] stand for a property that is not set.  The properties are taken
    to have been set in the order [category], [tags], [dateRange], which is
    the order [JSON.stringify] then follows; another order gives another
    cache key and changes nothing else. *)
Module Filters.

Record DateRange := mkRange {
  startDate : option string;
  endDate : option string
}.

Record t := mk {
  category : JsPrim;
  tags : option (list string);
  dateRange : option DateRange
}.

(** The literal [{}]. *)
Definition empty : t := mk PUndefined None None.

(** [Object.keys(filters).length]. *)
Definition keys_length (f : t) : nat :=
  (match category f with PUndefined => 0 | _ => 1 end)
  + (match tags f with None => 0 | Some _ => 1 end)
  + (match dateRange f with None => 0 | Some _ => 1 end).

End Filters.

Record Options := mkOptions {
  opt_filters : option Filters.t;
  opt_fuzzy : option bool;
  opt_useCache : option bool
}.

Record SearchResult := mkResult {
  results : list Prompt.t;
  highlightTerms : list string
}.

(** The argument of [console.info] in [logSearchQuery], the time stamp
    left out. *)
Record LogRecord := mkLog {
  log_query : string;
  log_filters : Filters.t;
  log_resultCount : nat;
  log_fromCache : bool
}.

(** ** JSON.stringify on the filter object *)

Module JSON.

Definition dquote : ascii := ascii_of_N 34.

Definition hex_digit (n : N) : ascii :=
  if (n <? 10)%N then ascii_of_N (48 + n) else ascii_of_N (87 + n).

(** QuoteJSONString on one code unit. *)
Definition escape_char (c : ascii) : list ascii :=
  let n := Js.code c in
  if (n =? 34)%N then ["\"%char; dquote]
  else if (n =? 92)%N then ["\"; "\"]%char
  else if (n =? 8)%N then ["\"; "b"]%char
  else if (n =? 9)%N then ["\"; "t"]%char
  else if (n =? 10)%N then ["\"; "n"]%char
  else if (n =? 12)%N then ["\"; "f"]%char
  else if (n =? 13)%N then ["\"; "r"]%char
  else if (n <? 32)%N
       then ["\"; "u"; "0"; "0"; hex_digit (n / 16); hex_digit (n mod 16)]%char
  else [c].

Definition quote (s : string) : string :=
  Js.str ((dquote :: concat (map escape_char (Js.chars s))) ++ [dquote]).

Definition number (n : Z) : string := DecimalString.NilZero.string_of_int (Z.to_int n).

(** Serialisation of a property value: [Return None] when the property
    is left out ([undefined]), [Throw] for a BigInt. *)
Definition prim (v : JsPrim) : outcome (option string) :=
  match v with
  | PUndefined => Return None
  | PNull => Return (Some "null")
  | PBool b => Return (Some (if b then "true" else "false"))
  | PNum n => Return (Some (number n))
  | PStr s => Return (Some (quote s))
  | PBigInt _ => Throw (TypeError "Do not know how to serialize a BigInt")
  end.

Definition array (l : list string) : string :=
  "[" ++ Js.join "," (map quote l) ++ "]".

Definition member (key : string) (value : option string) : list string :=
  match value with
  | Some v => [(quote key ++ ":" ++ v)%string]
  | None => []
  end.

Definition object (members : list string) : string :=
  "{" ++ Js.join "," members ++ "}".

Definition dateRange (r : Filters.DateRange) : string :=
  object (member "startDate" (option_map quote (Filters.startDate r))
          ++ member "endDate" (option_map quote (Filters.endDate r))).

(** [JSON.stringify(filters)]. *)
Definition stringify (f : Filters.t) : outcome string :=
  match prim (Filters.category f) with
  | Throw e => Throw e
  | Return c =>
      Return (object (member "category" c
                      ++ member "tags" (option_map array (Filters.tags f))
                      ++ member "dateRange" (option_map dateRange (Filters.dateRange f))))
  end.

(** [JSON.parse(JSON.stringify(filters))]: a deep copy, or the exception
    of [stringify]. *)
Definition deep_copy (f : Filters.t) : outcome Filters.t :=
  match stringify f with
  | Throw e => Throw e
  | Return _ => Return f
  end.

End JSON.

(** ** calculateScore *)

Module weights.
Definition title : Z := 10.
Definition description : Z := 5.
Definition content : Z := 3.
Definition tags : Z := 7.
End weights.

Record FieldTokens := mkFieldTokens {
  ft_title : list string;
  ft_description : list string;
  ft_content : list string;
  ft_tags : list string
}.

Definition promptFieldTokens (prompt : Prompt.t) : FieldTokens :=
  {| ft_title := tokenizeAndNormalize (Prompt.title prompt);
     ft_description := tokenizeAndNormalize (Prompt.description prompt);
     ft_content := tokenizeAndNormalize (Prompt.content prompt);
     ft_tags := match Prompt.tags prompt with
                | Prompt.Array l => tokenizeAndNormalize (Some (Js.join " " l))
                | _ => []
                end |}.

(** [Set.prototype.add] on an insertion-ordered set of strings. *)
Definition set_add (s : list string) (x : string) : list string :=
  if Js.arr_includes s x then s else s ++ [x].

(** The two variables the [forEach] callback updates. *)
Record ScoreAcc := mkAcc {
  score : Z;
  matchedQueryTerms : list string
}.

(** One run of the [forEach] callback (lines 117-139). *)
Definition score_token (prompt : Prompt.t) (fields : FieldTokens) (fuzzy : bool)
           (acc : ScoreAcc) (queryToken : string) : ScoreAcc :=
  let score := score acc in
  let termFound := false in
  let '(score, termFound) :=
    if Js.truthy_opt (Prompt.title prompt)
       && termMatches queryToken (ft_title fields) fuzzy FUZZY_MATCH_THRESHOLD
    then ((score + weights.title)%Z, true) else (score, termFound) in
  let '(score, termFound) :=
    if Js.truthy_opt (Prompt.description prompt)
       && termMatches queryToken (ft_description fields) fuzzy FUZZY_MATCH_THRESHOLD
    then ((score + weights.description)%Z, true) else (score, termFound) in
  let '(score, termFound) :=
    if Js.truthy_opt (Prompt.content prompt)
       && termMatches queryToken (ft_content fields) fuzzy FUZZY_MATCH_THRESHOLD
    then ((score + weights.content)%Z, true) else (score, termFound) in
  let '(score, termFound) :=
    if Prompt.tags_truthy prompt && Nat.ltb 0 (Prompt.tags_length prompt)
       && termMatches queryToken (ft_tags fields) fuzzy FUZZY_MATCH_THRESHOLD
    then ((score + weights.tags)%Z, true) else (score, termFound) in
  {| score := score;
     matchedQueryTerms := if termFound
                          then set_add (matchedQueryTerms acc) queryToken
                          else matchedQueryTerms acc |}.

(** [checkPhrase] of line 147. *)
Definition checkPhrase (fullQueryString : string) (text : option string) : bool :=
  match text with
  | Some t => Js.truthy t && Js.includes (Js.toLowerCase t) fullQueryString
  | None => false
  end.

Definition calculateScore (prompt : Prompt.t) (queryTokens : list string) (fuzzy : bool) : Z :=
  let fields := promptFieldTokens prompt in
  let acc := fold_left (score_token prompt fields fuzzy) queryTokens (mkAcc 0 []) in
  let score := (score acc + Z.of_nat (length (matchedQueryTerms acc)) * 5)%Z in
  let fullQueryString := Js.join " " queryTokens in
  if Nat.ltb 0 (String.length fullQueryString)
  then if checkPhrase fullQueryString (Prompt.title prompt) then (score + 20)%Z
       else if checkPhrase fullQueryString (Prompt.description prompt) then (score + 15)%Z
       else if checkPhrase fullQueryString (Prompt.content prompt) then (score + 10)%Z
       else score
  else score.

(** ** Dates

    [new Date(s)] and [setHours] are built-ins whose result depends on the
    engine and on the local time zone; the model takes them as an
    interface.  [newDate s] is [new Date(s).getTime()], [None] standing for
    NaN (an invalid date); [endOfDay t] is the time value of a copy of the
    date [t] after [setHours(23, 59, 59, 999)]. *)
Class DateEnv := {
  newDate : string -> option Z;
  endOfDay : Z -> Z
}.

(** ** Array.prototype.sort

    The sort is stable (ECMAScript 2019); for a consistent comparator the
    result is the unique stable sorted permutation, which this insertion
    sort computes.  A comparator result of NaN ([None]) counts as 0.  With
    an inconsistent comparator the order is implementation-defined, and
    the model fixes one. *)
Definition is_positive (r : option Z) : bool :=
  match r with
  | Some z => (0 <? z)%Z
  | None => false
  end.

Fixpoint insert_by {A} (cmp : A -> A -> option Z) (x : A) (l : list A) : list A :=
  match l with
  | [] => [x]
  | y :: l' => if is_positive (cmp x y) then y :: insert_by cmp x l' else x :: l
  end.

Definition array_sort {A} (cmp : A -> A -> option Z) (l : list A) : list A :=
  fold_right (insert_by cmp) [] l.

(** ** The result cache: a [Map] in insertion order *)

Module SearchCache.

Abbreviation t := (list (string * SearchResult)).

Section Ops.

(** The operations do not depend on what a value is. *)
Context {V : Type}.

Definition size (c : list (string * V)) : nat := length c.

Fixpoint get (c : list (string * V)) (k : string) : option V :=
  match c with
  | [] => None
  | (k', v) :: c' => if String.eqb k' k then Some v else get c' k
  end.

Definition has (c : list (string * V)) (k : string) : bool :=
  match get c k with Some _ => true | None => false end.

(** [delete]: the entry leaves, the others keep their order. *)
Fixpoint delete (c : list (string * V)) (k : string) : list (string * V) :=
  match c with
  | [] => []
  | (k', v) :: c' => if String.eqb k' k then c' else (k', v) :: delete c' k
  end.

(** [set]: a present key keeps its place, a new one goes last. *)
Fixpoint set (c : list (string * V)) (k : string) (v : V) : list (string * V) :=
  match c with
  | [] => [(k, v)]
  | (k', v') :: c' => if String.eqb k' k then (k', v) :: c' else (k', v') :: set c' k v
  end.

(** [keys().next().value]. *)
Definition oldestKey (c : list (string * V)) : option string :=
  match c with
  | [] => None
  | (k, _) :: _ => Some k
  end.

Definition keys (c : list (string * V)) : list string := map fst c.

(** Lines 267-274: make room if the cache is full, then store. *)
Definition store (c : list (string * V)) (cacheKey : string) (finalResults : V)
  : list (string * V) :=
  let c :=
    if Nat.leb CACHE_MAX_SIZE (size c)
    then match oldestKey c with
         | Some oldestKey => delete c oldestKey
         | None => c
         end
    else c in
  set c cacheKey finalResults.

End Ops.

End SearchCache.

(** Module state of searchEngine.js together with the console. *)
Record State := mkState {
  searchCache : SearchCache.t;
  console : list LogRecord
}.

Definition initial_state : State := mkState [] [].

(** ** applyFilters, search, logSearchQuery *)

Section SearchEngine.

Context {env : DateEnv}.

(** [p.category === filters.category], the filter being active only for
    a non-empty string. *)
Definition category_filter (filters : Filters.t) : option (Prompt.t -> bool) :=
  match Filters.category filters with
  | PStr c =>
      if Js.truthy c
      then Some (fun p => match Prompt.category p with
                          | Some pc => String.eqb pc c
                          | None => false
                          end)
      else None
  | _ => None
  end.

Definition tags_filter (filters : Filters.t) : option (Prompt.t -> bool) :=
  match Filters.tags filters with
  | Some ftags =>
      if Nat.ltb 0 (length ftags)
      then Some (fun p => match Prompt.tags p with
                          | Prompt.Array ptags =>
                              forallb (fun filterTagId => Js.arr_includes ptags filterTagId) ftags
                          | _ => false
                          end)
      else None
  | None => None
  end.

(** [d && !isNaN(new Date(d).getTime()) ? new Date(d) : null]. *)
Definition bound_date (d : option string) : option Z :=
  match d with
  | Some s => if Js.truthy s then newDate s else None
  | None => None
  end.

Definition in_date_range (start end_ : option Z) (p : Prompt.t) : bool :=
  match Js.or_else (Prompt.updated_at p) (Prompt.created_at p) with
  | None => false
  | Some promptDateStr =>
      match newDate promptDateStr with
      | None => false
      | Some promptDate =>
          if match start with Some s => (promptDate <? s)%Z | None => false end
          then false
          else match end_ with
               | Some e => if (endOfDay e <? promptDate)%Z then false else true
               | None => true
               end
      end
  end.

Definition date_filter (filters : Filters.t) : option (Prompt.t -> bool) :=
  match Filters.dateRange filters with
  | Some r =>
      let start := bound_date (Filters.startDate r) in
      let end_ := bound_date (Filters.endDate r) in
      if is_some start || is_some end_
      then Some (in_date_range start end_)
      else None
  | None => None
  end.

(** One [if (...) filteredPrompts = filteredPrompts.filter(...)]. *)
Definition filter_when (f : option (Prompt.t -> bool)) (l : list Prompt.t) : list Prompt.t :=
  match f with
  | Some keep => List.filter keep l
  | None => l
  end.

Definition applyFilters (prompts : list Prompt.t) (filters : Filters.t) : list Prompt.t :=
  let filteredPrompts := prompts in
  let filteredPrompts := filter_when (category_filter filters) filteredPrompts in
  let filteredPrompts := filter_when (tags_filter filters) filteredPrompts in
  let filteredPrompts := filter_when (date_filter filters) filteredPrompts in
  filteredPrompts.

(** [(a, b) => b._searchScore - a._searchScore]. *)
Definition by_score (a b : Prompt.t) : option Z :=
  match Prompt._searchScore b, Prompt._searchScore a with
  | Some sb, Some sa => Some (sb - sa)%Z
  | _, _ => None
  end.

(** [new Date(p.updated_at || p.created_at)] as a time value. *)
Definition prompt_date (p : Prompt.t) : option Z :=
  match Js.or_else (Prompt.updated_at p) (Prompt.created_at p) with
  | Some s => newDate s
  | None => None
  end.

(** [(a, b) => new Date(b...) - new Date(a...)]. *)
Definition by_date (a b : Prompt.t) : option Z :=
  match prompt_date b, prompt_date a with
  | Some tb, Some ta => Some (tb - ta)%Z
  | _, _ => None
  end.

Definition attach_score (queryTokens : list string) (fuzzy : bool) (prompt : Prompt.t) : Prompt.t :=
  Prompt.with_score prompt (Some (calculateScore prompt queryTokens fuzzy)).

(** [prompt._searchScore >= SCORE_THRESHOLD]. *)
Definition above_threshold (prompt : Prompt.t) : bool :=
  match Prompt._searchScore prompt with
  | Some s => Qle_bool SCORE_THRESHOLD (inject_Z s)
  | None => false
  end.

Definition strip_score (prompt : Prompt.t) : Prompt.t := Prompt.with_score prompt None.

(** Lines 237-264: what [search] computes when the cache does not
    answer. *)
Definition compute (allPrompts : list Prompt.t) (queryTokens : list string)
           (filters : Filters.t) (fuzzy : bool) : SearchResult :=
  let processedPrompts := allPrompts in
  let processedPrompts :=
    if Nat.ltb 0 (Filters.keys_length filters)
    then applyFilters processedPrompts filters
    else processedPrompts in
  let processedPrompts :=
    if Nat.ltb 0 (length queryTokens)
    then array_sort by_score
           (List.filter above_threshold
              (map (attach_score queryTokens fuzzy) processedPrompts))
    else array_sort by_date processedPrompts in
  {| results := map strip_score processedPrompts;
     highlightTerms := queryTokens |}.

Definition logSearchQuery (st : State) (query : string) (filters : Filters.t)
           (resultCount : nat) (fromCache : bool) : outcome unit * State :=
  match JSON.deep_copy filters with
  | Throw e => (Throw e, st)
  | Return copy =>
      (Return tt,
       {| searchCache := searchCache st;
          console := console st ++ [mkLog query copy resultCount fromCache] |})
  end.

(** The template literal of line 229. *)
Definition cacheKey_of (normalizedQuery : string) (filters : Filters.t) (fuzzy : bool)
  : outcome string :=
  match JSON.stringify filters with
  | Throw e => Throw e
  | Return json =>
      Return (normalizedQuery ++ "|" ++ json ++ "|fuzzy:"
              ++ (if fuzzy then "true" else "false"))%string
  end.

Definition search (st : State) (allPrompts : list Prompt.t)
           (searchQuery : option string) (options : Options)
  : outcome SearchResult * State :=
  let filters := default Filters.empty (opt_filters options) in
  let fuzzy := default false (opt_fuzzy options) in
  let useCache := default true (opt_useCache options) in
  let normalizedQuery := Js.trim (default EmptyString (Js.or_else searchQuery None)) in
  let queryTokens := tokenizeAndNormalize (Some normalizedQuery) in
  match (if useCache
         then match cacheKey_of normalizedQuery filters fuzzy with
              | Throw e => Throw e
              | Return k => Return (Some k)
              end
         else Return None) with
  | Throw e => (Throw e, st)
  | Return cacheKey =>
      let usable := useCache && Js.truthy_opt cacheKey in
      let key := default EmptyString cacheKey in
      match (if usable then SearchCache.get (searchCache st) key else None) with
      | Some cachedResult =>
          match logSearchQuery st normalizedQuery filters
                               (length (results cachedResult)) true with
          | (Throw e, st') => (Throw e, st')
          | (Return _, st') => (Return cachedResult, st')
          end
      | None =>
          let finalResults := compute allPrompts queryTokens filters fuzzy in
          let st :=
            if usable
            then {| searchCache := SearchCache.store (searchCache st) key finalResults;
                    console := console st |}
            else st in
          match logSearchQuery st normalizedQuery filters
                               (length (results finalResults)) false with
          | (Throw e, st') => (Throw e, st')
          | (Return _, st') => (Return finalResults, st')
          end
      end
  end.


End SearchEngine.

(** ** [search] with object identities

    [search] copies its input array, builds new arrays with [filter] and
    [map], builds new objects with object spread, and sorts arrays in
    place.  To tell what it leaves untouched, this second model of the same
    lines keeps a heap: a reference is an index into the list of allocated
    objects, or of allocated arrays; an array holds references.  The value
    level model above is what one reads through the references (see
    [compute_contents]). *)
Module Heap.

Record Store := mkStore {
  objects : list Prompt.t;
  arrays : list (list nat)
}.

(** What a dangling reference would read; the code never holds one. *)
Definition blank : Prompt.t :=
  Prompt.mk EmptyString None None None Prompt.Missing None None None None [].

Definition obj (s : Store) (r : nat) : Prompt.t := default blank (objects s !! r).
Definition arr (s : Store) (a : nat) : list nat := default [] (arrays s !! a).

(** The documents an array holds, in order. *)
Definition contents (s : Store) (a : nat) : list Prompt.t := map (obj s) (arr s a).

Definition new_obj (s : Store) (p : Prompt.t) : nat * Store :=
  (length (objects s), {| objects := objects s ++ [p]; arrays := arrays s |}).

Definition new_arr (s : Store) (l : list nat) : nat * Store :=
  (length (arrays s), {| objects := objects s; arrays := arrays s ++ [l] |}).

Definition set_arr (s : Store) (a : nat) (l : list nat) : Store :=
  {| objects := objects s; arrays := <[a := l]> (arrays s) |}.

(** [[...a]]. *)
Definition array_spread (s : Store) (a : nat) : nat * Store := new_arr s (arr s a).

(** [a.filter(keep)]: a new array of the references that pass. *)
Definition array_filter (keep : Prompt.t -> bool) (s : Store) (a : nat) : nat * Store :=
  new_arr s (List.filter (fun r => keep (obj s r)) (arr s a)).

(** [a.map(f)] for a callback that builds a new object from the element
    it receives. *)
Fixpoint map_objects (f : Prompt.t -> Prompt.t) (s : Store) (refs : list nat)
  : list nat * Store :=
  match refs with
  | [] => ([], s)
  | r :: rest =>
      let '(r', s) := new_obj s (f (obj s r)) in
      let '(rest', s) := map_objects f s rest in
      (r' :: rest', s)
  end.

Definition array_map (f : Prompt.t -> Prompt.t) (s : Store) (a : nat) : nat * Store :=
  let '(refs, s) := map_objects f s (arr s a) in
  new_arr s refs.

(** [a.sort(cmp)]: the array [a] itself is reordered. *)
Definition array_sort_in_place (cmp : Prompt.t -> Prompt.t -> option Z) (s : Store) (a : nat)
  : Store :=
  set_arr s a (array_sort (fun x y => cmp (obj s x) (obj s y)) (arr s a)).

(** The returned object: [results] is a reference to an array. *)
Record Result := mkResult {
  results : nat;
  highlightTerms : list string
}.

Record State := mkState {
  store : Store;
  searchCache : list (string * Result);
  console : list LogRecord
}.

Section Search.

Context {env : DateEnv}.

Definition filter_when (f : option (Prompt.t -> bool)) (s : Store) (a : nat) : nat * Store :=
  match f with
  | Some keep => array_filter keep s a
  | None => (a, s)
  end.

Definition applyFilters (s : Store) (prompts : nat) (filters : Filters.t) : nat * Store :=
  let filteredPrompts := prompts in
  let '(filteredPrompts, s) := filter_when (category_filter filters) s filteredPrompts in
  let '(filteredPrompts, s) := filter_when (tags_filter filters) s filteredPrompts in
  let '(filteredPrompts, s) := filter_when (date_filter filters) s filteredPrompts in
  (filteredPrompts, s).

(** Lines 237-264. *)
Definition compute (s : Store) (allPrompts : nat) (queryTokens : list string)
           (filters : Filters.t) (fuzzy : bool) : Result * Store :=
  let '(processedPrompts, s) := array_spread s allPrompts in
  let '(processedPrompts, s) :=
    if Nat.ltb 0 (Filters.keys_length filters)
    then applyFilters s processedPrompts filters
    else (processedPrompts, s) in
  let '(processedPrompts, s) :=
    if Nat.ltb 0 (length queryTokens)
    then
      let '(scored, s) := array_map (attach_score queryTokens fuzzy) s processedPrompts in
      let '(kept, s) := array_filter above_threshold s scored in
      (kept, array_sort_in_place by_score s kept)
    else (processedPrompts, array_sort_in_place by_date s processedPrompts) in
  let '(stripped, s) := array_map strip_score s processedPrompts in
  ({| results := stripped; highlightTerms := queryTokens |}, s).

Definition logSearchQuery (st : State) (query : string) (filters : Filters.t)
           (resultCount : nat) (fromCache : bool) : outcome unit * State :=
  match JSON.deep_copy filters with
  | Throw e => (Throw e, st)
  | Return copy =>
      (Return tt,
       {| store := store st;
          searchCache := searchCache st;
          console := console st ++ [mkLog query copy resultCount fromCache] |})
  end.

Definition search (st : State) (allPrompts : nat)
           (searchQuery : option string) (options : Options)
  : outcome Result * State :=
  let filters := default Filters.empty (opt_filters options) in
  let fuzzy := default false (opt_fuzzy options) in
  let useCache := default true (opt_useCache options) in
  let normalizedQuery := Js.trim (default EmptyString (Js.or_else searchQuery None)) in
  let queryTokens := tokenizeAndNormalize (Some normalizedQuery) in
  match (if useCache
         then match cacheKey_of normalizedQuery filters fuzzy with
              | Throw e => Throw e
              | Return k => Return (Some k)
              end
         else Return None) with
  | Throw e => (Throw e, st)
  | Return cacheKey =>
      let usable := useCache && Js.truthy_opt cacheKey in
      let key := default EmptyString cacheKey in
      match (if usable then SearchCache.get (searchCache st) key else None) with
      | Some cachedResult =>
          match logSearchQuery st normalizedQuery filters
                               (length (arr (store st) (results cachedResult))) true with
          | (Throw e, st') => (Throw e, st')
          | (Return _, st') => (Return cachedResult, st')
          end
      | None =>
          let '(finalResults, s) := compute (store st) allPrompts queryTokens filters fuzzy in
          let st :=
            {| store := s;
               searchCache :=
                 if usable
                 then SearchCache.store (searchCache st) key finalResults
                 else searchCache st;
               console := console st |} in
          match logSearchQuery st normalizedQuery filters
                               (length (arr s (results finalResults))) false with
          | (Throw e, st') => (Throw e, st')
          | (Return _, st') => (Return finalResults, st')
          end
      end
  end.

End Search.

End Heap.

(** ** Windowed rendering *)

(** [Math.floor(a / b)] and [Math.ceil(a / b)] for integers, [b > 0]. *)
Definition floor_div (a b : Z) : Z := (a / b)%Z.
Definition ceil_div (a b : Z) : Z := (- ((- a) / b))%Z.

(** The integers [lo, lo + 1, ..., lo + n - 1]. *)
Definition zrange (lo : Z) (n : nat) : list Z := map (fun k => (lo + Z.of_nat k)%Z) (seq 0 n).

(** *** renderVisible (promptListRender.js, lines 93-190)

    The state is made of the variables the closure captures and of the
    children of [promptList] other than the two spacers, in document
    order.  Pixel quantities are integers. *)
Module PromptList.

Inductive ViewMode := ListView | GridView.

Definition ITEM_HEIGHT (viewMode : ViewMode) : Z :=
  match viewMode with ListView => 140 | GridView => 260 end.

Definition BUFFER : Z := 6.

(** A prompt block: its [data-virtual-idx], its [style.top] in pixels,
    and in the grid view its column and the column count, which fix
    [style.left] and [style.width]. *)
Record Block := mkBlock {
  virtual_idx : Z;
  top : Z;
  grid_cell : option (Z * Z)
}.

Record State := mkState {
  viewMode : ViewMode;
  total : Z;
  scrollTop : Z;
  containerHeight : Z;
  offsetWidth : Z;
  lastStartIdx : option Z;
  lastEndIdx : option Z;
  children : list Block;
  topSpacer : Z;
  bottomSpacer : Z
}.

Definition startIdx_of (st : State) : Z :=
  Z.max 0 (floor_div (scrollTop st) (ITEM_HEIGHT (viewMode st)) - BUFFER).

Definition endIdx_of (st : State) : Z :=
  Z.min (total st)
        (ceil_div (scrollTop st + containerHeight st) (ITEM_HEIGHT (viewMode st)) + BUFFER).

(** [x === last] for a number [x] and a variable that starts as
    [null]. *)
Definition same (x : Z) (last : option Z) : bool :=
  match last with Some y => (x =? y)%Z | None => false end.

(** Lines 166-181. *)
Definition make_block (st : State) (i : Z) : Block :=
  match viewMode st with
  | ListView => mkBlock i (i * ITEM_HEIGHT ListView) None
  | GridView =>
      let colCount := Z.max 1 (floor_div (offsetWidth st) 340) in
      let col := (i mod colCount)%Z in
      let row := floor_div i colCount in
      mkBlock i (row * ITEM_HEIGHT GridView) (Some (col, colCount))
  end.

(** [existingBlocks[i]] as a condition. *)
Definition existing (blocks : list Block) (i : Z) : bool :=
  existsb (fun b => (virtual_idx b =? i)%Z) blocks.

(** One turn of [for (let i = endIdx - 1; i >= startIdx; i--)]: a missing
    block goes in front of the fragment. *)
Definition insert_step (st : State) (kept : list Block) (endIdx : Z)
           (frag : list Block) (k : nat) : list Block :=
  let i := (endIdx - 1 - Z.of_nat k)%Z in
  if existing kept i then frag else make_block st i :: frag.

Definition renderVisible (st : State) : State :=
  let startIdx := startIdx_of st in
  let endIdx := endIdx_of st in
  if same startIdx (lastStartIdx st) && same endIdx (lastEndIdx st) then st
  else
    let kept :=
      List.filter (fun child => negb ((virtual_idx child <? startIdx)%Z
                                      || (endIdx <=? virtual_idx child)%Z))
                  (children st) in
    let frag := fold_left (insert_step st kept endIdx)
                          (seq 0 (Z.to_nat (endIdx - startIdx))) [] in
    {| viewMode := viewMode st;
       total := total st;
       scrollTop := scrollTop st;
       containerHeight := containerHeight st;
       offsetWidth := offsetWidth st;
       lastStartIdx := Some startIdx;
       lastEndIdx := Some endIdx;
       children := kept ++ frag;
       topSpacer := startIdx * ITEM_HEIGHT (viewMode st);
       bottomSpacer := (total st - endIdx) * ITEM_HEIGHT (viewMode st) |}.

(** The state when [renderVisible] is first called (lines 94-131). *)
Definition initial (viewMode : ViewMode) (total clientHeight offsetWidth : Z) : State :=
  {| viewMode := viewMode;
     total := total;
     scrollTop := 0;
     containerHeight := if (clientHeight =? 0)%Z then 600 else clientHeight;
     offsetWidth := offsetWidth;
     lastStartIdx := None;
     lastEndIdx := None;
     children := [];
     topSpacer := 0;
     bottomSpacer := 0 |}.

(** The assignment [scrollTop = promptList.scrollTop] of [onScroll]. *)
Definition with_scrollTop (st : State) (newScrollTop : Z) : State :=
  {| viewMode := viewMode st;
     total := total st;
     scrollTop := newScrollTop;
     containerHeight := containerHeight st;
     offsetWidth := offsetWidth st;
     lastStartIdx := lastStartIdx st;
     lastEndIdx := lastEndIdx st;
     children := children st;
     topSpacer := topSpacer st;
     bottomSpacer := bottomSpacer st |}.

(** A resize of the window: [updateContainerHeight] reads the new
    [clientHeight], and [offsetWidth] is what later passes will read. *)
Definition with_viewport (st : State) (clientHeight newOffsetWidth : Z) : State :=
  {| viewMode := viewMode st;
     total := total st;
     scrollTop := scrollTop st;
     containerHeight := if (clientHeight =? 0)%Z then 600 else clientHeight;
     offsetWidth := newOffsetWidth;
     lastStartIdx := lastStartIdx st;
     lastEndIdx := lastEndIdx st;
     children := children st;
     topSpacer := topSpacer st;
     bottomSpacer := bottomSpacer st |}.

(** [onScroll] and the resize handler of lines 214-218. *)
Definition onScroll (st : State) (newScrollTop : Z) : State :=
  renderVisible (with_scrollTop st newScrollTop).

Definition onResize (st : State) (clientHeight newOffsetWidth : Z) : State :=
  renderVisible (with_viewport st clientHeight newOffsetWidth).

End PromptList.

(** *** VirtualScroller.render (performanceOptimizer.js, lines 91-165)

    An element is known by the index it was rendered for; [renderedItems]
    maps an index to the element's style, in insertion order, and
    [container] lists the indices of the elements attached to the
    container, in document order.  [renderItemFn] returns [None] when the
    callback's result is falsy (or a string without markup).  [itemHeight]
    is positive: the constructor replaces 0 by 50. *)
Module VirtualScroller.

Record Element := mkElement {
  style_top : option Z;
  style_height : option Z
}.

Section Scroller.

Context {Item : Type}.

Record State := mkState {
  allItems : list Item;
  itemHeight : Z;
  bufferSize : Z;
  getItemHeightFn : option (Z -> Item -> Z);
  itemPositions : list Z;
  scrollTop : Z;
  viewportHeight : Z;
  renderedItems : list (Z * Element);
  container : list Z
}.

Variable renderItemFn : Item -> Z -> option Element.

Definition item_count (st : State) : Z := Z.of_nat (length (allItems st)).

Definition lookup_index {A} (l : list A) (i : Z) : option A :=
  if (i <? 0)%Z then None else l !! Z.to_nat i.

Fixpoint map_get (m : list (Z * Element)) (i : Z) : option Element :=
  match m with
  | [] => None
  | (k, e) :: m' => if (k =? i)%Z then Some e else map_get m' i
  end.

Fixpoint map_delete (m : list (Z * Element)) (i : Z) : list (Z * Element) :=
  match m with
  | [] => []
  | (k, e) :: m' => if (k =? i)%Z then m' else (k, e) :: map_delete m' i
  end.

Fixpoint map_set (m : list (Z * Element)) (i : Z) (e : Element) : list (Z * Element) :=
  match m with
  | [] => [(i, e)]
  | (k, e') :: m' => if (k =? i)%Z then (k, e) :: m' else (k, e') :: map_set m' i e
  end.

(** Height of item [i] in the variable-height mode. *)
Definition height_at (st : State) (h : Z -> Item -> Z) (i : Z) : Z :=
  match lookup_index (allItems st) i with
  | Some item => h i item
  | None => 0
  end.

(** First index of [candidates] that passes [test], else [fallback]. *)
Definition first_index (test : Z -> bool) (candidates : list Z) (fallback : Z) : Z :=
  match List.find test candidates with
  | Some i => i
  | None => fallback
  end.

Definition _getStartIndex (st : State) : Z :=
  let startNode :=
    match getItemHeightFn st with
    | Some h =>
        first_index
          (fun i => (scrollTop st <? default 0%Z (lookup_index (itemPositions st) i)
                                     + height_at st h i)%Z)
          (zrange 0 (length (itemPositions st))) 0
    | None => floor_div (scrollTop st) (itemHeight st)
    end in
  Z.max 0 (startNode - bufferSize st).

Definition _getEndIndex (st : State) : Z :=
  let scrollBottom := (scrollTop st + viewportHeight st)%Z in
  let endNode :=
    match getItemHeightFn st with
    | Some _ =>
        let from := _getStartIndex st in
        let last := (Z.of_nat (length (itemPositions st)) - 1)%Z in
        first_index
          (fun i => (scrollBottom <=? default 0%Z (lookup_index (itemPositions st) i))%Z
                    || (i =? last)%Z)
          (zrange from (Z.to_nat (Z.of_nat (length (itemPositions st)) - from))) 0
    | None => ceil_div scrollBottom (itemHeight st)
    end in
  Z.min (item_count st - 1) (endNode + bufferSize st).

(** The loop variables of [render]: the old map, the new map, the
    container. *)
Record Pass := mkPass {
  old_items : list (Z * Element);
  new_items : list (Z * Element);
  attached : list Z
}.

(** Lines 97-124, one index. *)
Definition render_index (st : State) (p : Pass) (i : Z) : Pass :=
  if (i <? 0)%Z || (item_count st <=? i)%Z then p
  else
    let found := map_get (old_items p) i in
    let created :=
      match found with
      | Some e => Some (e, attached p)
      | None =>
          match lookup_index (allItems st) i with
          | Some item =>
              match renderItemFn item i with
              | Some e => Some (e, attached p ++ [i])
              | None => None
              end
          | None => None
          end
      end in
    match created with
    | None => p
    | Some (e, attached') =>
        let topPosition :=
          match getItemHeightFn st with
          | Some _ => lookup_index (itemPositions st) i
          | None => Some (i * itemHeight st)%Z
          end in
        let e := {| style_top := topPosition;
                    style_height := match getItemHeightFn st with
                                    | Some _ => style_height e
                                    | None => Some (itemHeight st)
                                    end |} in
        {| old_items := map_delete (old_items p) i;
           new_items := map_set (new_items p) i e;
           attached := attached' |}
    end.

Definition render (st : State) : State :=
  let startIndex := _getStartIndex st in
  let endIndex := _getEndIndex st in
  let p := fold_left (render_index st)
                     (zrange startIndex (Z.to_nat (endIndex - startIndex + 1)))
                     (mkPass (renderedItems st) [] (container st)) in
  let stale := map fst (old_items p) in
  {| allItems := allItems st;
     itemHeight := itemHeight st;
     bufferSize := bufferSize st;
     getItemHeightFn := getItemHeightFn st;
     itemPositions := itemPositions st;
     scrollTop := scrollTop st;
     viewportHeight := viewportHeight st;
     renderedItems := new_items p;
     container := List.filter (fun i => negb (existsb (Z.eqb i) stale)) (attached p) |}.

End Scroller.

End VirtualScroller.

(** ** highlightMatches (searchEngine.js, lines 290-304)

    The function escapes the terms, joins them into the pattern of one
    capturing group and lets [String.prototype.replace] wrap every match.
    [RegExp] reads the fragment of the pattern language such a pattern
    lies in: a group of alternatives made of literal code units, a
    special character standing for itself after a backslash.  A pattern
    outside the fragment is not given a meaning ([compile] answers
    [None]). *)
Module RegExp.

Definition backslash : ascii := ascii_of_N 92.
Definition bar : ascii := "|"%char.
Definition lparen : ascii := "("%char.
Definition rparen : ascii := ")"%char.

(** The characters of the class of line 297: the thirteen listed in
    [special] and the backslash. *)
Definition special : string := ".*+?^${}()|[]".

Definition is_special (c : ascii) : bool :=
  existsb (Ascii.eqb c) (Js.chars special ++ [backslash]).

(** The [replace] of line 297: a backslash goes before every special
    character. *)
Definition escape (term : string) : string :=
  Js.str (flat_map (fun c => if is_special c then [backslash; c] else [c]) (Js.chars term)).

(** The template literal of line 302. *)
Definition pattern_of (escapedTerms : list string) : string :=
  (String lparen (Js.join (String bar EmptyString) escapedTerms) ++ String rparen EmptyString)%string.

(** A compiled pattern: the alternatives of its group, in order.  The
    flags are [g] and [i]. *)
Abbreviation t := (list (list ascii)).

(** Reads the inside of the group.  [cur] is the alternative being
    read, in reverse; [alts] holds the alternatives read, last first. *)
Fixpoint parse_group (cur : list ascii) (alts : list (list ascii)) (p : list ascii)
  : option t :=
  match p with
  | [] => None
  | c :: p' =>
      if Ascii.eqb c backslash
      then match p' with
           | d :: p'' => if is_special d then parse_group (d :: cur) alts p'' else None
           | [] => None
           end
      else if Ascii.eqb c bar then parse_group [] (rev cur :: alts) p'
      else if Ascii.eqb c rparen
           then match p' with
                | [] => Some (rev (rev cur :: alts))
                | _ :: _ => None
                end
      else if is_special c then None
      else parse_group (c :: cur) alts p'
  end.

(** [new RegExp(pattern, 'gi')]. *)
Definition compile (pattern : string) : option t :=
  match Js.chars pattern with
  | c :: p => if Ascii.eqb c lparen then parse_group [] [] p else None
  | [] => None
  end.

(** Canonicalize of a pattern with the [i] flag and without the [u]
    flag: the upper-case form when that is one code unit.  On Latin-1,
    a-z and U+00E0..U+00FE (the division sign U+00F7 excepted) move
    down by 32; the upper-case forms of U+00B5 and U+00FF lie outside
    Latin-1 and are shared with no other Latin-1 code unit, so these two
    stand for themselves. *)
Definition canonicalize (c : ascii) : ascii :=
  if Js.in_range 97 122 c
     || (Js.in_range 224 254 c && negb (Js.code c =? 247)%N)
  then ascii_of_N (Js.code c - 32)
  else c.

(** The literal [lit] read at the start of [s]: the code units of [s]
    it consumes. *)
Fixpoint match_literal (lit s : list ascii) : option (list ascii) :=
  match lit, s with
  | [], _ => Some []
  | _ :: _, [] => None
  | a :: lit', b :: s' =>
      if Ascii.eqb (canonicalize a) (canonicalize b)
      then option_map (cons b) (match_literal lit' s')
      else None
  end.

(** The group at the start of [s]: the alternatives are tried from left
    to right, and nothing follows the group. *)
Fixpoint exec_at (re : t) (s : list ascii) : option (list ascii) :=
  match re with
  | [] => None
  | lit :: re' =>
      match match_literal lit s with
      | Some m => Some m
      | None => exec_at re' s
      end
  end.

(** What [replace] sees when it walks the text: code units outside
    every match, and matches. *)
Inductive Segment :=
| Plain (c : ascii)
| Matched (m : list ascii).

(** The matches of a global pattern, from left to right.  [inside]
    counts the code units of the current match still to be passed.
    After an empty match the search resumes one code unit further. *)
Fixpoint scan (re : t) (inside : nat) (s : list ascii) {struct s} : list Segment :=
  match inside with
  | S k =>
      match s with
      | [] => []
      | _ :: s' => scan re k s'
      end
  | O =>
      match exec_at re s with
      | Some [] =>
          Matched [] :: match s with
                        | [] => []
                        | c :: s' => Plain c :: scan re 0 s'
                        end
      | Some (x :: m') =>
          Matched (x :: m') :: match s with
                               | [] => []
                               | _ :: s' => scan re (length m') s'
                               end
      | None =>
          match s with
          | [] => []
          | c :: s' => Plain c :: scan re 0 s'
          end
      end
  end.

(** The replacement [<mark>$1</mark>], [$1] being the match. *)
Definition expand (seg : Segment) : list ascii :=
  match seg with
  | Plain c => [c]
  | Matched m => Js.chars "<mark>" ++ m ++ Js.chars "</mark>"
  end.

(** [text.replace(regex, '<mark>$1</mark>')]. *)
Definition replace (text : string) (regex : t) : string :=
  Js.str (flat_map expand (scan regex 0 (Js.chars text))).

End RegExp.

(** [text] and [termsToHighlight] may be missing; the terms are strings.
    The outer [None] tells that the pattern built leaves the fragment
    [RegExp] reads, which never happens. *)
Definition highlightMatches (text : option string) (termsToHighlight : option (list string))
  : option (option string) :=
  match text, termsToHighlight with
  | Some t, Some terms =>
      if negb (Js.truthy t) || Nat.eqb (length terms) 0
      then Some text
      else
        let escapedTerms := map RegExp.escape terms in
        if Nat.eqb (length escapedTerms) 0 then Some text
        else
          match RegExp.compile (RegExp.pattern_of escapedTerms) with
          | Some regex => Some (Some (RegExp.replace t regex))
          | None => None
          end
  | _, _ => Some text
  end.

(** ** LRUCache (performanceOptimizer.js, lines 193-232)

    The [Map] of the class is the insertion-ordered map of
    [SearchCache], with its operations; keys are strings.  [capacity] is
    the number given to the constructor, an integer here. *)
Module LRUCache.

Section Cache.

Context {V : Type}.

Record t := mk {
  capacity : Z;
  cache : list (string * V)
}.

Definition constructor (capacity : Z) : t := mk capacity [].

(** [get]: [null] ([None]) for a key that is not there; a key that is
    there moves to the end. *)
Definition get (c : t) (key : string) : option V * t :=
  if negb (SearchCache.has (cache c) key) then (None, c)
  else
    match SearchCache.get (cache c) key with
    | Some value =>
        let cache := SearchCache.delete (cache c) key in
        let cache := SearchCache.set cache key value in
        (Some value, mk (capacity c) cache)
    | None => (None, c)
    end.

Definition put (c : t) (key : string) (value : V) : t :=
  let cache :=
    if SearchCache.has (cache c) key
    then SearchCache.delete (cache c) key
    else if (capacity c <=? Z.of_nat (SearchCache.size (cache c)))%Z
         then match SearchCache.oldestKey (cache c) with
              | Some oldestKey => SearchCache.delete (cache c) oldestKey
              | None => cache c
              end
         else cache c in
  mk (capacity c) (SearchCache.set cache key value).

Definition delete (c : t) (key : string) : t :=
  mk (capacity c) (SearchCache.delete (cache c) key).

Definition clear (c : t) : t := mk (capacity c) [].

Definition size (c : t) : nat := SearchCache.size (cache c).

End Cache.

Arguments t V : clear implicits.

End LRUCache.

(** ** VirtualScroller: the other methods (performanceOptimizer.js,
    lines 24-89 and 172-185)

    [totalContentHeight], which the class keeps in a field and copies to
    the height of the sizer, is returned next to the state.  [container]
    lists the item elements among the children of the container, by
    index; the sizer is left out. *)
Module VirtualScrollerMethods.

Import VirtualScroller.

Section Methods.

Context {Item : Type}.

Variable renderItemFn : Item -> Z -> option Element.

(** [x || d] for an optional number: a missing one and 0 give [d]. *)
Definition number_or (x : option Z) (d : Z) : Z :=
  match x with
  | Some n => if (n =? 0)%Z then d else n
  | None => d
  end.

(** The items with their indices. *)
Definition indexed (l : list Item) : list (Z * Item) :=
  combine (zrange 0 (length l)) l.

(** One turn of the loop of lines 61-64. *)
Definition push_position (h : Z -> Item -> Z) (acc : list Z * Z) (entry : Z * Item)
  : list Z * Z :=
  let '(itemPositions, totalContentHeight) := acc in
  let '(i, item) := entry in
  (itemPositions ++ [totalContentHeight], (totalContentHeight + h i item)%Z).

Definition _calculateTotalContentHeight (st : @State Item) : @State Item * Z :=
  match getItemHeightFn st with
  | Some h =>
      let '(itemPositions, totalContentHeight) :=
        fold_left (push_position h) (indexed (allItems st)) ([], 0%Z) in
      ({| allItems := allItems st;
          itemHeight := itemHeight st;
          bufferSize := bufferSize st;
          getItemHeightFn := getItemHeightFn st;
          itemPositions := itemPositions;
          scrollTop := scrollTop st;
          viewportHeight := viewportHeight st;
          renderedItems := renderedItems st;
          container := container st |},
       totalContentHeight)
  | None => (st, (item_count st * itemHeight st)%Z)
  end.

(** [updateViewport], given what the container reports. *)
Definition updateViewport (st : @State Item) (containerScrollTop clientHeight : Z) : @State Item :=
  {| allItems := allItems st;
     itemHeight := itemHeight st;
     bufferSize := bufferSize st;
     getItemHeightFn := getItemHeightFn st;
     itemPositions := itemPositions st;
     scrollTop := containerScrollTop;
     viewportHeight := clientHeight;
     renderedItems := renderedItems st;
     container := container st |}.

Definition updateItems (st : @State Item) (newItems : list Item) : @State Item * Z :=
  let st := {| allItems := newItems;
               itemHeight := itemHeight st;
               bufferSize := bufferSize st;
               getItemHeightFn := getItemHeightFn st;
               itemPositions := itemPositions st;
               scrollTop := scrollTop st;
               viewportHeight := viewportHeight st;
               renderedItems := renderedItems st;
               container := container st |} in
  let '(st, totalContentHeight) := _calculateTotalContentHeight st in
  let st := {| allItems := allItems st;
               itemHeight := itemHeight st;
               bufferSize := bufferSize st;
               getItemHeightFn := getItemHeightFn st;
               itemPositions := itemPositions st;
               scrollTop := scrollTop st;
               viewportHeight := viewportHeight st;
               renderedItems := [];
               container := [] |} in
  (render renderItemFn st, totalContentHeight).

(** The constructor; [itemHeight] and [bufferSize] are the two
    options, [containerScrollTop] and [clientHeight] what the
    container reports to [updateViewport]. *)
Definition constructor (allItems : list Item) (itemHeight bufferSize : option Z)
           (getItemHeightFn : option (Z -> Item -> Z))
           (containerScrollTop clientHeight : Z) : @State Item * Z :=
  let st := {| allItems := allItems;
               itemHeight := number_or itemHeight 50;
               bufferSize := number_or bufferSize 10;
               getItemHeightFn := getItemHeightFn;
               itemPositions := [];
               scrollTop := 0;
               viewportHeight := 0;
               renderedItems := [];
               container := [] |} in
  let '(st, totalContentHeight) := _calculateTotalContentHeight st in
  let st := updateViewport st containerScrollTop clientHeight in
  (render renderItemFn st, totalContentHeight).


End Methods.

End VirtualScrollerMethods.

(** ** renderPrompts: the client-side filtering (promptListRender.js,
    lines 30-48)

    [currentParams] holds the search text, the user filter, the category
    id and the tag id, each a string or missing; [sessionUser] is
    [window.session && window.session.user].  The author of a prompt is
    its property [author], kept in [Prompt.extra]. *)
Module RenderPrompts.

Record Params := mkParams {
  search : option string;
  userId : option string;
  category : option string;
  tag : option string
}.

(** [p[name]] for a property kept in [Prompt.extra]. *)
Fixpoint property (l : list (string * string)) (name : string) : option string :=
  match l with
  | [] => None
  | (k, v) :: l' => if String.eqb k name then Some v else property l' name
  end.

(** [text && text.toLowerCase().includes(q)]. *)
Definition text_includes (text : option string) (q : string) : bool :=
  match text with
  | Some t => Js.truthy t && Js.includes (Js.toLowerCase t) q
  | None => false
  end.

Definition filteredPrompts (currentParams : Params) (sessionUser : option string)
           (allPrompts : list Prompt.t) : list Prompt.t :=
  let filteredPrompts := allPrompts in
  let filteredPrompts :=
    match search currentParams with
    | Some s =>
        if Js.truthy s && negb (String.eqb (Js.trim s) EmptyString)
        then
          let q := Js.toLowerCase (Js.trim s) in
          List.filter (fun p => text_includes (Prompt.title p) q
                                || text_includes (Prompt.content p) q)
                      filteredPrompts
        else filteredPrompts
    | None => filteredPrompts
    end in
  let filteredPrompts :=
    match userId currentParams, sessionUser with
    | Some u, Some user =>
        if Js.truthy u && String.eqb u "me" && Js.truthy user
        then List.filter (fun p => match property (Prompt.extra p) "author" with
                                   | Some author => String.eqb author user
                                   | None => false
                                   end)
                         filteredPrompts
        else filteredPrompts
    | _, _ => filteredPrompts
    end in
  let filteredPrompts :=
    match category currentParams with
    | Some c =>
        if Js.truthy c
        then List.filter (fun p => match Prompt.category p with
                                   | Some pc => String.eqb pc c
                                   | None => false
                                   end)
                         filteredPrompts
        else filteredPrompts
    | None => filteredPrompts
    end in
  let filteredPrompts :=
    match tag currentParams with
    | Some t =>
        if Js.truthy t
        then List.filter (fun p => match Prompt.tags p with
                                   | Prompt.Array ptags => Js.arr_includes ptags t
                                   | _ => false
                                   end)
                         filteredPrompts
        else filteredPrompts
    | None => filteredPrompts
    end in
  filteredPrompts.

End RenderPrompts.

(** * Part II: definitions used to state the properties *)

(** ** Edit distance *)

(** The classic recursive edit distance, peeling both words from the
    front. *)
Fixpoint lev (a b : list ascii) {struct a} : nat :=
  match a with
  | [] => length b
  | x :: a' =>
      (fix lev_a (b : list ascii) : nat :=
         match b with
         | [] => length a
         | y :: b' =>
             min3 (lev a' (y :: b') + 1) (lev_a b' + 1) (lev a' b' + indicator x y)
         end) b
  end.

(** Reversed prefix of length [k]. *)
Definition pre (s : list ascii) (k : nat) : list ascii := rev (take k s).

(** The value the loop leaves in [track[j][i]]. *)
Definition cell (a b : list ascii) (i j : nat) : nat := lev (pre a i) (pre b j).

(** [track] has its declared shape. *)
Definition shaped (rows cols : nat) (m : Track.t) : Prop :=
  length m = rows /\ Forall (fun row => length row = cols) m.

(** Loop invariant of [fill_track] on the strings [a], [b]: every cell of
    the border, of the rows above [jj] and of row [jj] left of [ii] holds
    its final value. *)
Definition filled (a b : list ascii) (jj ii : nat) (m : Track.t) : Prop :=
  shaped (S (length b)) (S (length a)) m /\
  forall j i, j <= length b -> i <= length a ->
              (j = 0 \/ i = 0 \/ j < jj \/ (j = jj /\ i < ii)) ->
              Track.rd m j i = cell a b i j.

(** ** Scoring, as the specification words it *)

Definition sumZ (l : list Z) : Z := fold_right Z.add 0%Z l.

(** Weight a query token collects from one field: the field's weight when
    the token matches the field's token set. *)
Definition field_weight (w : Z) (fieldTokens : list string) (fuzzy : bool) (queryToken : string) : Z :=
  if termMatches queryToken fieldTokens fuzzy FUZZY_MATCH_THRESHOLD then w else 0%Z.

(** Sum of the weights of every field the token matches: title 10,
    description 5, content 3, tags 7. *)
Definition token_weight (prompt : Prompt.t) (fuzzy : bool) (queryToken : string) : Z :=
  let fields := promptFieldTokens prompt in
  (field_weight 10 (ft_title fields) fuzzy queryToken
   + field_weight 5 (ft_description fields) fuzzy queryToken
   + field_weight 3 (ft_content fields) fuzzy queryToken
   + field_weight 7 (ft_tags fields) fuzzy queryToken)%Z.

(** The token matched at least one field. *)
Definition token_matched (prompt : Prompt.t) (fuzzy : bool) (queryToken : string) : bool :=
  let fields := promptFieldTokens prompt in
  termMatches queryToken (ft_title fields) fuzzy FUZZY_MATCH_THRESHOLD
  || termMatches queryToken (ft_description fields) fuzzy FUZZY_MATCH_THRESHOLD
  || termMatches queryToken (ft_content fields) fuzzy FUZZY_MATCH_THRESHOLD
  || termMatches queryToken (ft_tags fields) fuzzy FUZZY_MATCH_THRESHOLD.

(** Number of distinct strings of a list. *)
Definition distinct_count (l : list string) : nat :=
  length (nodup string_dec l).

(** [needle] occurs in [text], letter case ignored. *)
Definition occurs_ignoring_case (needle : string) (text : option string) : bool :=
  match text with
  | Some t => Js.includes (Js.toLowerCase t) (Js.toLowerCase needle)
  | None => false
  end.

(** 20 for the title, else 15 for the description, else 10 for the
    content. *)
Definition phrase_bonus (prompt : Prompt.t) (phrase : string) : Z :=
  if occurs_ignoring_case phrase (Prompt.title prompt) then 20%Z
  else if occurs_ignoring_case phrase (Prompt.description prompt) then 15%Z
  else if occurs_ignoring_case phrase (Prompt.content prompt) then 10%Z
  else 0%Z.

Definition score_spec (prompt : Prompt.t) (queryTokens : list string) (fuzzy : bool) : Z :=
  (sumZ (map (token_weight prompt fuzzy) queryTokens)
   + 5 * Z.of_nat (distinct_count (List.filter (token_matched prompt fuzzy) queryTokens))
   + phrase_bonus prompt (Js.join " " queryTokens))%Z.

(** A token as the tokenizer produces it: not empty, and unchanged by
    lower-casing. *)
Definition normalized_token (s : string) : Prop :=
  s <> EmptyString /\ Js.toLowerCase s = s.

(** The update of [matchedQueryTerms] in one iteration, [keep] telling
    whether the token was found. *)
Definition add_if (keep : string -> bool) (s : list string) (x : string) : list string :=
  if keep x then set_add s x else s.

(** ** Filters, as the specification words them *)

(** The prompt's [tags] is an array that contains every tag of [T]. *)
Definition has_every_tag (T : list string) (p : Prompt.t) : Prop :=
  exists ptags, Prompt.tags p = Prompt.Array ptags /\ forall t, In t T -> In t ptags.

Definition has_every_tagb (T : list string) (p : Prompt.t) : bool :=
  match Prompt.tags p with
  | Prompt.Array ptags => forallb (fun t => if in_dec string_dec t ptags then true else false) T
  | _ => false
  end.

(** The filter object [{ tags: T }]. *)
Definition tags_only (T : list string) : Filters.t :=
  Filters.mk PUndefined (Some T) None.

(** ** Calls of [search] and the cache *)

(** Options as [search] reads them. *)
Definition filters_of (options : Options) : Filters.t := default Filters.empty (opt_filters options).
Definition fuzzy_of (options : Options) : bool := default false (opt_fuzzy options).
Definition useCache_of (options : Options) : bool := default true (opt_useCache options).

Definition normalizedQuery_of (searchQuery : option string) : string :=
  Js.trim (default EmptyString (Js.or_else searchQuery None)).

Definition queryTokens_of (searchQuery : option string) : list string :=
  tokenizeAndNormalize (Some (normalizedQuery_of searchQuery)).



(** One call of [search]: documents, query, options. *)
Definition call : Type := list Prompt.t * option string * Options.

(** The key under which the call reads and writes the cache: none when
    caching is off or the filters cannot be serialised. *)
Definition call_key (c : call) : option string :=
  let '(_, searchQuery, options) := c in
  if useCache_of options
  then match JSON.stringify (filters_of options) with
       | Return json =>
           Some (normalizedQuery_of searchQuery ++ "|" ++ json ++ "|fuzzy:"
                 ++ (if fuzzy_of options then "true" else "false"))%string
       | Throw _ => None
       end
  else None.

Definition do_call {env : DateEnv} (st : State) (c : call) : outcome SearchResult * State :=
  let '(allPrompts, searchQuery, options) := c in
  search st allPrompts searchQuery options.

(** State after a sequence of calls. *)
Definition run {env : DateEnv} (st : State) (calls : list call) : State :=
  fold_left (fun st c => snd (do_call st c)) calls st.



(** ** A sample date environment, for the examples

    Date-only ISO strings are read as UTC midnight; the local time zone is
    UTC. *)
Definition sample_newDate (s : string) : option Z :=
  if String.eqb s "2024-01-01" then Some 1704067200000%Z
  else if String.eqb s "2024-02-01" then Some 1706745600000%Z
  else if String.eqb s "2024-03-01" then Some 1709251200000%Z
  else None.

Definition sample_dates : DateEnv :=
  {| newDate := sample_newDate;
     endOfDay := fun t => (t - t mod 86400000 + 86399999)%Z |}.



(** ** Sample prompts and options, for the examples *)

Definition sample_prompt (id : string) (title content : string) (tags : list string)
           (category updated_at : string) : Prompt.t :=
  {| Prompt.id := id;
     Prompt.title := Some title;
     Prompt.description := None;
     Prompt.content := Some content;
     Prompt.tags := Prompt.Array tags;
     Prompt.category := Some category;
     Prompt.updated_at := Some updated_at;
     Prompt.created_at := None;
     Prompt._searchScore := None;
     Prompt.extra := [] |}.

Definition p1 : Prompt.t :=
  sample_prompt "p1" "React Component Creator" "...dropdown menu..."
                ["react"; "typescript"] "cat1" "2024-01-01".

Definition p2 : Prompt.t :=
  sample_prompt "p2" "Marketing Campaign Analyzer" "...ROI..."
                ["marketing"] "cat2" "2024-02-01".

Definition p3 : Prompt.t :=
  sample_prompt "p3" "React Hooks Cheatsheet" "useState, useEffect"
                ["react"] "cat1" "2024-03-01".

(** [search(docs, q)] with no third argument. *)
Definition default_options : Options := mkOptions None None None.

Definition options_with_filters (f : Filters.t) : Options := mkOptions (Some f) None None.



(** ** Order of the results *)



(** [{ category: 'cat1' }]. *)
Definition cat1_filters : Filters.t := Filters.mk (PStr "cat1") None None.


(** ** Heap: what a call leaves untouched *)

(** [s'] has every object and every array of [s], unchanged, and maybe
    more. *)
Definition extends (s s' : Heap.Store) : Prop :=
  (exists os, Heap.objects s' = Heap.objects s ++ os)
  /\ (exists ars, Heap.arrays s' = Heap.arrays s ++ ars).

(** Every reference of the list points to an allocated object. *)
Definition valid_refs (s : Heap.Store) (l : list nat) : Prop :=
  Forall (fun r => r < length (Heap.objects s)) l.

(** [a] is an allocated array of allocated objects. *)
Definition valid_array (s : Heap.Store) (a : nat) : Prop :=
  a < length (Heap.arrays s) /\ valid_refs s (Heap.arr s a).

(** [a] is an array allocated after the store was [s0], in a store that
    extends [s0]. *)
Definition local_array (s0 s : Heap.Store) (a : nat) : Prop :=
  extends s0 s /\ length (Heap.arrays s0) <= a < length (Heap.arrays s)
  /\ valid_refs s (Heap.arr s a).





(** ** The rendered window *)

Module Window.

Import PromptList.

(** A block exists for index [i]. *)
Definition rendered (st : State) (i : Z) : Prop :=
  exists b, In b (children st) /\ virtual_idx b = i.

(** The blocks are those of the indices [startIdx <= i < endIdx], one
    each. *)
Definition window (st : State) (startIdx endIdx : Z) : Prop :=
  (forall i, rendered st i <-> (startIdx <= i < endIdx)%Z)
  /\ List.NoDup (map virtual_idx (children st)).


(** What holds between two render passes: nothing is rendered before
    the first pass, and afterwards the blocks are those of the window
    remembered in [lastStartIdx], [lastEndIdx]. *)
Definition consistent (st : State) : Prop :=
  match lastStartIdx st, lastEndIdx st with
  | Some s, Some e => window st s e
  | None, None => children st = []
  | _, _ => False
  end.

(** The states in which a render pass can start: the state built by
    lines 94-131, and every state reached from it by render passes,
    scrolling and resizing. *)
Inductive idle : State -> Prop :=
| idle_initial viewMode total clientHeight offsetWidth :
    idle (initial viewMode total clientHeight offsetWidth)
| idle_render st : idle st -> idle (renderVisible st)
| idle_scroll st newScrollTop : idle st -> idle (with_scrollTop st newScrollTop)
| idle_resize st clientHeight newOffsetWidth :
    idle st -> idle (with_viewport st clientHeight newOffsetWidth).

(** The end index as the specification writes it, to be read as the
    last index of a closed interval. *)
Definition spec_endIndex (st : State) : Z :=
  Z.min (total st - 1)
        (ceil_div (scrollTop st + containerHeight st) (ITEM_HEIGHT (viewMode st)) + BUFFER).

(** The fragment after [n] turns of the insertion loop. *)
Definition fragment (st : State) (kept : list Block) (endIdx : Z) (n : nat) : list Block :=
  fold_left (insert_step st kept endIdx) (seq 0 n) [].

End Window.


(** ** The window of VirtualScroller *)

Module ScrollerWindow.

Import VirtualScroller.

Section Spec.

Context {Item : Type} (renderItemFn : Item -> Z -> option Element).

(** First and last index of the window, as the specification writes
    them. *)
Definition spec_startIndex (st : @State Item) : Z :=
  Z.max 0 (floor_div (scrollTop st) (itemHeight st) - bufferSize st).

Definition spec_endIndex (st : @State Item) : Z :=
  Z.min (item_count st - 1)
        (ceil_div (scrollTop st + viewportHeight st) (itemHeight st) + bufferSize st).



End Spec.

End ScrollerWindow.

(** A scroller over five items of height 50 in a viewport of 100 pixels,
    one item of buffer, before its first pass. *)
Definition sample_scroller : VirtualScroller.State (Item := string) :=
  VirtualScroller.mkState ["a"; "b"; "c"; "d"; "e"] 50 1 None [] 0 100 [] [].

(** A render callback that always produces an element, and one that never
    does. *)
Definition render_always (item : string) (i : Z) : option VirtualScroller.Element :=
  Some (VirtualScroller.mkElement None None).

Definition render_never (item : string) (i : Z) : option VirtualScroller.Element := None.

(** ** 150 calls with different queries *)




(** ** The two models of [search] side by side *)

(** A cache with every value replaced by its image under [f]. *)
Definition map_values {V W} (f : V -> W) (c : list (string * V)) : list (string * W) :=
  map (fun kv => (fst kv, f (snd kv))) c.

(** What a result of the heap model shows when read in the store [s]. *)
Definition view (s : Heap.Store) (r : Heap.Result) : SearchResult :=
  {| results := Heap.contents s (Heap.results r);
     highlightTerms := Heap.highlightTerms r |}.

(** The state of the heap model shows the state [st] of the value model:
    same console, same cache when the stored arrays are read, and every
    stored array is allocated. *)
Definition shows (hst : Heap.State) (st : State) : Prop :=
  Heap.console hst = console st
  /\ searchCache st = map_values (view (Heap.store hst)) (Heap.searchCache hst)
  /\ Forall (fun kv => valid_array (Heap.store hst) (Heap.results (snd kv)))
            (Heap.searchCache hst).

(** The outcomes agree: the same exception, or results that read the
    same. *)
Definition same_outcome (s : Heap.Store) (h : outcome Heap.Result) (v : outcome SearchResult)
  : Prop :=
  match h, v with
  | Return r, Return r' => view s r = r'
  | Throw e, Throw e' => e = e'
  | _, _ => False
  end.

(** ** Strings, one more code unit at the end *)

Definition snoc (s : string) (c : ascii) : string := (s ++ String c EmptyString)%string.

(** ** Tokens *)

(** The code units a token is made of: [a-z], [0-9] and [_]. *)
Definition token_char (c : ascii) : bool :=
  Js.in_range 97 122 c || Js.in_range 48 57 c || (Js.code c =? 95)%N.

(** A well-formed token: not empty, made of [token_char]s. *)
Definition word_token (s : string) : Prop :=
  s <> EmptyString /\ Forall (fun c => token_char c = true) (Js.chars s).

(** ** Scores *)

(** The phrase test of lines 145-151 succeeds for one of the three text
    fields. *)
Definition phrase_found (prompt : Prompt.t) (queryTokens : list string) : bool :=
  let fullQueryString := Js.join " " queryTokens in
  Nat.ltb 0 (String.length fullQueryString)
  && (checkPhrase fullQueryString (Prompt.title prompt)
      || checkPhrase fullQueryString (Prompt.description prompt)
      || checkPhrase fullQueryString (Prompt.content prompt)).

(** Some query token matches some field of the prompt. *)
Definition some_token_matches (prompt : Prompt.t) (queryTokens : list string) (fuzzy : bool) : Prop :=
  exists queryToken, In queryToken queryTokens /\ token_matched prompt fuzzy queryToken = true.

(** The bonus lines 145-151 add. *)
Definition phrase_points (prompt : Prompt.t) (queryTokens : list string) : Z :=
  let fullQueryString := Js.join " " queryTokens in
  if Nat.ltb 0 (String.length fullQueryString)
  then if checkPhrase fullQueryString (Prompt.title prompt) then 20%Z
       else if checkPhrase fullQueryString (Prompt.description prompt) then 15%Z
       else if checkPhrase fullQueryString (Prompt.content prompt) then 10%Z
       else 0%Z
  else 0%Z.

(** ** Ranking *)



(** ** Filters *)

(** A filter that is not active lets every prompt pass. *)
Definition passes (f : option (Prompt.t -> bool)) (p : Prompt.t) : bool :=
  match f with
  | Some keep => keep p
  | None => true
  end.

(** Every active filter accepts the prompt. *)
Definition accepts {env : DateEnv} (filters : Filters.t) (p : Prompt.t) : bool :=
  passes (category_filter filters) p
  && passes (tags_filter filters) p
  && passes (date_filter filters) p.

(** The filter object without its [dateRange]. *)
Definition without_dateRange (filters : Filters.t) : Filters.t :=
  Filters.mk (Filters.category filters) (Filters.tags filters) None.

(** The time value [t] lies between the bounds that are given, the end
    bound standing for the end of its day. *)
Definition within {env : DateEnv} (start end_ : option Z) (t : Z) : Prop :=
  (forall s, start = Some s -> (s <= t)%Z) /\ (forall e, end_ = Some e -> (t <= endOfDay e)%Z).

(** [{ dateRange: { startDate: '2024-02-01' } }]. *)
Definition since_february : Filters.t :=
  Filters.mk PUndefined None (Some (Filters.mkRange (Some "2024-02-01") None)).

(** ** Highlighting *)

(** The text the segments stand for, the tags left out. *)
Definition erase (segs : list RegExp.Segment) : list ascii :=
  flat_map (fun seg => match seg with
                       | RegExp.Plain c => [c]
                       | RegExp.Matched m => m
                       end) segs.

(** The pieces of text that get wrapped, from left to right. *)
Definition marks (segs : list RegExp.Segment) : list (list ascii) :=
  flat_map (fun seg => match seg with
                       | RegExp.Plain _ => []
                       | RegExp.Matched m => [m]
                       end) segs.

(** No alternative of [re] occurs anywhere in [s], letter case ignored. *)
Definition absent (re : list (list ascii)) (s : list ascii) : Prop :=
  forall lit, In lit re ->
              Js.includes_chars (map Js.lower_char s) (map Js.lower_char lit) = false.

(** The string [replace] builds from the segments. *)
Definition render_segments (segs : list RegExp.Segment) : string :=
  Js.str (flat_map RegExp.expand segs).

(** ** Calls on an LRUCache *)

Module LRUCalls.

Section Calls.

Context {V : Type}.

Inductive Op :=
| Get (key : string)
| Put (key : string) (value : V)
| Delete (key : string)
| Clear.

Definition step (c : LRUCache.t V) (op : Op) : LRUCache.t V :=
  match op with
  | Get key => snd (LRUCache.get c key)
  | Put key value => LRUCache.put c key value
  | Delete key => LRUCache.delete c key
  | Clear => LRUCache.clear c
  end.

(** The cache after a sequence of calls. *)
Definition run (c : LRUCache.t V) (ops : list Op) : LRUCache.t V :=
  fold_left step ops c.

(** A [get] or a [put] on a key other than [key]. *)
Definition on_other_key (key : string) (op : Op) : Prop :=
  match op with
  | Get k => k <> key
  | Put k _ => k <> key
  | Delete _ => False
  | Clear => False
  end.

(** The entries from the one of [key] on: [key] and what was used
    after it. *)
Fixpoint from_key (key : string) (l : list (string * V)) : list (string * V) :=
  match l with
  | [] => []
  | (k, v) :: l' => if String.eqb k key then l else from_key key l'
  end.

End Calls.

Arguments Op V : clear implicits.

End LRUCalls.

(** What every reachable cache satisfies: each key once, and no more
    entries than the capacity allows. *)
Definition lru_ok {V} (c : LRUCache.t V) : Prop :=
  List.NoDup (SearchCache.keys (LRUCache.cache c))
  /\ (Z.of_nat (LRUCache.size c) <= Z.max 1 (LRUCache.capacity c))%Z.

(** ** The viewport of the prompt list *)

Module Viewport.

Import PromptList.

(** [colCount] of lines 175 and 194. *)
Definition colCount (st : State) : Z := Z.max 1 (floor_div (offsetWidth st) 340).

(** The block meets the viewport: its pixel rows [top, top + ITEM_HEIGHT)
    and the rows [scrollTop, scrollTop + containerHeight) have a row in
    common. *)
Definition visible (st : State) (b : Block) : Prop :=
  (top b < scrollTop st + containerHeight st)%Z
  /\ (scrollTop st < top b + ITEM_HEIGHT (viewMode st))%Z.



(** A grid of 1000 prompts, three columns wide, scrolled to row 20. *)
Definition scrolled_grid : State :=
  with_scrollTop (initial GridView 1000 600 1024) 5200.

End Viewport.

(** ** VirtualScroller: elements, container, positions *)

Module ScrollerSpec.

Import VirtualScroller VirtualScrollerMethods.

Section Spec.

Context {Item : Type} (renderItemFn : Item -> Z -> option Element).

(** The offset lines 113-114 give the element of index [i]. *)
Definition top_of (st : @State Item) (i : Z) : option Z :=
  match getItemHeightFn st with
  | Some _ => lookup_index (itemPositions st) i
  | None => Some (i * itemHeight st)%Z
  end.

(** The element [e0] once lines 113-117 have placed it for index [i]. *)
Definition placed (st : @State Item) (i : Z) (e0 : Element) : Element :=
  {| style_top := top_of st i;
     style_height := match getItemHeightFn st with
                     | Some _ => style_height e0
                     | None => Some (itemHeight st)
                     end |}.

(** Where the element of index [i] comes from: the previous pass, or
    the callback applied to the item of that index. *)
Definition source (st : @State Item) (i : Z) (e0 : Element) : Prop :=
  In (i, e0) (renderedItems st)
  \/ exists item, lookup_index (allItems st) i = Some item /\ renderItemFn item i = Some e0.

(** Loop invariant of [render] about the elements, [done] being the
    indices visited. *)
Definition elements_inv (st : @State Item) (done : list Z) (p : Pass) : Prop :=
  (forall i e, map_get (new_items p) i = Some e ->
               In i done /\ (0 <= i < item_count st)%Z
               /\ exists e0, e = placed st i e0 /\ source st i e0)
  /\ (forall i e, In (i, e) (old_items p) -> In (i, e) (renderedItems st)).



(** The heights the callback gives the items, in order. *)
Definition heights (h : Z -> Item -> Z) (items : list Item) : list Z :=
  map (fun entry => h (fst entry) (snd entry)) (indexed items).

End Spec.

End ScrollerSpec.

(** Five items of heights 10, 20, 30, 40 and 50 pixels. *)
Definition sample_heights (i : Z) (item : string) : Z := ((i + 1) * 10)%Z.

Module ScrollerLife.

Import VirtualScroller VirtualScrollerMethods ScrollerSpec.

Section Life.

Context {Item : Type} (renderItemFn : Item -> Z -> option Element).


(** The running sums [t, t + x1, t + x1 + x2, ...] of a list, the
    last sum left out. *)
Fixpoint running_sums (t : Z) (l : list Z) : list Z :=
  match l with
  | [] => []
  | x :: l' => t :: running_sums (t + x) l'
  end.

(** With variable heights every item has its position. *)
Definition positions_known (st : @State Item) : Prop :=
  match getItemHeightFn st with
  | Some _ => length (itemPositions st) = length (allItems st)
  | None => True
  end.

End Life.

End ScrollerLife.

(** ** The filter of the list and the search engine *)

(** The category and the tag of the list parameters as a filter object of
    the search engine. *)
Definition filters_of_params (params : RenderPrompts.Params) : Filters.t :=
  Filters.mk
    (match RenderPrompts.category params with
     | Some c => PStr c
     | None => PUndefined
     end)
    (match RenderPrompts.tag params with
     | Some t => if Js.truthy t then Some [t] else None
     | None => None
     end)
    None.

(** A search text made of words of letters, digits and underscores with
    single blanks between them: trimmed and lower-cased it is its tokens
    joined by blanks. *)
Definition plain_query (s : string) : Prop :=
  Js.trim s <> EmptyString
  /\ Js.join " " (queryTokens_of (Some s)) = Js.toLowerCase (Js.trim s).

(** List parameters with nothing but a search text. *)
Definition text_only (s : string) : RenderPrompts.Params :=
  RenderPrompts.mkParams (Some s) None None None.

(** * Part III: lemmas and theorems *)

(** * Edit distance *)

Lemma lev_nil_r a : lev a [] = length a.
Proof. destruct a; reflexivity. Qed.

Lemma lev_cons x a y b :
  lev (x :: a) (y :: b)
  = min3 (lev a (y :: b) + 1) (lev (x :: a) b + 1) (lev a b + indicator x y).
Proof. reflexivity. Qed.

Lemma indicator_sym x y : indicator x y = indicator y x.
Proof. unfold indicator. rewrite Ascii.eqb_sym. reflexivity. Qed.

Lemma indicator_refl x : indicator x x = 0.
Proof. unfold indicator. rewrite Ascii.eqb_refl. reflexivity. Qed.

Lemma lev_sym a : forall b, lev a b = lev b a.
Proof.
  induction a as [|x a IHa]; intros b.
  - rewrite lev_nil_r. reflexivity.
  - induction b as [|y b IHb].
    + reflexivity.
    + rewrite !lev_cons, IHb, (IHa (y :: b)), (IHa b), (indicator_sym x y).
      unfold min3. lia.
Qed.

Lemma lev_refl a : lev a a = 0.
Proof.
  induction a as [|x a IH]; [reflexivity|].
  rewrite lev_cons, IH, indicator_refl. unfold min3. lia.
Qed.

Lemma pre_0 s : pre s 0 = [].
Proof. reflexivity. Qed.

Lemma pre_S s k : k < length s -> pre s (S k) = char_at s k :: pre s k.
Proof.
  intros Hk. unfold pre, char_at.
  destruct (lookup_lt_is_Some_2 s k Hk) as [x Hx].
  rewrite (take_S_r _ _ _ Hx), rev_app_distr. simpl.
  rewrite (nth_lookup_Some _ _ _ _ Hx). reflexivity.
Qed.

Lemma pre_length s k : k <= length s -> length (pre s k) = k.
Proof. intros Hk. unfold pre. rewrite length_rev, length_take. lia. Qed.

Lemma pre_all s : pre s (length s) = rev s.
Proof. unfold pre. rewrite firstn_all. reflexivity. Qed.

Lemma cell_row0 a b i : i <= length a -> cell a b i 0 = i.
Proof. intros. unfold cell. rewrite pre_0, lev_nil_r. apply pre_length; assumption. Qed.

Lemma cell_col0 a b j : j <= length b -> cell a b 0 j = j.
Proof. intros. unfold cell. rewrite pre_0. simpl. apply pre_length; assumption. Qed.

Lemma cell_step a b i j :
  1 <= i <= length a -> 1 <= j <= length b ->
  cell a b i j
  = min3 (cell a b (i - 1) j + 1) (cell a b i (j - 1) + 1)
         (cell a b (i - 1) (j - 1) + indicator (char_at a (i - 1)) (char_at b (j - 1))).
Proof.
  intros Hi Hj. unfold cell.
  replace i with (S (i - 1)) at 1 3 by lia.
  replace j with (S (j - 1)) at 1 2 by lia.
  rewrite !pre_S by lia. apply lev_cons.
Qed.

Lemma shaped_make rows cols : shaped rows cols (Track.make rows cols).
Proof.
  split.
  - apply length_replicate.
  - apply Forall_replicate, length_replicate.
Qed.

Lemma shaped_wr rows cols m j i v : shaped rows cols m -> shaped rows cols (Track.wr m j i v).
Proof.
  intros [Hl Hr]. split.
  - unfold Track.wr. rewrite length_alter. exact Hl.
  - unfold Track.wr. apply Forall_alter; [exact Hr|].
    intros row _ Hrow. rewrite length_insert. exact Hrow.
Qed.

Lemma rd_wr_eq rows cols m j i v :
  shaped rows cols m -> j < rows -> i < cols -> Track.rd (Track.wr m j i v) j i = v.
Proof.
  intros [Hl Hr] Hj Hi. unfold Track.rd, Track.wr.
  rewrite list_lookup_alter_eq.
  destruct (lookup_lt_is_Some_2 m j ltac:(lia)) as [row Hrow].
  rewrite Hrow. cbn [fmap option_fmap option_map].
  rewrite list_lookup_insert_eq; [reflexivity|].
  rewrite Forall_lookup in Hr. rewrite (Hr _ _ Hrow). exact Hi.
Qed.

Lemma rd_wr_ne m j i v j' i' :
  (j', i') <> (j, i) -> Track.rd (Track.wr m j i v) j' i' = Track.rd m j' i'.
Proof.
  intros Hne. unfold Track.rd, Track.wr.
  destruct (decide (j = j')) as [->|Hj].
  - rewrite list_lookup_alter_eq.
    destruct (m !! j') as [row|]; cbn [fmap option_fmap option_map]; [|reflexivity].
    rewrite list_lookup_insert_ne; [reflexivity|]. congruence.
  - rewrite list_lookup_alter_ne by exact Hj. reflexivity.
Qed.

(** Invariant of a [for] loop running over [seq]. *)
Lemma fold_left_seq_inv {A} (f : A -> nat -> A) (P : nat -> A -> Prop) len :
  forall start x,
    P start x ->
    (forall k y, start <= k < start + len -> P k y -> P (S k) (f y k)) ->
    P (start + len) (fold_left f (seq start len) x).
Proof.
  induction len as [|len IH]; intros start x H0 Hstep; simpl.
  - rewrite Nat.add_0_r. exact H0.
  - replace (start + S len) with (S start + len) by lia.
    apply IH.
    + apply Hstep; [lia|exact H0].
    + intros k y Hk. apply Hstep. lia.
Qed.

Section Fill.

Variables a b : list ascii.

Let rows := S (length b).
Let cols := S (length a).

Lemma init_rows :
  let m0 := Track.make rows cols in
  let m1 := fold_left (fun m i => Track.wr m 0 i i) (seq 0 (S (length a))) m0 in
  let m2 := fold_left (fun m j => Track.wr m j 0 j) (seq 0 (S (length b))) m1 in
  filled a b 1 1 m2.
Proof using Type.
  intros m0 m1 m2.
  assert (H1 : shaped rows cols m1 /\ forall i, i < 0 + S (length a) -> Track.rd m1 0 i = i).
  { subst m1.
    apply (fold_left_seq_inv (fun m i => Track.wr m 0 i i)
             (fun k m => shaped rows cols m /\ forall i, i < k -> Track.rd m 0 i = i)).
    - split; [apply shaped_make|]. intros i Hi. lia.
    - intros k y Hk [Hs Hy]. split; [apply shaped_wr; exact Hs|].
      intros i Hi. destruct (decide (i = k)) as [->|Hne].
      + apply (rd_wr_eq rows cols); [exact Hs|subst rows; lia|subst cols; lia].
      + rewrite rd_wr_ne by congruence. apply Hy. lia. }
  destruct H1 as [Hs1 Hr1].
  assert (H2 : shaped rows cols m2 /\
               (forall i, i <= length a -> Track.rd m2 0 i = i) /\
               forall j, j < 0 + S (length b) -> Track.rd m2 j 0 = j).
  { subst m2.
    apply (fold_left_seq_inv (fun m j => Track.wr m j 0 j)
             (fun k m => shaped rows cols m /\
                         (forall i, i <= length a -> Track.rd m 0 i = i) /\
                         forall j, j < k -> Track.rd m j 0 = j)).
    - split; [exact Hs1|]. split; [intros i Hi; apply Hr1; lia|]. intros j Hj. lia.
    - intros k y Hk (Hs & Hrow & Hcol). split; [apply shaped_wr; exact Hs|]. split.
      + intros i Hi. destruct (decide ((0, i) = (k, 0))) as [Heq|Hne].
        * inversion Heq; subst. apply (rd_wr_eq rows cols); [exact Hs|subst rows; lia|subst cols; lia].
        * rewrite rd_wr_ne by exact Hne. apply Hrow. exact Hi.
      + intros j Hj. destruct (decide (j = k)) as [->|Hne].
        * apply (rd_wr_eq rows cols); [exact Hs|subst rows; lia|subst cols; lia].
        * rewrite rd_wr_ne by congruence. apply Hcol. lia. }
  destruct H2 as (Hs2 & Hrow & Hcol).
  split; [exact Hs2|].
  intros j i Hj Hi Hc.
  assert (Hji : j = 0 \/ i = 0) by lia.
  destruct Hji as [->| ->].
  - rewrite cell_row0 by exact Hi. apply Hrow. exact Hi.
  - rewrite cell_col0 by exact Hj. apply Hcol. lia.
Qed.

Lemma fill_cell_filled j i m :
  1 <= j <= length b -> 1 <= i <= length a ->
  filled a b j i m -> filled a b j (S i) (fill_cell a b j m i).
Proof using Type.
  intros Hj Hi [Hs Hm]. split; [apply shaped_wr; exact Hs|].
  intros j' i' Hj' Hi' Hc. unfold fill_cell.
  destruct (decide ((j', i') = (j, i))) as [Heq|Hne].
  - inversion Heq; subst j' i'.
    rewrite (rd_wr_eq rows cols) by (try exact Hs; subst rows cols; lia).
    rewrite !Hm by lia.
    symmetry. apply cell_step; assumption.
  - rewrite rd_wr_ne by exact Hne. apply Hm; try assumption.
    assert (~ (j' = j /\ i' = i)) by (intros [-> ->]; apply Hne; reflexivity).
    lia.
Qed.

Lemma fill_row_filled j m :
  1 <= j <= length b -> filled a b j 1 m -> filled a b (S j) 1 (fill_row a b m j).
Proof using Type.
  intros Hj Hm.
  assert (H : filled a b j (1 + length a) (fill_row a b m j)).
  { unfold fill_row.
    apply (fold_left_seq_inv (fill_cell a b j) (fun k m => filled a b j k m)).
    - exact Hm.
    - intros k y Hk Hy. apply fill_cell_filled; [exact Hj|lia|exact Hy]. }
  destruct H as [Hs H]. split; [exact Hs|].
  intros j' i' Hj' Hi' Hc. apply H; try assumption. lia.
Qed.

Lemma fill_track_filled : filled a b (S (length b)) 1 (fill_track a b).
Proof using Type.
  unfold fill_track.
  change (S (length b)) with (1 + length b) at 1.
  apply (fold_left_seq_inv (fill_row a b) (fun k m => filled a b k 1 m)).
  - apply init_rows.
  - intros k y Hk Hy. apply fill_row_filled; [lia|exact Hy].
Qed.

Lemma fill_track_corner :
  Track.rd (fill_track a b) (length b) (length a) = lev (rev a) (rev b).
Proof using Type.
  destruct fill_track_filled as [_ H].
  rewrite H by lia. unfold cell. rewrite !pre_all. reflexivity.
Qed.

End Fill.

Lemma string_length_chars s : String.length s = length (Js.chars s).
Proof. induction s as [|c s IH]; simpl; [reflexivity|]. rewrite IH. reflexivity. Qed.

Lemma truthy_false_iff s : Js.truthy s = false <-> s = EmptyString.
Proof.
  unfold Js.truthy. rewrite negb_false_iff. apply String.eqb_eq.
Qed.

(** [levenshteinDistance] is the edit distance of its arguments. *)
Theorem levenshteinDistance_lev s1 s2 :
  levenshteinDistance s1 s2 = lev (rev (Js.chars s1)) (rev (Js.chars s2)).
Proof.
  unfold levenshteinDistance.
  destruct (String.eqb s1 s2) eqn:E.
  - apply String.eqb_eq in E. subst s2. rewrite lev_refl. reflexivity.
  - destruct (Js.truthy s1) eqn:T1; simpl.
    + destruct (Js.truthy s2) eqn:T2; simpl.
      * apply fill_track_corner.
      * apply truthy_false_iff in T2. subst s2. simpl.
        rewrite lev_nil_r, length_rev. apply string_length_chars.
    + apply truthy_false_iff in T1. subst s1. simpl.
      rewrite length_rev, <- string_length_chars.
      destruct (Js.truthy s2) eqn:T2; [reflexivity|].
      apply truthy_false_iff in T2. subst s2. reflexivity.
Qed.

(** C9: the distance is symmetric, and the distance from a string to
    itself is 0. *)
Theorem levenshteinDistance_symmetric_and_zero_on_equal :
  (forall a b : string, levenshteinDistance a b = levenshteinDistance b a)
  /\ (forall a : string, levenshteinDistance a a = 0).
Proof.
  split.
  - intros a b. rewrite !levenshteinDistance_lev. apply lev_sym.
  - intros a. unfold levenshteinDistance. rewrite String.eqb_refl. reflexivity.
Qed.

(** * Strings *)

Lemma chars_str l : Js.chars (Js.str l) = l.
Proof. apply list_ascii_of_string_of_list_ascii. Qed.

Lemma str_chars s : Js.str (Js.chars s) = s.
Proof. apply string_of_list_ascii_of_string. Qed.

Lemma chars_append s t : Js.chars (s ++ t)%string = Js.chars s ++ Js.chars t.
Proof.
  unfold Js.chars. induction s as [|c s IH]; simpl; [reflexivity|].
  f_equal. exact IH.
Qed.

Lemma chars_nil_iff s : Js.chars s = [] <-> s = EmptyString.
Proof. destruct s; simpl; split; intros H; congruence. Qed.

Lemma lower_char_idem c : Js.lower_char (Js.lower_char c) = Js.lower_char c.
Proof. destruct c as [[] [] [] [] [] [] [] []]; reflexivity. Qed.

Lemma toLowerCase_append s t :
  Js.toLowerCase (s ++ t)%string = (Js.toLowerCase s ++ Js.toLowerCase t)%string.
Proof.
  unfold Js.toLowerCase. rewrite chars_append, map_app.
  unfold Js.str. induction (map Js.lower_char (Js.chars s)) as [|c l IH]; simpl; [reflexivity|].
  rewrite IH. reflexivity.
Qed.

Lemma toLowerCase_fixed_chars l :
  Forall (fun c => Js.lower_char c = c) l -> Js.toLowerCase (Js.str l) = Js.str l.
Proof.
  intros H. unfold Js.toLowerCase. rewrite chars_str. f_equal.
  induction H as [|c l Hc _ IH]; simpl; [reflexivity|]. rewrite Hc, IH. reflexivity.
Qed.

(** * Tokenizer output *)

Lemma split_ws_from_pieces s : forall cur in_run piece c,
  In piece (Js.split_ws_from cur in_run s) -> In c piece -> In c (rev cur ++ s).
Proof.
  induction s as [|x s IH]; intros cur in_run piece c Hp Hc; simpl in Hp.
  - destruct Hp as [<-|[]]. rewrite app_nil_r. exact Hc.
  - destruct (Js.is_space x).
    + assert (Htail : In piece (Js.split_ws_from [] true s) -> In c (rev cur ++ x :: s)).
      { intros H. specialize (IH [] true piece c H Hc). simpl in IH.
        apply in_or_app. right. right. exact IH. }
      destruct in_run.
      * apply Htail, Hp.
      * destruct Hp as [<-|Hp]; [apply in_or_app; left; exact Hc|apply Htail, Hp].
    + specialize (IH (x :: cur) false piece c Hp Hc). simpl in IH.
      rewrite <- app_assoc in IH. exact IH.
Qed.

Lemma tokenizeAndNormalize_normalized text :
  Forall normalized_token (tokenizeAndNormalize text).
Proof.
  unfold tokenizeAndNormalize. destruct text as [t|]; [|constructor].
  destruct (negb (Js.truthy t)); [constructor|].
  apply List.Forall_forall. intros tok Htok.
  apply in_map_iff in Htok. destruct Htok as (piece & <- & Hpiece).
  apply filter_In in Hpiece. destruct Hpiece as [Hpiece Hne].
  split.
  - intros Hempty. apply chars_nil_iff in Hempty. rewrite chars_str in Hempty.
    subst piece. discriminate.
  - apply toLowerCase_fixed_chars. apply List.Forall_forall. intros c Hc.
    pose proof (split_ws_from_pieces _ _ _ _ c Hpiece Hc) as Hin. simpl in Hin.
    apply filter_In in Hin. destruct Hin as [Hin _].
    apply in_map_iff in Hin. destruct Hin as (c0 & <- & _). apply lower_char_idem.
Qed.

Lemma join_normalized l :
  Forall normalized_token l -> Js.toLowerCase (Js.join " " l) = Js.join " " l.
Proof.
  induction 1 as [|x l [_ Hx] Hl IH]; [reflexivity|].
  destruct l as [|y l]; [exact Hx|].
  change (Js.join " " (x :: y :: l)) with (x ++ " " ++ Js.join " " (y :: l))%string.
  rewrite !toLowerCase_append, Hx, IH. reflexivity.
Qed.

Lemma join_nonempty l :
  l <> [] -> Forall normalized_token l -> 0 < String.length (Js.join " " l).
Proof.
  intros Hne H. destruct H as [|x l [Hx _] Hl]; [congruence|].
  assert (0 < String.length x) by (destruct x; [congruence|simpl; lia]).
  destruct l as [|y l]; [assumption|].
  change (Js.join " " (x :: y :: l)) with (x ++ " " ++ Js.join " " (y :: l))%string.
  rewrite string_length_chars, chars_append, length_app, <- string_length_chars. lia.
Qed.

(** * termMatches *)

Lemma termMatches_nil term fuzzy t : termMatches term [] fuzzy t = false.
Proof. unfold termMatches. simpl. destruct fuzzy; reflexivity. Qed.

(** C6: whatever [termMatches] accepts with [fuzzy = false] it accepts with
    [fuzzy = true], for the same threshold. *)
Theorem termMatches_fuzzy_superset term textTokens fuzzyThreshold :
  termMatches term textTokens false fuzzyThreshold = true ->
  termMatches term textTokens true fuzzyThreshold = true.
Proof.
  unfold termMatches.
  destruct (Js.arr_includes textTokens term); [reflexivity|discriminate].
Qed.

Lemma termMatches_fuzzy_superset_witness :
  termMatches "react" ["react"; "component"] true FUZZY_MATCH_THRESHOLD = true.
Proof.
  apply (termMatches_fuzzy_superset "react" ["react"; "component"] FUZZY_MATCH_THRESHOLD).
  reflexivity.
Defined.

(** The inclusion is strict: a token at distance 1 is accepted only by the
    fuzzy matcher. *)
Example termMatches_fuzzy_strict :
  termMatches "reactt" ["react"] false FUZZY_MATCH_THRESHOLD = false
  /\ termMatches "reactt" ["react"] true FUZZY_MATCH_THRESHOLD = true.
Proof. split; reflexivity. Qed.

(** * calculateScore *)

Lemma arr_includes_In l x : Js.arr_includes l x = true <-> In x l.
Proof.
  unfold Js.arr_includes. rewrite existsb_exists. split.
  - intros (y & Hy & Heq). apply String.eqb_eq in Heq. subst y. exact Hy.
  - intros H. exists x. split; [exact H|apply String.eqb_refl].
Qed.

(** The truthiness guards of lines 119-131 never change the outcome: a
    field that is missing or empty has no tokens. *)
Lemma text_guard_redundant text queryToken fuzzy :
  Js.truthy_opt text
  && termMatches queryToken (tokenizeAndNormalize text) fuzzy FUZZY_MATCH_THRESHOLD
  = termMatches queryToken (tokenizeAndNormalize text) fuzzy FUZZY_MATCH_THRESHOLD.
Proof.
  destruct text as [t|]; simpl.
  - destruct (Js.truthy t); simpl; [reflexivity|]. rewrite termMatches_nil. reflexivity.
  - rewrite termMatches_nil. reflexivity.
Qed.

Lemma tags_guard_redundant prompt queryToken fuzzy :
  Prompt.tags_truthy prompt && Nat.ltb 0 (Prompt.tags_length prompt)
  && termMatches queryToken (ft_tags (promptFieldTokens prompt)) fuzzy FUZZY_MATCH_THRESHOLD
  = termMatches queryToken (ft_tags (promptFieldTokens prompt)) fuzzy FUZZY_MATCH_THRESHOLD.
Proof.
  unfold Prompt.tags_truthy, Prompt.tags_length, promptFieldTokens. simpl.
  destruct (Prompt.tags prompt) as [|v|l]; simpl.
  - rewrite termMatches_nil. reflexivity.
  - rewrite termMatches_nil. apply andb_false_r.
  - destruct l as [|x l]; [|reflexivity].
    simpl. rewrite termMatches_nil. reflexivity.
Qed.

Lemma score_token_spec prompt fuzzy acc queryToken :
  score_token prompt (promptFieldTokens prompt) fuzzy acc queryToken
  = {| score := (score acc + token_weight prompt fuzzy queryToken)%Z;
       matchedQueryTerms :=
         if token_matched prompt fuzzy queryToken
         then set_add (matchedQueryTerms acc) queryToken
         else matchedQueryTerms acc |}.
Proof.
  unfold score_token.
  rewrite tags_guard_redundant.
  unfold promptFieldTokens at 1 2 3.
  cbn [ft_title ft_description ft_content].
  rewrite !text_guard_redundant.
  unfold token_weight, token_matched, field_weight, promptFieldTokens.
  cbn [ft_title ft_description ft_content ft_tags].
  unfold weights.title, weights.description, weights.content, weights.tags.
  destruct (termMatches queryToken (tokenizeAndNormalize (Prompt.title prompt)) _ _),
           (termMatches queryToken (tokenizeAndNormalize (Prompt.description prompt)) _ _),
           (termMatches queryToken (tokenizeAndNormalize (Prompt.content prompt)) _ _),
           (termMatches queryToken _ _ _);
    cbn [orb]; f_equal; lia.
Qed.

Lemma fold_score_token prompt fuzzy queryTokens : forall acc,
  fold_left (score_token prompt (promptFieldTokens prompt) fuzzy) queryTokens acc
  = {| score := (score acc + sumZ (map (token_weight prompt fuzzy) queryTokens))%Z;
       matchedQueryTerms :=
         fold_left (add_if (token_matched prompt fuzzy)) queryTokens (matchedQueryTerms acc) |}.
Proof.
  induction queryTokens as [|q qs IH]; intros acc; simpl.
  - destruct acc. simpl. f_equal. lia.
  - rewrite IH, score_token_spec. simpl. f_equal. lia.
Qed.

Lemma fold_add_if keep l : forall s,
  fold_left (add_if keep) l s = fold_left set_add (List.filter keep l) s.
Proof.
  induction l as [|x l IH]; intros s; simpl; [reflexivity|].
  unfold add_if at 2. destruct (keep x); simpl; apply IH.
Qed.

Lemma fold_set_add l : forall s,
  List.NoDup s ->
  List.NoDup (fold_left set_add l s)
  /\ forall x, In x (fold_left set_add l s) <-> In x s \/ In x l.
Proof.
  induction l as [|y l IH]; intros s Hs; simpl.
  - split; [exact Hs|]. intros x. tauto.
  - assert (Hadd : List.NoDup (set_add s y) /\ forall x, In x (set_add s y) <-> In x s \/ y = x).
    { unfold set_add. destruct (Js.arr_includes s y) eqn:E.
      - apply arr_includes_In in E. split; [exact Hs|]. intros x. split; [tauto|].
        intros [H| <-]; assumption.
      - assert (~ In y s) by (rewrite <- arr_includes_In, E; discriminate).
        split.
        + apply (Permutation.Permutation_NoDup (Permutation.Permutation_cons_append s y)).
          constructor; assumption.
        + intros x. rewrite in_app_iff. simpl. tauto. }
    destruct Hadd as [Hnd Hin].
    destruct (IH _ Hnd) as [Hnd' Hin'].
    split; [exact Hnd'|]. intros x. rewrite Hin', Hin. tauto.
Qed.

Lemma matched_count keep l :
  length (fold_left (add_if keep) l []) = distinct_count (List.filter keep l).
Proof.
  rewrite fold_add_if. unfold distinct_count.
  destruct (fold_set_add (List.filter keep l) [] (List.NoDup_nil _)) as [Hnd Hin].
  apply Permutation.Permutation_length, Permutation.NoDup_Permutation.
  - exact Hnd.
  - apply NoDup_nodup.
  - intros x. rewrite Hin, nodup_In. simpl. tauto.
Qed.

Lemma checkPhrase_spec phrase text :
  0 < String.length phrase -> Js.toLowerCase phrase = phrase ->
  checkPhrase phrase text = occurs_ignoring_case phrase text.
Proof.
  intros Hlen Hlow. unfold checkPhrase, occurs_ignoring_case.
  destruct text as [t|]; [|reflexivity].
  rewrite Hlow. destruct (Js.truthy t) eqn:T; [reflexivity|].
  apply truthy_false_iff in T. subst t. simpl.
  unfold Js.includes. simpl.
  destruct (Js.chars phrase) eqn:E; [|reflexivity].
  rewrite string_length_chars, E in Hlen. simpl in Hlen. lia.
Qed.

(** C1: on a non-empty list of query tokens (tokens as the tokenizer
    yields them, see [tokenizeAndNormalize_normalized]), [calculateScore]
    is the sum over the query tokens of the weights of the fields they
    match, plus 5 for each distinct token that matched some field, plus
    the phrase bonus of the first of title (20), description (15) and
    content (10) that contains the space-joined query, case ignored. *)
Theorem calculateScore_is_weights_coverage_phrase prompt queryTokens fuzzy :
  queryTokens <> [] ->
  Forall normalized_token queryTokens ->
  calculateScore prompt queryTokens fuzzy = score_spec prompt queryTokens fuzzy.
Proof.
  intros Hne Hnorm.
  unfold calculateScore, score_spec.
  rewrite fold_score_token. cbn [score matchedQueryTerms].
  rewrite matched_count.
  pose proof (join_nonempty _ Hne Hnorm) as Hlen.
  pose proof (join_normalized _ Hnorm) as Hlow.
  destruct (Nat.ltb_spec 0 (String.length (Js.join " " queryTokens))) as [_|Hc]; [|lia].
  rewrite !(checkPhrase_spec _ _ Hlen Hlow).
  unfold phrase_bonus.
  destruct (occurs_ignoring_case _ (Prompt.title prompt)); [lia|].
  destruct (occurs_ignoring_case _ (Prompt.description prompt)); [lia|].
  destruct (occurs_ignoring_case _ (Prompt.content prompt)); lia.
Qed.

(** * applyFilters *)

Lemma has_every_tagb_spec T p : has_every_tagb T p = true <-> has_every_tag T p.
Proof.
  unfold has_every_tagb, has_every_tag.
  destruct (Prompt.tags p) as [|v|ptags].
  - split; [discriminate|]. intros (l & Hl & _). discriminate.
  - split; [discriminate|]. intros (l & Hl & _). discriminate.
  - rewrite forallb_forall. split.
    + intros H. exists ptags. split; [reflexivity|]. intros t Ht.
      specialize (H t Ht). destruct (in_dec string_dec t ptags); [assumption|discriminate].
    + intros (l & Hl & H) t Ht. injection Hl as <-.
      destruct (in_dec string_dec t ptags) as [|Hn]; [reflexivity|].
      exfalso. apply Hn, H, Ht.
Qed.

Lemma forallb_pointwise {A} (f g : A -> bool) l :
  (forall x, f x = g x) -> forallb f l = forallb g l.
Proof.
  intros H. induction l as [|x l IH]; simpl; [reflexivity|]. rewrite H, IH. reflexivity.
Qed.

Section ApplyFilters.

Context {env : DateEnv}.

Lemma filter_when_In f l p : In p (filter_when f l) -> In p l.
Proof using Type.
  destruct f as [keep|]; simpl; [|tauto]. intros H. apply filter_In in H. tauto.
Qed.

Lemma tags_filter_active filters T :
  Filters.tags filters = Some T -> T <> [] ->
  exists keep, tags_filter filters = Some keep /\ forall p, keep p = has_every_tagb T p.
Proof using Type.
  intros HT Hne. unfold tags_filter. rewrite HT.
  destruct T as [|t0 T]; [congruence|]. simpl Nat.ltb. cbv iota.
  eexists. split; [reflexivity|].
  intros p. unfold has_every_tagb. destruct (Prompt.tags p) as [|v|ptags]; try reflexivity.
  apply forallb_pointwise. intros t.
  destruct (in_dec string_dec t ptags) as [Hin|Hn].
  - apply arr_includes_In, Hin.
  - destruct (Js.arr_includes ptags t) eqn:E; [|reflexivity].
    apply arr_includes_In in E. contradiction.
Qed.

(** C7: under a non-empty tag filter [T], every prompt [applyFilters]
    returns has an array of tags containing all of [T] (so one whose
    [tags] is missing or not an array is never returned), and when the
    tag filter is the only filter, the result is exactly the prompts
    having every tag of [T], in their original order. *)
Theorem applyFilters_tags_and prompts filters T :
  Filters.tags filters = Some T -> T <> [] ->
  (forall p, In p (applyFilters prompts filters) -> In p prompts /\ has_every_tag T p)
  /\ (forall p, has_every_tagb T p = true <-> has_every_tag T p)
  /\ applyFilters prompts (tags_only T) = List.filter (has_every_tagb T) prompts.
Proof using Type.
  intros HT Hne. split; [|split].
  - intros p Hp. unfold applyFilters in Hp.
    apply filter_when_In in Hp.
    destruct (tags_filter_active filters T HT Hne) as (keep & Hk & Hkeep).
    rewrite Hk in Hp. simpl in Hp. apply filter_In in Hp. destruct Hp as [Hp Hkp].
    split; [eapply filter_when_In; exact Hp|].
    apply has_every_tagb_spec. rewrite <- Hkeep. exact Hkp.
  - intros p. apply has_every_tagb_spec.
  - destruct (tags_filter_active (tags_only T) T eq_refl Hne) as (keep & Hk & Hkeep).
    unfold applyFilters. rewrite Hk.
    unfold category_filter, date_filter, tags_only. simpl.
    apply filter_ext. exact Hkeep.
Qed.

End ApplyFilters.

(** * The result cache *)

Module CacheFacts.

Import SearchCache.

Section Facts.

Context {V : Type}.
Implicit Types (c : list (string * V)) (v : V).

Lemma get_None_keys c k : get c k = None <-> ~ In k (keys c).
Proof.
induction c as [|[k' v] c IH]; simpl; [tauto|].
destruct (String.eqb_spec k' k) as [->|Hne].
- split; [discriminate|]. intros H. exfalso. apply H. left. reflexivity.
- rewrite IH. split; [|tauto]. intros H [Heq|Hin]; [congruence|tauto].
Qed.

Lemma has_true_keys c k : has c k = true <-> In k (keys c).
Proof.
unfold has. pose proof (get_None_keys c k) as H.
destruct (get c k).
- split; [|reflexivity]. intros _.
  destruct (in_dec string_dec k (keys c)) as [Hin|Hn]; [exact Hin|].
  apply H in Hn. discriminate.
- split; [discriminate|]. intros Hin. exfalso. apply H; [reflexivity|exact Hin].
Qed.

Lemma has_false_keys c k : has c k = false <-> ~ In k (keys c).
Proof. rewrite <- has_true_keys. destruct (has c k); split; congruence. Qed.

Lemma set_fresh c k v : ~ In k (keys c) -> set c k v = c ++ [(k, v)].
Proof.
induction c as [|[k' v'] c IH]; simpl; intros Hn; [reflexivity|].
destruct (String.eqb_spec k' k) as [->|Hne]; [exfalso; apply Hn; left; reflexivity|].
rewrite IH; [reflexivity|]. tauto.
Qed.

Lemma get_set_eq c k v : get (set c k v) k = Some v.
Proof.
induction c as [|[k' v'] c IH]; simpl.
- rewrite String.eqb_refl. reflexivity.
- destruct (String.eqb_spec k' k) as [->|Hne]; simpl.
  + rewrite String.eqb_refl. reflexivity.
  + destruct (String.eqb_spec k' k); [congruence|]. exact IH.
Qed.

Lemma delete_oldest c k : oldestKey c = Some k -> delete c k = tl c.
Proof.
destruct c as [|[k' v] c]; simpl; [discriminate|].
intros [= ->]. rewrite String.eqb_refl. reflexivity.
Qed.

Lemma keys_delete_subset c k x : In x (keys (delete c k)) -> In x (keys c).
Proof.
induction c as [|[k' v] c IH]; simpl; [tauto|].
destruct (String.eqb k' k); simpl; [tauto|]. intros [H|H]; [tauto|right; apply IH, H].
Qed.




End Facts.

End CacheFacts.

Lemma Some_eq {A} (x y : A) : Some x = Some y -> x = y.
Proof. congruence. Qed.

Section Cache.

Context {env : DateEnv}.

(** ** The three ways a call ends *)



Lemma key_truthy q json f :
  Js.truthy_opt (Some (q ++ "|" ++ json ++ "|fuzzy:" ++ f)%string) = true.
Proof using Type.
  simpl. unfold Js.truthy. destruct q; reflexivity.
Qed.





End Cache.



Section CacheBound.

Context {env : DateEnv}.






End CacheBound.

(** * Exceptions and cache transparency *)

Section Transparency.

Context {env : DateEnv}.





End Transparency.





(** * Sorting *)

Section Sort.

Context {A : Type} (cmp : A -> A -> option Z).

Lemma insert_by_perm x l : Permutation (insert_by cmp x l) (x :: l).
Proof using Type.
  induction l as [|y l IH]; simpl; [reflexivity|].
  destruct (is_positive (cmp x y)); [|reflexivity].
  rewrite IH. apply perm_swap.
Qed.

Lemma array_sort_perm l : Permutation (array_sort cmp l) l.
Proof using Type.
  induction l as [|x l IH]; simpl; [reflexivity|].
  rewrite insert_by_perm, IH. reflexivity.
Qed.

(** The comparator is [(a, b) => key(b) - key(a)]. *)
Variable key : A -> option Z.
Hypothesis cmp_key :
  forall a b, cmp a b = match key b, key a with
                        | Some kb, Some ka => Some (kb - ka)%Z
                        | _, _ => None
                        end.




End Sort.


(** * The empty query *)

Section EmptyQuery.

Context {env : DateEnv}.

Lemma prompt_date_strip p : prompt_date (strip_score p) = prompt_date p.
Proof using Type. reflexivity. Qed.

Lemma applyFilters_no_keys prompts filters :
  Filters.keys_length filters = 0 -> applyFilters prompts filters = prompts.
Proof using Type.
  unfold Filters.keys_length, applyFilters, category_filter, tags_filter, date_filter.
  destruct (Filters.category filters), (Filters.tags filters), (Filters.dateRange filters);
    simpl; intros H; try discriminate; reflexivity.
Qed.





End EmptyQuery.



(** * Heap: frame and copies *)

Lemma map_filter_comm {A B} (f : A -> B) (keep : B -> bool) l :
  map f (List.filter (fun x => keep (f x)) l) = List.filter keep (map f l).
Proof.
  induction l as [|x l IH]; simpl; [reflexivity|].
  destruct (keep (f x)); simpl; rewrite IH; reflexivity.
Qed.

Lemma insert_by_map {A B} (f : A -> B) (cmp : B -> B -> option Z) x l :
  map f (insert_by (fun a b => cmp (f a) (f b)) x l) = insert_by cmp (f x) (map f l).
Proof.
  induction l as [|y l IH]; simpl; [reflexivity|].
  destruct (is_positive (cmp (f x) (f y))); simpl; [rewrite IH|]; reflexivity.
Qed.

Lemma array_sort_map {A B} (f : A -> B) (cmp : B -> B -> option Z) l :
  map f (array_sort (fun a b => cmp (f a) (f b)) l) = array_sort cmp (map f l).
Proof.
  induction l as [|x l IH]; simpl; [reflexivity|].
  rewrite insert_by_map, IH. reflexivity.
Qed.

Module HeapFacts.

Import Heap.

Lemma extends_refl s : extends s s.
Proof. split; exists []; rewrite app_nil_r; reflexivity. Qed.

Lemma extends_trans s1 s2 s3 : extends s1 s2 -> extends s2 s3 -> extends s1 s3.
Proof.
  intros [[o1 Ho1] [a1 Ha1]] [[o2 Ho2] [a2 Ha2]]. split.
  - exists (o1 ++ o2). rewrite Ho2, Ho1, app_assoc. reflexivity.
  - exists (a1 ++ a2). rewrite Ha2, Ha1, app_assoc. reflexivity.
Qed.

Lemma extends_objects_length s s' : extends s s' -> length (objects s) <= length (objects s').
Proof. intros [[os Ho] _]. rewrite Ho, length_app. lia. Qed.

Lemma extends_arrays_length s s' : extends s s' -> length (arrays s) <= length (arrays s').
Proof. intros [_ [ars Ha]]. rewrite Ha, length_app. lia. Qed.

Lemma extends_obj s s' r : extends s s' -> r < length (objects s) -> obj s' r = obj s r.
Proof.
  intros [[os Ho] _] Hr. unfold obj. rewrite Ho, lookup_app_l by exact Hr. reflexivity.
Qed.

Lemma extends_arr s s' a : extends s s' -> a < length (arrays s) -> arr s' a = arr s a.
Proof.
  intros [_ [ars Ha]] Hr. unfold arr. rewrite Ha, lookup_app_l by exact Hr. reflexivity.
Qed.

Lemma valid_refs_extends s s' l : extends s s' -> valid_refs s l -> valid_refs s' l.
Proof.
  intros Hext Hl. unfold valid_refs in *. eapply Forall_impl; [exact Hl|].
  intros r Hr. cbv beta in Hr |- *.
  pose proof (extends_objects_length _ _ Hext). lia.
Qed.

Lemma map_obj_extends s s' l : extends s s' -> valid_refs s l -> map (obj s') l = map (obj s) l.
Proof.
  intros Hext Hl. induction Hl as [|r l Hr _ IH]; simpl; [reflexivity|].
  rewrite (extends_obj _ _ _ Hext Hr), IH. reflexivity.
Qed.

Lemma extends_contents s s' a : extends s s' -> valid_array s a -> contents s' a = contents s a.
Proof.
  intros Hext [Ha Hl]. unfold contents.
  rewrite (extends_arr _ _ _ Hext Ha). apply map_obj_extends; assumption.
Qed.

(** *** Allocation *)

Lemma new_arr_extends s l : extends s (snd (new_arr s l)).
Proof. split; simpl; [exists []; rewrite app_nil_r|exists [l]]; reflexivity. Qed.

Lemma new_arr_read s l : arr (snd (new_arr s l)) (fst (new_arr s l)) = l.
Proof. unfold arr. simpl. rewrite list_lookup_middle by reflexivity. reflexivity. Qed.

Lemma new_arr_local s0 s l :
  extends s0 s -> valid_refs s l ->
  local_array s0 (snd (new_arr s l)) (fst (new_arr s l)).
Proof.
  intros Hext Hl. split; [|split].
  - apply (extends_trans _ _ _ Hext), new_arr_extends.
  - pose proof (extends_arrays_length _ _ Hext). simpl. rewrite length_app. simpl. lia.
  - rewrite new_arr_read. exact Hl.
Qed.

(** *** [filter] *)

Lemma array_filter_spec keep s0 s a :
  local_array s0 s a ->
  let '(a', s') := array_filter keep s a in
  local_array s0 s' a' /\ contents s' a' = List.filter keep (contents s a).
Proof.
  intros (Hext & Ha & Hl). unfold array_filter.
  set (l := List.filter (fun r => keep (obj s r)) (arr s a)).
  assert (Hvl : valid_refs s l).
  { unfold valid_refs in *. rewrite List.Forall_forall in Hl |- *.
    intros r Hr. apply filter_In in Hr. apply Hl, Hr. }
  pose proof (new_arr_local s0 s l Hext Hvl) as Hloc.
  pose proof (new_arr_read s l) as Hread.
  destruct (new_arr s l) as [a' s'] eqn:E. simpl in Hloc, Hread.
  split; [exact Hloc|].
  unfold contents. rewrite Hread.
  assert (Hobj : objects s' = objects s) by (unfold new_arr in E; injection E as _ <-; reflexivity).
  unfold obj. rewrite Hobj. apply (map_filter_comm (obj s) keep).
Qed.

(** *** [map] *)

Lemma map_objects_spec f refs : forall s,
  valid_refs s refs ->
  let '(refs', s') := map_objects f s refs in
  arrays s' = arrays s
  /\ objects s' = objects s ++ map (fun r => f (obj s r)) refs
  /\ refs' = seq (length (objects s)) (length refs).
Proof.
  induction refs as [|r rest IH]; intros s Hv; simpl.
  - rewrite app_nil_r. repeat split.
  - apply Forall_cons in Hv. destruct Hv as [Hr Hrest].
    set (s1 := {| objects := objects s ++ [f (obj s r)]; arrays := arrays s |}).
    assert (Hext : extends s s1).
    { split; simpl; [exists [f (obj s r)]|exists []; rewrite app_nil_r]; reflexivity. }
    specialize (IH s1 (valid_refs_extends _ _ _ Hext Hrest)).
    destruct (map_objects f s1 rest) as [rest' s2].
    destruct IH as (Harr & Hobj & Hrefs).
    split; [exact Harr|]. split.
    + rewrite Hobj. simpl. rewrite <- app_assoc. simpl. do 2 f_equal.
      apply map_ext_in. intros x Hx. f_equal.
      apply (extends_obj _ _ _ Hext).
      unfold valid_refs in Hrest. rewrite List.Forall_forall in Hrest. apply Hrest, Hx.
    + rewrite Hrefs. simpl. rewrite length_app. simpl.
      replace (length (objects s) + 1) with (S (length (objects s))) by lia. reflexivity.
Qed.

Lemma read_appended (l new : list Prompt.t) :
  map (fun r => default blank ((l ++ new) !! r)) (seq (length l) (length new)) = new.
Proof.
  revert l. induction new as [|x new IH]; intros l; simpl; [reflexivity|].
  rewrite list_lookup_middle by reflexivity. simpl. f_equal.
  specialize (IH (l ++ [x])). rewrite length_app in IH. simpl in IH.
  replace (length l + 1) with (S (length l)) in IH by lia.
  rewrite <- app_assoc in IH. exact IH.
Qed.

Lemma array_map_spec f s0 s a :
  local_array s0 s a ->
  let '(a', s') := array_map f s a in
  local_array s0 s' a'
  /\ contents s' a' = map f (contents s a)
  /\ Forall (fun r => length (objects s) <= r) (arr s' a').
Proof.
  intros (Hext & Ha & Hl). unfold array_map.
  pose proof (map_objects_spec f (arr s a) s Hl) as Hm.
  destruct (map_objects f s (arr s a)) as [refs s1].
  destruct Hm as (Harr & Hobj & Hrefs).
  assert (Hext1 : extends s s1).
  { split; [eexists; exact Hobj|exists []; rewrite app_nil_r; exact Harr]. }
  assert (Hv : valid_refs s1 refs).
  { unfold valid_refs. rewrite Hrefs, Hobj, length_app, length_map.
    apply List.Forall_forall. intros r Hr. apply in_seq in Hr. lia. }
  pose proof (new_arr_local s0 s1 refs (extends_trans _ _ _ Hext Hext1) Hv) as Hloc.
  pose proof (new_arr_read s1 refs) as Hread.
  destruct (new_arr s1 refs) as [a' s'] eqn:E. simpl in Hloc, Hread.
  assert (Hobj' : objects s' = objects s1) by (unfold new_arr in E; injection E as _ <-; reflexivity).
  split; [exact Hloc|]. split.
  - unfold contents. rewrite Hread, Hrefs.
    unfold obj at 1. rewrite Hobj', Hobj.
    rewrite <- (length_map (fun r => f (obj s r)) (arr s a)).
    rewrite read_appended. rewrite map_map. reflexivity.
  - rewrite Hread, Hrefs. apply List.Forall_forall. intros r Hr. apply in_seq in Hr. lia.
Qed.

(** *** [sort] *)

Lemma array_sort_in_place_spec cmp s0 s a :
  local_array s0 s a ->
  let s' := array_sort_in_place cmp s a in
  local_array s0 s' a
  /\ contents s' a = array_sort cmp (contents s a)
  /\ objects s' = objects s.
Proof.
  intros ([Hobj [ars Hars]] & Ha & Hl). simpl.
  set (sorted := array_sort (fun x y => cmp (obj s x) (obj s y)) (arr s a)).
  assert (Hread : arr (array_sort_in_place cmp s a) a = sorted).
  { unfold arr, array_sort_in_place, set_arr. simpl.
    rewrite list_lookup_insert_eq by lia. reflexivity. }
  split; [|split].
  - split; [|split].
    + split; [exact Hobj|].
      unfold array_sort_in_place, set_arr. simpl.
      rewrite Hars, insert_app_r_alt by lia. eexists. reflexivity.
    + unfold array_sort_in_place, set_arr. simpl. rewrite length_insert. exact Ha.
    + rewrite Hread. unfold valid_refs in *. simpl.
      rewrite List.Forall_forall in Hl |- *. intros r Hr. apply Hl.
      apply (Permutation_in _ (array_sort_perm (fun x y => cmp (obj s x) (obj s y)) (arr s a))).
      exact Hr.
  - unfold contents. rewrite Hread.
    apply (array_sort_map (obj s) cmp).
  - reflexivity.
Qed.

End HeapFacts.

Section HeapSearch.

Context {env : DateEnv}.

Import HeapFacts.

Lemma heap_filter_when_spec f s0 s a :
  local_array s0 s a ->
  let '(a', s') := Heap.filter_when f s a in
  local_array s0 s' a' /\ Heap.contents s' a' = filter_when f (Heap.contents s a).
Proof using Type.
  intros Hloc. destruct f as [keep|]; simpl.
  - apply (array_filter_spec keep s0 s a Hloc).
  - split; [exact Hloc|reflexivity].
Qed.

Lemma heap_applyFilters_spec filters s0 s a :
  local_array s0 s a ->
  let '(a', s') := Heap.applyFilters s a filters in
  local_array s0 s' a' /\ Heap.contents s' a' = applyFilters (Heap.contents s a) filters.
Proof using Type.
  intros Hloc. unfold Heap.applyFilters, applyFilters.
  pose proof (heap_filter_when_spec (category_filter filters) s0 s a Hloc) as H1.
  destruct (Heap.filter_when (category_filter filters) s a) as [a1 s1].
  destruct H1 as [Hloc1 Hc1].
  pose proof (heap_filter_when_spec (tags_filter filters) s0 s1 a1 Hloc1) as H2.
  destruct (Heap.filter_when (tags_filter filters) s1 a1) as [a2 s2].
  destruct H2 as [Hloc2 Hc2].
  pose proof (heap_filter_when_spec (date_filter filters) s0 s2 a2 Hloc2) as H3.
  destruct (Heap.filter_when (date_filter filters) s2 a2) as [a3 s3].
  destruct H3 as [Hloc3 Hc3].
  split; [exact Hloc3|]. rewrite Hc3, Hc2, Hc1. reflexivity.
Qed.

(** The heap model computes, behind new references, what the value
    model computes; it writes to no array and no object that existed
    before. *)
Lemma compute_contents s0 a0 queryTokens filters fuzzy :
  valid_array s0 a0 ->
  let '(r, s') := Heap.compute s0 a0 queryTokens filters fuzzy in
  local_array s0 s' (Heap.results r)
  /\ Forall (fun ref => length (Heap.objects s0) <= ref) (Heap.arr s' (Heap.results r))
  /\ Heap.contents s' (Heap.results r)
     = results (compute (Heap.contents s0 a0) queryTokens filters fuzzy)
  /\ Heap.highlightTerms r = queryTokens.
Proof using Type.
  intros [Ha0 Hv0]. unfold Heap.compute, compute.
  (* [...allPrompts] *)
  assert (H1 : local_array s0 (snd (Heap.array_spread s0 a0)) (fst (Heap.array_spread s0 a0))
               /\ Heap.contents (snd (Heap.array_spread s0 a0)) (fst (Heap.array_spread s0 a0))
                  = Heap.contents s0 a0).
  { split.
    - apply new_arr_local; [apply extends_refl|exact Hv0].
    - unfold Heap.contents, Heap.array_spread. rewrite new_arr_read. reflexivity. }
  destruct (Heap.array_spread s0 a0) as [a1 s1]. simpl in H1. destruct H1 as [Hloc1 Hc1].
  (* filters *)
  assert (H2 : let '(a2, s2) := (if Nat.ltb 0 (Filters.keys_length filters)
                                 then Heap.applyFilters s1 a1 filters else (a1, s1)) in
               local_array s0 s2 a2
               /\ Heap.contents s2 a2
                  = (if Nat.ltb 0 (Filters.keys_length filters)
                     then applyFilters (Heap.contents s0 a0) filters
                     else Heap.contents s0 a0)).
  { destruct (Nat.ltb 0 (Filters.keys_length filters)).
    - rewrite <- Hc1. apply heap_applyFilters_spec, Hloc1.
    - split; assumption. }
  destruct (if Nat.ltb 0 (Filters.keys_length filters)
            then Heap.applyFilters s1 a1 filters else (a1, s1)) as [a2 s2].
  destruct H2 as [Hloc2 Hc2].
  set (filtered := if Nat.ltb 0 (Filters.keys_length filters)
                   then applyFilters (Heap.contents s0 a0) filters
                   else Heap.contents s0 a0) in *.
  (* scoring and sorting *)
  assert (H3 : let '(a3, s3) :=
                 (if Nat.ltb 0 (length queryTokens)
                  then
                    let '(scored, s) := Heap.array_map (attach_score queryTokens fuzzy) s2 a2 in
                    let '(kept, s) := Heap.array_filter above_threshold s scored in
                    (kept, Heap.array_sort_in_place by_score s kept)
                  else (a2, Heap.array_sort_in_place by_date s2 a2)) in
               local_array s0 s3 a3
               /\ Heap.contents s3 a3
                  = (if Nat.ltb 0 (length queryTokens)
                     then array_sort by_score
                            (List.filter above_threshold
                               (map (attach_score queryTokens fuzzy) filtered))
                     else array_sort by_date filtered)).
  { destruct (Nat.ltb 0 (length queryTokens)).
    - pose proof (array_map_spec (attach_score queryTokens fuzzy) s0 s2 a2 Hloc2) as Hm.
      destruct (Heap.array_map (attach_score queryTokens fuzzy) s2 a2) as [am sm].
      destruct Hm as (Hlocm & Hcm & _).
      pose proof (array_filter_spec above_threshold s0 sm am Hlocm) as Hf.
      destruct (Heap.array_filter above_threshold sm am) as [af sf].
      destruct Hf as (Hlocf & Hcf).
      destruct (array_sort_in_place_spec by_score s0 sf af Hlocf) as (Hlocs & Hcs & _).
      split; [exact Hlocs|]. rewrite Hcs, Hcf, Hcm, Hc2. reflexivity.
    - destruct (array_sort_in_place_spec by_date s0 s2 a2 Hloc2) as (Hlocs & Hcs & _).
      split; [exact Hlocs|]. rewrite Hcs, Hc2. reflexivity. }
  destruct (if Nat.ltb 0 (length queryTokens)
            then
              let '(scored, s) := Heap.array_map (attach_score queryTokens fuzzy) s2 a2 in
              let '(kept, s) := Heap.array_filter above_threshold s scored in
              (kept, Heap.array_sort_in_place by_score s kept)
            else (a2, Heap.array_sort_in_place by_date s2 a2)) as [a3 s3].
  destruct H3 as [Hloc3 Hc3].
  (* removal of the score *)
  pose proof (array_map_spec strip_score s0 s3 a3 Hloc3) as H4.
  destruct (Heap.array_map strip_score s3 a3) as [a4 s4].
  destruct H4 as (Hloc4 & Hc4 & Hnew).
  cbn [Heap.results Heap.highlightTerms results].
  split; [exact Hloc4|]. split; [|split; [|reflexivity]].
  - eapply Forall_impl; [exact Hnew|]. intros ref Href. cbv beta in Href |- *.
    destruct Hloc3 as (Hext3 & _). pose proof (extends_objects_length _ _ Hext3). lia.
  - rewrite Hc4, Hc3. reflexivity.
Qed.

End HeapSearch.

Section Copies.

Context {env : DateEnv}.

Import HeapFacts.

Lemma strip_attach queryTokens fuzzy d :
  strip_score (attach_score queryTokens fuzzy d) = strip_score d.
Proof using Type. reflexivity. Qed.




End Copies.



(** * renderVisible *)

Module WindowFacts.

Import PromptList Window.

Lemma make_block_idx st i : virtual_idx (make_block st i) = i.
Proof. unfold make_block. destruct (viewMode st); reflexivity. Qed.

Lemma existing_spec blocks i :
  existing blocks i = true <-> exists b, In b blocks /\ virtual_idx b = i.
Proof.
  unfold existing. rewrite existsb_exists. split; intros (b & Hb & Hi); exists b.
  - split; [exact Hb|]. apply Z.eqb_eq, Hi.
  - split; [exact Hb|]. apply Z.eqb_eq, Hi.
Qed.

Lemma NoDup_map_filter {A B} (f : A -> B) (keep : A -> bool) l :
  List.NoDup (map f l) -> List.NoDup (map f (List.filter keep l)).
Proof.
  induction l as [|x l IH]; simpl; intros H; [constructor|].
  apply List.NoDup_cons_iff in H. destruct H as [Hx Hl].
  destruct (keep x); simpl; [|apply IH, Hl].
  constructor; [|apply IH, Hl].
  intros Hin. apply Hx. apply in_map_iff in Hin. destruct Hin as (y & Hy & Hin).
  apply filter_In in Hin. apply in_map_iff. exists y. tauto.
Qed.

Lemma same_true x last : same x last = true <-> last = Some x.
Proof.
  unfold same. destruct last as [y|]; [|split; discriminate].
  rewrite Z.eqb_eq. split; [intros ->; reflexivity|intros [= ->]; reflexivity].
Qed.

(** The fragment holds the blocks of the indices among the last [n]
    before [endIdx] that have no block yet, one each. *)
Lemma fragment_spec st kept endIdx n :
  (forall b, In b (fragment st kept endIdx n) <->
             exists i, (endIdx - Z.of_nat n <= i < endIdx)%Z
                       /\ existing kept i = false /\ b = make_block st i)
  /\ List.NoDup (map virtual_idx (fragment st kept endIdx n)).
Proof.
  unfold fragment. induction n as [|n [IHin IHnd]].
  - simpl. split; [|constructor]. intros b. split; [tauto|]. intros (i & Hi & _). lia.
  - rewrite seq_S, fold_left_app. simpl fold_left.
    set (frag := fold_left (insert_step st kept endIdx) (seq 0 n) []) in *.
    assert (Hstep : insert_step st kept endIdx frag n
                    = if existing kept (endIdx - 1 - Z.of_nat n) then frag
                      else make_block st (endIdx - 1 - Z.of_nat n) :: frag) by reflexivity.
    rewrite Hstep. clear Hstep.
    destruct (existing kept (endIdx - 1 - Z.of_nat n)) eqn:E.
    + split; [|exact IHnd]. intros b. rewrite IHin. split.
      * intros (i & Hi & Hrest). exists i. split; [lia|exact Hrest].
      * intros (i & Hi & Hex & Hb). exists i. split; [|tauto].
        destruct (Z.eq_dec i (endIdx - 1 - Z.of_nat n)%Z) as [->|Hne]; [congruence|lia].
    + split.
      * intros b. simpl. rewrite IHin. split.
        -- intros [<-|(i & Hi & Hrest)].
           ++ exists (endIdx - 1 - Z.of_nat n)%Z. split; [lia|tauto].
           ++ exists i. split; [lia|exact Hrest].
        -- intros (i & Hi & Hex & Hb).
           destruct (Z.eq_dec i (endIdx - 1 - Z.of_nat n)%Z) as [->|Hne]; [left; auto|].
           right. exists i. split; [lia|tauto].
      * simpl. constructor; [|exact IHnd].
        rewrite make_block_idx. intros Hin.
        apply in_map_iff in Hin. destruct Hin as (b & Hb & Hin).
        apply IHin in Hin. destruct Hin as (i & Hi & _ & ->).
        rewrite make_block_idx in Hb. lia.
Qed.





(** The children after a pass that does not return early. *)
Lemma renderVisible_children st :
  same (startIdx_of st) (lastStartIdx st) && same (endIdx_of st) (lastEndIdx st) = false ->
  exists kept,
    children (renderVisible st)
    = kept ++ fragment st kept (endIdx_of st) (Z.to_nat (endIdx_of st - startIdx_of st))
    /\ (forall b, In b kept <->
                  In b (children st) /\ (startIdx_of st <= virtual_idx b < endIdx_of st)%Z)
    /\ (List.NoDup (map virtual_idx (children st)) -> List.NoDup (map virtual_idx kept)).
Proof.
  intros Hchg. unfold renderVisible. rewrite Hchg. cbn [children].
  eexists. split; [reflexivity|]. split.
  - intros b. rewrite filter_In, negb_true_iff, orb_false_iff, Z.ltb_ge, Z.leb_gt. tauto.
  - apply NoDup_map_filter.
Qed.

End WindowFacts.

Section RenderVisible.

Import PromptList Window WindowFacts.

(** A pass that does not return early leaves exactly the blocks of the
    new window, whatever the window was before. *)
Lemma renderVisible_recomputes st :
  List.NoDup (map virtual_idx (children st)) ->
  same (startIdx_of st) (lastStartIdx st) && same (endIdx_of st) (lastEndIdx st) = false ->
  window (renderVisible st) (startIdx_of st) (endIdx_of st)
  /\ lastStartIdx (renderVisible st) = Some (startIdx_of st)
  /\ lastEndIdx (renderVisible st) = Some (endIdx_of st).
Proof using Type.
  intros Hnd Hchg.
  destruct (renderVisible_children st Hchg) as (kept & Hchildren & Hkept & Hkeptnd).
  split; [|unfold renderVisible; rewrite Hchg; split; reflexivity].
  set (s := startIdx_of st) in *. set (e := endIdx_of st) in *.
  destruct (fragment_spec st kept e (Z.to_nat (e - s))) as [Hfrag Hfnd].
  split.
  - intros i. unfold rendered. rewrite Hchildren. split.
    + intros (b & Hb & <-). apply in_app_or in Hb. destruct Hb as [Hb|Hb].
      * apply Hkept in Hb. tauto.
      * apply Hfrag in Hb. destruct Hb as (i & Hi & _ & ->).
        rewrite make_block_idx. lia.
    + intros Hi. destruct (existing kept i) eqn:E.
      * apply existing_spec in E. destruct E as (b & Hb & Hbi).
        exists b. split; [apply in_or_app; left; exact Hb|exact Hbi].
      * exists (make_block st i). split; [|apply make_block_idx].
        apply in_or_app. right. apply Hfrag. exists i. split; [lia|tauto].
  - rewrite Hchildren, map_app. apply NoDup_ListNoDup, NoDup_app.
    split; [apply NoDup_ListNoDup, Hkeptnd, Hnd|].
    split; [|apply NoDup_ListNoDup, Hfnd].
    intros i Hk Hf. apply list_elem_of_In in Hk. apply list_elem_of_In in Hf.
    apply in_map_iff in Hf. destruct Hf as (b & <- & Hb).
    apply Hfrag in Hb. destruct Hb as (j & _ & Hex & ->).
    rewrite make_block_idx in Hk.
    apply in_map_iff in Hk. destruct Hk as (b & Hbi & Hb).
    assert (existing kept j = true) by (apply existing_spec; exists b; tauto).
    congruence.
Qed.

Lemma consistent_NoDup st : consistent st -> List.NoDup (map virtual_idx (children st)).
Proof using Type.
  unfold consistent. destruct (lastStartIdx st), (lastEndIdx st); try tauto.
  - intros [_ H]. exact H.
  - intros ->. constructor.
Qed.

(** After a pass the blocks are those of the window computed from the
    scroll position, and the window is remembered. *)
Lemma renderVisible_window st :
  consistent st ->
  window (renderVisible st) (startIdx_of st) (endIdx_of st)
  /\ consistent (renderVisible st).
Proof using Type.
  intros Hcons.
  assert (H : window (renderVisible st) (startIdx_of st) (endIdx_of st)
              /\ lastStartIdx (renderVisible st) = Some (startIdx_of st)
              /\ lastEndIdx (renderVisible st) = Some (endIdx_of st)).
  { destruct (same (startIdx_of st) (lastStartIdx st)
              && same (endIdx_of st) (lastEndIdx st)) eqn:Hsame.
    - unfold renderVisible. rewrite Hsame.
      apply andb_prop in Hsame. destruct Hsame as [Hs He].
      apply same_true in Hs. apply same_true in He.
      unfold consistent in Hcons. rewrite Hs, He in Hcons. tauto.
    - apply renderVisible_recomputes; [apply consistent_NoDup, Hcons|exact Hsame]. }
  destruct H as (Hwin & Hs & He).
  split; [exact Hwin|]. unfold consistent. rewrite Hs, He. exact Hwin.
Qed.


(** The window invariant holds whenever a pass can start. *)
Lemma idle_consistent st : idle st -> consistent st.
Proof using Type.
  induction 1 as [| st _ IH | st y _ IH | st h w _ IH].
  - reflexivity.
  - apply renderVisible_window, IH.
  - exact IH.
  - exact IH.
Qed.



End RenderVisible.


(** * VirtualScroller.render *)

Lemma fold_left_prefix_inv {A B} (f : A -> B -> A) (P : list B -> A -> Prop) l a :
  P [] a ->
  (forall done x acc, P done acc -> P (done ++ [x]) (f acc x)) ->
  P l (fold_left f l a).
Proof.
  intros H0 Hstep. induction l as [|x l IH] using rev_ind; [exact H0|].
  rewrite fold_left_app. simpl. apply Hstep, IH.
Qed.

Lemma zrange_In lo n i : In i (zrange lo n) <-> (lo <= i < lo + Z.of_nat n)%Z.
Proof.
  unfold zrange. rewrite in_map_iff. split.
  - intros (k & <- & Hk). apply in_seq in Hk. lia.
  - intros Hi. exists (Z.to_nat (i - lo)). split; [lia|]. apply in_seq. lia.
Qed.

Module ScrollerFacts.

Import VirtualScroller ScrollerWindow.

Lemma map_get_set_eq m i e : map_get (map_set m i e) i = Some e.
Proof.
  induction m as [|[k e'] m IH]; simpl.
  - rewrite Z.eqb_refl. reflexivity.
  - destruct (Z.eqb_spec k i) as [->|Hne]; simpl.
    + rewrite Z.eqb_refl. reflexivity.
    + destruct (Z.eqb_spec k i); [contradiction|]. exact IH.
Qed.

Lemma map_get_set_ne m i j e : i <> j -> map_get (map_set m i e) j = map_get m j.
Proof.
  intros Hne. induction m as [|[k e'] m IH]; simpl.
  - destruct (Z.eqb_spec i j); [contradiction|]. reflexivity.
  - destruct (Z.eqb_spec k i) as [->|Hki]; simpl.
    + destruct (Z.eqb_spec i j); [contradiction|]. reflexivity.
    + destruct (Z.eqb_spec k j); [reflexivity|]. exact IH.
Qed.


Section Render.

Context {Item : Type} (renderItemFn : Item -> Z -> option Element).



End Render.

End ScrollerFacts.

(** * The heap model shows the value model *)

Module MapValues.

Import SearchCache.

Section Facts.

Context {V W : Type} (f : V -> W).
Implicit Types (c : list (string * V)) (v : V).

Lemma get_map_values c k : get (map_values f c) k = option_map f (get c k).
Proof using Type.
  induction c as [|[k' v'] c IH]; simpl; [reflexivity|].
  destruct (String.eqb k' k); [reflexivity|exact IH].
Qed.

Lemma delete_map_values c k : delete (map_values f c) k = map_values f (delete c k).
Proof using Type.
  induction c as [|[k' v'] c IH]; simpl; [reflexivity|].
  destruct (String.eqb k' k); [reflexivity|]. simpl. rewrite IH. reflexivity.
Qed.

Lemma set_map_values c k v : set (map_values f c) k (f v) = map_values f (set c k v).
Proof using Type.
  induction c as [|[k' v'] c IH]; simpl; [reflexivity|].
  destruct (String.eqb k' k); [reflexivity|]. simpl. rewrite IH. reflexivity.
Qed.

Lemma oldestKey_map_values c : oldestKey (map_values f c) = oldestKey c.
Proof using Type. destruct c as [|[k v] c]; reflexivity. Qed.

Lemma store_map_values c k v : store (map_values f c) k (f v) = map_values f (store c k v).
Proof using Type.
  unfold store, size, map_values at 1. rewrite length_map.
  fold (map_values f c).
  destruct (Nat.leb CACHE_MAX_SIZE (length c)); [|apply set_map_values].
  rewrite oldestKey_map_values.
  destruct (oldestKey c); [rewrite delete_map_values|]; apply set_map_values.
Qed.

Lemma map_values_agree (g : V -> W) c :
  Forall (fun kv => f (snd kv) = g (snd kv)) c -> map_values f c = map_values g c.
Proof using Type.
  induction 1 as [|[k v] c Hv _ IH]; simpl; [reflexivity|].
  simpl in Hv. rewrite Hv. f_equal. exact IH.
Qed.

End Facts.

Lemma Forall_delete {V} (P : string * V -> Prop) (c : list (string * V)) k :
  Forall P c -> Forall P (delete c k).
Proof.
  induction 1 as [|[k' v'] c Hv Hc IH]; simpl; [constructor|].
  destruct (String.eqb k' k); [exact Hc|]. constructor; assumption.
Qed.

Lemma Forall_set {V} (P : string * V -> Prop) (c : list (string * V)) k v :
  (forall k', P (k', v)) -> Forall P c -> Forall P (set c k v).
Proof.
  intros Hv. induction 1 as [|[k' v'] c Hv' Hc IH]; simpl.
  - repeat constructor. apply Hv.
  - destruct (String.eqb k' k); constructor; try assumption. apply Hv.
Qed.

Lemma Forall_store {V} (P : string * V -> Prop) (c : list (string * V)) k v :
  (forall k', P (k', v)) -> Forall P c -> Forall P (store c k v).
Proof.
  intros Hv Hc. unfold store. apply Forall_set; [exact Hv|].
  destruct (Nat.leb CACHE_MAX_SIZE (size c)); [|exact Hc].
  destruct (oldestKey c); [apply Forall_delete|]; exact Hc.
Qed.

End MapValues.

Section Simulation.

Context {env : DateEnv}.

Import HeapFacts.

Lemma view_extends s s' r :
  extends s s' -> valid_array s (Heap.results r) -> view s' r = view s r.
Proof using Type.
  intros Hext Hv. unfold view. rewrite (extends_contents _ _ _ Hext Hv). reflexivity.
Qed.

Lemma shows_extends hst st s' :
  shows hst st -> extends (Heap.store hst) s' ->
  searchCache st = map_values (view s') (Heap.searchCache hst)
  /\ Forall (fun kv => valid_array s' (Heap.results (snd kv))) (Heap.searchCache hst).
Proof using Type.
  intros (_ & Hcache & Hvalid) Hext. split.
  - rewrite Hcache. symmetry. apply MapValues.map_values_agree.
    eapply Forall_impl; [exact Hvalid|]. intros [k r] Hr. simpl in *.
    apply view_extends; assumption.
  - eapply Forall_impl; [exact Hvalid|]. intros [k r] [Ha Hr]. simpl in *.
    split.
    + pose proof (extends_arrays_length _ _ Hext). lia.
    + rewrite (extends_arr _ _ _ Hext Ha). apply (valid_refs_extends _ _ _ Hext Hr).
Qed.

(** Every call of the heap model does what the value model does on the
    documents read through the references: same outcome, and states that
    again correspond. *)
Theorem heap_search_shows_search hst st allPrompts searchQuery options :
  shows hst st -> valid_array (Heap.store hst) allPrompts ->
  let h := Heap.search hst allPrompts searchQuery options in
  let v := search st (Heap.contents (Heap.store hst) allPrompts) searchQuery options in
  same_outcome (Heap.store (snd h)) (fst h) (fst v) /\ shows (snd h) (snd v).
Proof using Type.
  intros Hshows Hvalid. cbv zeta.
  pose proof Hshows as (Hconsole & Hcache & Hcached).
  pose proof (compute_contents (Heap.store hst) allPrompts (queryTokens_of searchQuery)
                (filters_of options) (fuzzy_of options) Hvalid) as Hc.
  unfold Heap.search, search.
  fold (filters_of options) (fuzzy_of options) (useCache_of options)
       (normalizedQuery_of searchQuery).
  fold (queryTokens_of searchQuery).
  unfold cacheKey_of, Heap.logSearchQuery, logSearchQuery, JSON.deep_copy.
  destruct (Heap.compute (Heap.store hst) allPrompts (queryTokens_of searchQuery)
              (filters_of options) (fuzzy_of options)) as [r s'].
  destruct Hc as ((Hext & Hres & Hrefs) & _ & Hcont & Hterms).
  assert (Hview : view s' r
                  = compute (Heap.contents (Heap.store hst) allPrompts)
                      (queryTokens_of searchQuery) (filters_of options) (fuzzy_of options)).
  { unfold view. rewrite Hcont, Hterms. unfold compute. reflexivity. }
  assert (Hlen : length (Heap.arr s' (Heap.results r))
                 = length (results (compute (Heap.contents (Heap.store hst) allPrompts)
                                      (queryTokens_of searchQuery) (filters_of options)
                                      (fuzzy_of options)))).
  { rewrite <- Hview. unfold view, Heap.contents. cbn [results]. rewrite length_map. reflexivity. }
  assert (Hnew : valid_array s' (Heap.results r)) by (split; [lia|exact Hrefs]).
  destruct (shows_extends hst st s' Hshows Hext) as [Hcache' Hcached'].
  destruct (useCache_of options).
  - destruct (JSON.stringify (filters_of options)) as [json|e].
    + rewrite key_truthy. cbn [andb default]. unfold id.
      rewrite Hcache, MapValues.get_map_values.
      destruct (SearchCache.get (Heap.searchCache hst) _) as [cached|] eqn:Hget;
        cbn [option_map fst snd Heap.store Heap.searchCache Heap.console searchCache console].
      * split; [reflexivity|]. split; [|split; [reflexivity|exact Hcached]].
        cbn [Heap.console console]. rewrite Hconsole. do 3 f_equal.
        unfold view, Heap.contents. cbn [results]. rewrite length_map. reflexivity.
      * rewrite <- Hcache. cbn [searchCache console]. split; [exact Hview|]. split; [|split].
        -- cbn [Heap.console console]. rewrite Hconsole, Hlen. reflexivity.
        -- cbn [searchCache Heap.store Heap.searchCache].
           rewrite Hcache', <- Hview. apply MapValues.store_map_values.
        -- cbn [Heap.store Heap.searchCache].
           apply MapValues.Forall_store; [intros k'; exact Hnew|exact Hcached'].
    + split; [reflexivity|exact Hshows].
  - cbn [andb].
    destruct (JSON.stringify (filters_of options)) as [json|e];
      cbn [fst snd Heap.store Heap.searchCache Heap.console searchCache console].
    + split; [exact Hview|]. split; [|split].
      * cbn [Heap.console console]. rewrite Hconsole, Hlen. reflexivity.
      * cbn [searchCache Heap.searchCache Heap.store]. exact Hcache'.
      * cbn [Heap.store Heap.searchCache]. exact Hcached'.
    + split; [reflexivity|]. split; [exact Hconsole|].
      split; [exact Hcache'|exact Hcached'].
Qed.

End Simulation.

(** * The rendered window, both renderers *)



(** When the callback produces nothing, [VirtualScroller.render] skips
    the index: the window stays without elements. *)
Example render_skips_empty_callback :
  VirtualScroller.renderedItems (VirtualScroller.render render_never sample_scroller) = []
  /\ ScrollerWindow.spec_startIndex sample_scroller = 0%Z
  /\ ScrollerWindow.spec_endIndex sample_scroller = 3%Z.
Proof. repeat split. Qed.

(** * Witnesses and scenarios of the specification *)

Lemma calculateScore_is_weights_coverage_phrase_witness :
  calculateScore p1 (tokenizeAndNormalize (Some "React, dropdown!")) false
  = score_spec p1 ["react"; "dropdown"] false.
Proof.
  apply (calculateScore_is_weights_coverage_phrase p1 ["react"; "dropdown"] false).
  - discriminate.
  - repeat constructor; discriminate.
Defined.

Example calculateScore_p1 : calculateScore p1 ["react"; "dropdown"] false = 30%Z.
Proof. reflexivity. Qed.

Example calculateScore_phrase :
  calculateScore p1 ["react"; "component"] false = 57%Z.
Proof. reflexivity. Qed.

Lemma applyFilters_tags_and_witness :
  applyFilters (env := sample_dates) [p1; p2; p3] (tags_only ["react"]) = [p1; p3].
Proof.
  destruct (applyFilters_tags_and (env := sample_dates) [p1; p2; p3] (tags_only ["react"]) ["react"])
    as (_ & _ & Heq).
  - reflexivity.
  - discriminate.
  - rewrite Heq. reflexivity.
Defined.

(** A prompt whose [tags] is a string never passes a tag filter. *)
Example applyFilters_tags_not_array :
  applyFilters (env := sample_dates)
    [Prompt.mk "p4" (Some "React") None None (Prompt.NotArray "react") None None None None []]
    (tags_only ["react"]) = [].
Proof. reflexivity. Qed.


(** Section 8 of the specification: [search(docs, 'react dropdown')] ranks
    [p1] and leaves [p2] out. *)
Example search_react_dropdown :
  fst (search (env := sample_dates) initial_state [p1; p2] (Some "react dropdown") default_options)
  = Return (mkResult [p1] ["react"; "dropdown"]).
Proof. vm_compute. reflexivity. Qed.

(** Section 8: ['reactt'] matches [p1] only when [fuzzy] is set. *)
Example search_reactt :
  fst (search (env := sample_dates) initial_state [p1; p2] (Some "reactt")
         (mkOptions None (Some true) None))
  = Return (mkResult [p1] ["reactt"])
  /\ fst (search (env := sample_dates) initial_state [p1; p2] (Some "reactt") default_options)
     = Return (mkResult [] ["reactt"]).
Proof. split; vm_compute; reflexivity. Qed.

Example tokenize_demo :
  tokenizeAndNormalize (Some "  React: Drop-down, MENU!  ") = ["react"; "dropdown"; "menu"].
Proof. reflexivity. Qed.

Example levenshtein_kitten : levenshteinDistance "kitten" "sitting" = 3.
Proof. reflexivity. Qed.

Example levenshtein_reactt : levenshteinDistance "reactt" "react" = 1.
Proof. reflexivity. Qed.

Example cacheKey_demo :
  call_key ([p1], Some "  React ", options_with_filters cat1_filters)
  = Some (Js.str (Js.chars "React|{" ++ [JSON.dquote] ++ Js.chars "category"
                  ++ [JSON.dquote] ++ Js.chars ":" ++ [JSON.dquote] ++ Js.chars "cat1"
                  ++ [JSON.dquote] ++ Js.chars "}|fuzzy:false")).
Proof. reflexivity. Qed.

(** * More on the edit distance *)

Lemma min3_cases a b c : min3 a b c = a \/ min3 a b c = b \/ min3 a b c = c.
Proof. unfold min3. lia. Qed.

Lemma lev_cons_l_le x a b : lev (x :: a) b <= lev a b + 1.
Proof.
  destruct b as [|y b].
  - rewrite !lev_nil_r. simpl. lia.
  - rewrite lev_cons. unfold min3. lia.
Qed.

Lemma lev_cons_r_le a y b : lev a (y :: b) <= lev a b + 1.
Proof. rewrite (lev_sym a (y :: b)), (lev_sym a b). apply lev_cons_l_le. Qed.

Lemma lev_le_max a : forall b, lev a b <= Nat.max (length a) (length b).
Proof.
  induction a as [|x a IHa]; intros b; [simpl; lia|].
  induction b as [|y b IHb]; [simpl; lia|].
  rewrite lev_cons. specialize (IHa b). unfold min3, indicator. simpl length.
  destruct (Ascii.eqb x y); lia.
Qed.

Lemma lev_ge_diff a : forall b, length a - length b <= lev a b /\ length b - length a <= lev a b.
Proof.
  induction a as [|x a IHa]; intros b; [simpl; lia|].
  induction b as [|y b IHb]; [simpl; lia|].
  rewrite lev_cons.
  pose proof (IHa (y :: b)) as H1. pose proof (IHa b) as H2.
  simpl length in *. unfold min3. lia.
Qed.

Lemma lev_zero a : forall b, lev a b = 0 -> a = b.
Proof.
  induction a as [|x a IHa]; intros b H.
  - simpl in H. destruct b; [reflexivity|discriminate].
  - destruct b as [|y b]; [discriminate|].
    rewrite lev_cons in H. unfold min3 in H.
    assert (H0 : lev a b + indicator x y = 0) by lia.
    assert (Hxy : indicator x y = 0) by lia.
    unfold indicator in Hxy. destruct (Ascii.eqb_spec x y) as [->|]; [|discriminate].
    f_equal. apply IHa. lia.
Qed.

Lemma indicator_triangle x y z : indicator x z <= indicator x y + indicator y z.
Proof.
  unfold indicator.
  destruct (Ascii.eqb_spec x y), (Ascii.eqb_spec y z), (Ascii.eqb_spec x z); subst; try lia.
  congruence.
Qed.

Lemma lev_triangle_upto n : forall a b c,
  length a + length b + length c <= n -> lev a c <= lev a b + lev b c.
Proof.
  induction n as [|n IH]; intros a b c Hn.
  - destruct a, b, c; simpl in Hn; lia.
  - destruct b as [|y b].
    + rewrite lev_nil_r. simpl lev. pose proof (lev_le_max a c). lia.
    + destruct a as [|x a].
      * simpl lev at 1 2. pose proof (lev_ge_diff (y :: b) c). simpl length in *. lia.
      * destruct c as [|z c].
        -- rewrite !lev_nil_r. pose proof (lev_ge_diff (x :: a) (y :: b)). simpl length in *. lia.
        -- simpl length in Hn.
           pose proof (lev_cons_l_le x a (z :: c)) as Hdel.
           pose proof (lev_cons_r_le (x :: a) z c) as Hins.
           assert (Hsub : lev (x :: a) (z :: c) <= lev a c + indicator x z)
             by (rewrite lev_cons; unfold min3; lia).
           pose proof (indicator_triangle x y z) as Hind.
           pose proof (IH a (y :: b) (z :: c) ltac:(simpl; lia)) as T1.
           pose proof (IH (x :: a) (y :: b) c ltac:(simpl; lia)) as T2.
           pose proof (IH (x :: a) b (z :: c) ltac:(simpl; lia)) as T3.
           pose proof (IH (x :: a) b c ltac:(simpl; lia)) as T4.
           pose proof (IH a b (z :: c) ltac:(simpl; lia)) as T5.
           pose proof (IH a b c ltac:(simpl; lia)) as T6.
           pose proof (lev_cons x a y b) as HL. pose proof (lev_cons y b z c) as HR.
           destruct (min3_cases (lev a (y :: b) + 1) (lev (x :: a) b + 1)
                       (lev a b + indicator x y)) as [E1|[E1|E1]];
             destruct (min3_cases (lev b (z :: c) + 1) (lev (y :: b) c + 1)
                         (lev b c + indicator y z)) as [E2|[E2|E2]];
             rewrite E1 in HL; rewrite E2 in HR; lia.
Qed.

Lemma lev_triangle a b c : lev a c <= lev a b + lev b c.
Proof. apply (lev_triangle_upto (length a + length b + length c)). lia. Qed.

Lemma chars_snoc s c : Js.chars (snoc s c) = Js.chars s ++ [c].
Proof. unfold snoc. rewrite chars_append. reflexivity. Qed.

Lemma chars_inj s t : Js.chars s = Js.chars t -> s = t.
Proof. intros H. rewrite <- (str_chars s), <- (str_chars t), H. reflexivity. Qed.

Lemma rev_inj {A} (l k : list A) : rev l = rev k -> l = k.
Proof. intros H. rewrite <- (rev_involutive l), <- (rev_involutive k), H. reflexivity. Qed.

(** X1: The distance computed by the matrix loops obeys the equations that
    define the edit distance: the distance to the empty string is the
    length, and for strings that end with [x] and [y] it is the least of a
    deletion, an insertion and a substitution (free when [x = y]). *)
Theorem levenshteinDistance_recurrences :
  (forall b, levenshteinDistance EmptyString b = String.length b)
  /\ (forall a, levenshteinDistance a EmptyString = String.length a)
  /\ (forall a x b y,
         levenshteinDistance (snoc a x) (snoc b y)
         = min3 (levenshteinDistance a (snoc b y) + 1)
                (levenshteinDistance (snoc a x) b + 1)
                (levenshteinDistance a b + indicator x y)).
Proof.
  split; [|split].
  - intros b. rewrite levenshteinDistance_lev. simpl.
    rewrite length_rev. symmetry. apply string_length_chars.
  - intros a. rewrite levenshteinDistance_lev. simpl.
    rewrite lev_nil_r, length_rev. symmetry. apply string_length_chars.
  - intros a x b y. rewrite !levenshteinDistance_lev, !chars_snoc, !rev_app_distr.
    simpl rev. simpl app. apply lev_cons.
Qed.

Lemma distance_length_window a b :
  String.length a - String.length b <= levenshteinDistance a b
  /\ String.length b - String.length a <= levenshteinDistance a b
  /\ levenshteinDistance a b <= Nat.max (String.length a) (String.length b).
Proof.
  rewrite levenshteinDistance_lev, !string_length_chars.
  pose proof (lev_ge_diff (rev (Js.chars a)) (rev (Js.chars b))) as [H1 H2].
  pose proof (lev_le_max (rev (Js.chars a)) (rev (Js.chars b))) as H3.
  rewrite !length_rev in *. lia.
Qed.

(** X2: The distance lies between the difference of the lengths and the
    greater length. *)
Theorem levenshteinDistance_bounds a b :
  String.length a - String.length b <= levenshteinDistance a b
  /\ String.length b - String.length a <= levenshteinDistance a b
  /\ levenshteinDistance a b <= Nat.max (String.length a) (String.length b).
Proof.
  rewrite levenshteinDistance_lev, !string_length_chars.
  pose proof (lev_ge_diff (rev (Js.chars a)) (rev (Js.chars b))) as [H1 H2].
  pose proof (lev_le_max (rev (Js.chars a)) (rev (Js.chars b))) as H3.
  rewrite !length_rev in *. lia.
Qed.

(** X3: The distance is a metric: it is 0 only between equal strings, and it
    obeys the triangle inequality. *)
Theorem levenshteinDistance_metric :
  (forall a b, levenshteinDistance a b = 0 <-> a = b)
  /\ (forall a b c,
         levenshteinDistance a c <= levenshteinDistance a b + levenshteinDistance b c).
Proof.
  split.
  - intros a b. split.
    + rewrite levenshteinDistance_lev. intros H.
      apply chars_inj, rev_inj, lev_zero, H.
    + intros ->. unfold levenshteinDistance. rewrite String.eqb_refl. reflexivity.
  - intros a b c. rewrite !levenshteinDistance_lev. apply lev_triangle.
Qed.

Lemma distance_zero_eq a b : levenshteinDistance a b = 0 -> a = b.
Proof.
  rewrite levenshteinDistance_lev. intros H. apply chars_inj, rev_inj, lev_zero, H.
Qed.

Lemma termMatches_true_iff term textTokens fuzzy t :
  termMatches term textTokens fuzzy t = true
  <-> In term textTokens
      \/ (fuzzy = true /\ exists token, In token textTokens
                                        /\ levenshteinDistance term token <= t).
Proof.
  unfold termMatches.
  destruct (Js.arr_includes textTokens term) eqn:E.
  - apply arr_includes_In in E. tauto.
  - assert (Hn : ~ In term textTokens) by (rewrite <- arr_includes_In, E; discriminate).
    destruct fuzzy.
    + rewrite existsb_exists. split.
      * intros (tok & Hin & Hle). right. split; [reflexivity|].
        exists tok. split; [exact Hin|]. apply Nat.leb_le, Hle.
      * intros [H|(_ & tok & Hin & Hle)]; [contradiction|].
        exists tok. split; [exact Hin|]. apply Nat.leb_le, Hle.
    + split; [discriminate|]. intros [H|(H & _)]; [contradiction|discriminate].
Qed.

(** X4: Fuzzy matching and lengths.  With [fuzzy] set, a term matches as soon
    as some token and the term are both at most [fuzzyThreshold] long,
    whatever their letters; a term matches only if some token differs from
    it in length by at most the threshold; and with threshold 0 fuzzy
    matching is exact matching. *)
Theorem termMatches_fuzzy_lengths term textTokens t :
  ((exists token, In token textTokens
                  /\ String.length term <= t /\ String.length token <= t) ->
   termMatches term textTokens true t = true)
  /\ (termMatches term textTokens true t = true ->
      exists token, In token textTokens
                    /\ String.length term - String.length token <= t
                    /\ String.length token - String.length term <= t)
  /\ termMatches term textTokens true 0 = termMatches term textTokens false 0.
Proof.
  split; [|split].
  - intros (tok & Hin & Ha & Hb). apply termMatches_true_iff. right.
    split; [reflexivity|]. exists tok. split; [exact Hin|].
    pose proof (distance_length_window term tok). lia.
  - intros H. apply termMatches_true_iff in H. destruct H as [H|(_ & tok & Hin & Hle)].
    + exists term. split; [exact H|]. lia.
    + exists tok. split; [exact Hin|].
      pose proof (distance_length_window term tok). lia.
  - destruct (termMatches term textTokens false 0) eqn:E.
    + apply termMatches_true_iff. left.
      apply termMatches_true_iff in E. destruct E as [E|(E & _)]; [exact E|discriminate].
    + destruct (termMatches term textTokens true 0) eqn:E'; [|reflexivity].
      apply termMatches_true_iff in E'. destruct E' as [H|(_ & tok & Hin & Hle)].
      * assert (termMatches term textTokens false 0 = true)
          by (apply termMatches_true_iff; left; exact H).
        congruence.
      * assert (Heq : levenshteinDistance term tok = 0) by lia.
        apply distance_zero_eq in Heq. subst tok.
        assert (termMatches term textTokens false 0 = true)
          by (apply termMatches_true_iff; left; exact Hin).
        congruence.
Qed.

(** * More on the tokenizer *)

Lemma lowered_word_is_token_char c :
  Js.is_word (Js.lower_char c) = true -> token_char (Js.lower_char c) = true.
Proof. destruct c as [[] [] [] [] [] [] [] []]; vm_compute; intros H; congruence. Qed.

Lemma token_char_facts c :
  token_char c = true ->
  Js.lower_char c = c /\ Js.is_word c = true /\ Js.is_space c = false.
Proof. destruct c as [[] [] [] [] [] [] [] []]; vm_compute; intros H; repeat split; congruence. Qed.

Lemma split_ws_from_no_space s : forall cur in_run piece c,
  Forall (fun x => Js.is_space x = false) cur ->
  In piece (Js.split_ws_from cur in_run s) -> In c piece -> Js.is_space c = false.
Proof.
  induction s as [|x s IH]; intros cur in_run piece c Hcur Hp Hc; simpl in Hp.
  - destruct Hp as [<-|[]]. apply in_rev in Hc.
    rewrite List.Forall_forall in Hcur. apply Hcur, Hc.
  - destruct (Js.is_space x) eqn:Ex.
    + assert (Htail : In piece (Js.split_ws_from [] true s) -> Js.is_space c = false).
      { intros H. apply (IH [] true piece c); [constructor|exact H|exact Hc]. }
      destruct in_run; [apply Htail, Hp|].
      destruct Hp as [<-|Hp]; [|apply Htail, Hp].
      apply in_rev in Hc. rewrite List.Forall_forall in Hcur. apply Hcur, Hc.
    + apply (IH (x :: cur) false piece c); [|exact Hp|exact Hc].
      constructor; assumption.
Qed.

Lemma tokenize_word_tokens text : Forall word_token (tokenizeAndNormalize text).
Proof.
  unfold tokenizeAndNormalize. destruct text as [t|]; [|constructor].
  destruct (negb (Js.truthy t)); [constructor|].
  apply List.Forall_forall. intros tok Htok.
  apply in_map_iff in Htok. destruct Htok as (piece & <- & Hpiece).
  apply filter_In in Hpiece. destruct Hpiece as [Hpiece Hne].
  split.
  - intros Hempty. apply chars_nil_iff in Hempty. rewrite chars_str in Hempty.
    subst piece. discriminate.
  - rewrite chars_str. apply List.Forall_forall. intros c Hc.
    pose proof (split_ws_from_pieces _ _ _ _ c Hpiece Hc) as Hin. simpl in Hin.
    pose proof (split_ws_from_no_space _ _ _ _ c (List.Forall_nil _) Hpiece Hc) as Hns.
    apply filter_In in Hin. destruct Hin as [Hin Hkeep].
    apply in_map_iff in Hin. destruct Hin as (c0 & <- & _).
    rewrite Hns, orb_false_r in Hkeep. apply lowered_word_is_token_char, Hkeep.
Qed.

Lemma split_ws_all_space s : forall in_run piece,
  Forall (fun x => Js.is_space x = true) s ->
  In piece (Js.split_ws_from [] in_run s) -> piece = [].
Proof.
  induction s as [|x s IH]; intros in_run piece Hs Hp; simpl in Hp.
  - destruct Hp as [<-|[]]. reflexivity.
  - apply Forall_cons in Hs. destruct Hs as [Hx Hs]. rewrite Hx in Hp.
    destruct in_run.
    + apply (IH true piece Hs Hp).
    + destruct Hp as [<-|Hp]; [reflexivity|apply (IH true piece Hs Hp)].
Qed.

(** X5: Every token is a non-empty word over [a-z], [0-9], [_]; a missing
    text, an empty text and a text without any letter, digit or underscore
    give no token at all. *)
Theorem tokenizeAndNormalize_tokens :
  (forall text, Forall word_token (tokenizeAndNormalize text))
  /\ tokenizeAndNormalize None = []
  /\ (forall t, Forall (fun c => Js.is_word (Js.lower_char c) = false) (Js.chars t) ->
                tokenizeAndNormalize (Some t) = []).
Proof.
  split; [exact tokenize_word_tokens|]. split; [reflexivity|].
  intros t Ht. unfold tokenizeAndNormalize.
  destruct (negb (Js.truthy t)); [reflexivity|].
  set (kept := List.filter _ (map Js.lower_char _)).
  assert (Hkept : Forall (fun x => Js.is_space x = true) kept).
  { subst kept. apply List.Forall_forall. intros c Hc.
    apply filter_In in Hc. destruct Hc as [Hc Hk].
    apply in_map_iff in Hc. destruct Hc as (c0 & <- & Hc0).
    rewrite List.Forall_forall in Ht. rewrite (Ht c0 Hc0) in Hk. exact Hk. }
  destruct (List.filter _ (Js.split_ws kept)) as [|piece rest] eqn:E; [reflexivity|].
  assert (Hin : In piece (List.filter (fun p => negb (is_nil p)) (Js.split_ws kept)))
    by (rewrite E; left; reflexivity).
  apply filter_In in Hin. destruct Hin as [Hin Hne].
  rewrite (split_ws_all_space kept false piece Hkept Hin) in Hne. discriminate.
Qed.

(** Reading a run of code units that are not white space. *)
Lemma split_ws_from_word w : forall cur in_run s,
  w <> [] -> Forall (fun x => Js.is_space x = false) w ->
  Js.split_ws_from cur in_run (w ++ s) = Js.split_ws_from (rev w ++ cur) false s.
Proof.
  induction w as [|x w IH]; intros cur in_run s Hne Hw; [congruence|].
  apply Forall_cons in Hw. destruct Hw as [Hx Hw]. simpl app at 1. simpl Js.split_ws_from.
  rewrite Hx. destruct w as [|y w].
  - reflexivity.
  - rewrite IH by (try exact Hw; discriminate). simpl rev.
    rewrite <- !app_assoc. reflexivity.
Qed.

Lemma word_token_chars s :
  word_token s -> Js.chars s <> [] /\ Forall (fun x => Js.is_space x = false) (Js.chars s).
Proof.
  intros [Hne Hc]. split.
  - intros H. apply chars_nil_iff in H. contradiction.
  - eapply Forall_impl; [exact Hc|]. intros c H. apply token_char_facts in H. tauto.
Qed.

Lemma chars_join_cons x y l :
  Js.chars (Js.join " " (x :: y :: l)) = Js.chars x ++ " "%char :: Js.chars (Js.join " " (y :: l)).
Proof.
  change (Js.join " " (x :: y :: l)) with (x ++ " " ++ Js.join " " (y :: l))%string.
  rewrite !chars_append. reflexivity.
Qed.

Lemma split_ws_from_space cur s :
  Js.split_ws_from cur false (" "%char :: s) = rev cur :: Js.split_ws_from [] true s.
Proof. reflexivity. Qed.

(** Splitting the space-joined tokens gives the tokens back. *)
Lemma split_join toks : forall cur in_run,
  toks <> [] -> Forall word_token toks ->
  Js.split_ws_from cur in_run (Js.chars (Js.join " " toks))
  = match toks with
    | [] => []
    | x :: rest => (rev cur ++ Js.chars x) :: map Js.chars rest
    end.
Proof.
  induction toks as [|x toks IH]; intros cur in_run Hne H; [congruence|].
  apply Forall_cons in H. destruct H as [Hx Htoks].
  destruct (word_token_chars x Hx) as [Hxne Hxns].
  destruct toks as [|y toks].
  - simpl Js.join. rewrite <- (app_nil_r (Js.chars x)) at 1.
    rewrite split_ws_from_word by assumption. simpl.
    rewrite rev_app_distr, rev_involutive. reflexivity.
  - rewrite chars_join_cons, split_ws_from_word by assumption.
    rewrite split_ws_from_space.
    rewrite (IH [] true) by (try exact Htoks; discriminate).
    rewrite rev_app_distr, rev_involutive. reflexivity.
Qed.

Lemma join_word_chars toks :
  Forall word_token toks ->
  Forall (fun c => Js.lower_char c = c /\ (Js.is_word c || Js.is_space c) = true)
         (Js.chars (Js.join " " toks)).
Proof.
  induction 1 as [|x toks [_ Hx] Htoks IH]; [constructor|].
  assert (Hxc : Forall (fun c => Js.lower_char c = c /\ (Js.is_word c || Js.is_space c) = true)
                       (Js.chars x)).
  { eapply Forall_impl; [exact Hx|]. intros c H. apply token_char_facts in H.
    destruct H as (H1 & H2 & _). rewrite H2. split; [exact H1|reflexivity]. }
  destruct toks as [|y toks]; [exact Hxc|].
  rewrite chars_join_cons. apply Forall_app. split; [exact Hxc|].
  constructor; [split; reflexivity|exact IH].
Qed.

Lemma map_fixed {A} (f : A -> A) l : Forall (fun x => f x = x) l -> map f l = l.
Proof. induction 1 as [|x l Hx _ IH]; simpl; [reflexivity|]. rewrite Hx, IH. reflexivity. Qed.

Lemma filter_all {A} (keep : A -> bool) l :
  Forall (fun x => keep x = true) l -> List.filter keep l = l.
Proof. induction 1 as [|x l Hx _ IH]; simpl; [reflexivity|]. rewrite Hx, IH. reflexivity. Qed.

Lemma tokenize_join toks :
  Forall word_token toks -> tokenizeAndNormalize (Some (Js.join " " toks)) = toks.
Proof.
  intros H. destruct toks as [|x toks].
  - reflexivity.
  - unfold tokenizeAndNormalize.
    assert (Htruthy : Js.truthy (Js.join " " (x :: toks)) = true).
    { destruct (Js.truthy _) eqn:T; [reflexivity|].
      apply truthy_false_iff in T.
      pose proof (Forall_inv H) as [Hx _].
      destruct toks; simpl in T; [contradiction|].
      destruct x; [contradiction|discriminate]. }
    rewrite Htruthy. cbn [negb].
    pose proof (join_word_chars _ H) as Hc.
    rewrite (map_fixed Js.lower_char)
      by (eapply Forall_impl; [exact Hc|]; intros c Hcc; exact (proj1 Hcc)).
    rewrite (filter_all (fun c => Js.is_word c || Js.is_space c))
      by (eapply Forall_impl; [exact Hc|]; intros c Hcc; exact (proj2 Hcc)).
    unfold Js.split_ws. rewrite split_join by (try exact H; discriminate).
    simpl rev. simpl app.
    change (Js.chars x :: map Js.chars toks) with (map Js.chars (x :: toks)).
    rewrite (filter_all (fun p => negb (is_nil p))).
    + rewrite map_map. rewrite <- (map_id (x :: toks)) at 2.
      apply map_ext. intros s. apply str_chars.
    + apply List.Forall_forall. intros p Hp. apply in_map_iff in Hp.
      destruct Hp as (s & <- & Hs). rewrite List.Forall_forall in H.
      destruct (word_token_chars s (H s Hs)) as [Hne _].
      destruct (Js.chars s); [congruence|reflexivity].
Qed.

(** X6: Normalisation is idempotent and blind to letter case: tokenizing the
    tokens joined by spaces gives the same tokens, and lower-casing the
    text first changes nothing. *)
Theorem tokenizeAndNormalize_idempotent text :
  tokenizeAndNormalize (Some (Js.join " " (tokenizeAndNormalize text))) = tokenizeAndNormalize text
  /\ tokenizeAndNormalize (option_map Js.toLowerCase text) = tokenizeAndNormalize text.
Proof.
  split; [apply tokenize_join, tokenize_word_tokens|].
  destruct text as [t|]; [|reflexivity]. simpl option_map. unfold tokenizeAndNormalize.
  assert (Ht : Js.truthy (Js.toLowerCase t) = Js.truthy t).
  { destruct t; reflexivity. }
  rewrite Ht. destruct (negb (Js.truthy t)); [reflexivity|].
  unfold Js.toLowerCase. rewrite chars_str, map_map.
  rewrite (map_ext _ Js.lower_char) by (intros c; apply lower_char_idem). reflexivity.
Qed.

(** * The range of the score *)

Lemma token_weight_cases prompt fuzzy queryToken :
  (token_matched prompt fuzzy queryToken = false /\ token_weight prompt fuzzy queryToken = 0%Z)
  \/ (token_matched prompt fuzzy queryToken = true
      /\ (3 <= token_weight prompt fuzzy queryToken <= 25)%Z).
Proof.
  unfold token_matched, token_weight, field_weight. cbv zeta.
  destruct (termMatches queryToken (ft_title _) _ _),
           (termMatches queryToken (ft_description _) _ _),
           (termMatches queryToken (ft_content _) _ _),
           (termMatches queryToken (ft_tags _) _ _); cbn [orb];
    first [left; split; [reflexivity|lia] | right; split; [reflexivity|lia]].
Qed.

Lemma sum_token_weights prompt fuzzy queryTokens :
  (0 <= sumZ (map (token_weight prompt fuzzy) queryTokens)
     <= 25 * Z.of_nat (length queryTokens))%Z
  /\ (List.filter (token_matched prompt fuzzy) queryTokens = [] ->
      sumZ (map (token_weight prompt fuzzy) queryTokens) = 0%Z)
  /\ (List.filter (token_matched prompt fuzzy) queryTokens <> [] ->
      (3 <= sumZ (map (token_weight prompt fuzzy) queryTokens))%Z).
Proof.
  induction queryTokens as [|q qs (IH1 & IH2 & IH3)]; simpl.
  - split; [lia|]. split; [reflexivity|congruence].
  - destruct (token_weight_cases prompt fuzzy q) as [[Hm Hw]|[Hm Hw]]; rewrite Hm.
    + rewrite Hw. split; [lia|]. split.
      * intros H. rewrite (IH2 H). reflexivity.
      * intros H. specialize (IH3 H). lia.
    + split; [lia|]. split; [discriminate|]. intros _. lia.
Qed.

Lemma filter_length_bound {A} (keep : A -> bool) l : length (List.filter keep l) <= length l.
Proof. induction l as [|x l IH]; simpl; [lia|]. destruct (keep x); simpl; lia. Qed.

Lemma distinct_count_bounds l :
  distinct_count l <= length l /\ (l <> [] -> 1 <= distinct_count l) /\ distinct_count [] = 0.
Proof.
  unfold distinct_count. split; [|split; [|reflexivity]].
  - apply NoDup_incl_length; [apply NoDup_nodup|].
    intros x Hx. apply nodup_In in Hx. exact Hx.
  - intros Hne. destruct l as [|x l]; [congruence|].
    assert (Hin : In x (nodup string_dec (x :: l))) by (apply nodup_In; left; reflexivity).
    destruct (nodup string_dec (x :: l)); [destruct Hin|simpl; lia].
Qed.

Lemma distinct_count_incl l1 l2 : incl l1 l2 -> distinct_count l1 <= distinct_count l2.
Proof.
  intros H. unfold distinct_count. apply NoDup_incl_length; [apply NoDup_nodup|].
  intros x Hx. apply nodup_In. apply H. apply nodup_In in Hx. exact Hx.
Qed.

(** [calculateScore] split into its three summands. *)
Lemma calculateScore_split prompt queryTokens fuzzy :
  calculateScore prompt queryTokens fuzzy
  = (sumZ (map (token_weight prompt fuzzy) queryTokens)
     + Z.of_nat (distinct_count (List.filter (token_matched prompt fuzzy) queryTokens)) * 5
     + phrase_points prompt queryTokens)%Z.
Proof.
  unfold calculateScore, phrase_points. cbv zeta.
  rewrite fold_score_token. cbn [score matchedQueryTerms]. rewrite matched_count.
  destruct (Nat.ltb 0 (String.length (Js.join " " queryTokens))); [|lia].
  destruct (checkPhrase _ (Prompt.title prompt)); [lia|].
  destruct (checkPhrase _ (Prompt.description prompt)); [lia|].
  destruct (checkPhrase _ (Prompt.content prompt)); lia.
Qed.

Lemma phrase_points_cases prompt queryTokens :
  (phrase_found prompt queryTokens = false /\ phrase_points prompt queryTokens = 0%Z)
  \/ (phrase_found prompt queryTokens = true
      /\ (10 <= phrase_points prompt queryTokens <= 20)%Z).
Proof.
  unfold phrase_found, phrase_points. cbv zeta.
  destruct (Nat.ltb 0 (String.length (Js.join " " queryTokens))); cbn [andb];
    [|left; split; reflexivity].
  destruct (checkPhrase _ (Prompt.title prompt)); cbn [orb];
    [right; split; [reflexivity|lia]|].
  destruct (checkPhrase _ (Prompt.description prompt)); cbn [orb];
    [right; split; [reflexivity|lia]|].
  destruct (checkPhrase _ (Prompt.content prompt));
    [right; split; [reflexivity|lia]|left; split; reflexivity].
Qed.

Lemma filter_nonempty_iff {A} (keep : A -> bool) l :
  List.filter keep l <> [] <-> exists x, In x l /\ keep x = true.
Proof.
  split.
  - intros H. destruct (List.filter keep l) as [|x r] eqn:E; [congruence|].
    exists x. apply filter_In. rewrite E. left. reflexivity.
  - intros (x & Hx & Hk) E.
    assert (Hin : In x (List.filter keep l)) by (apply filter_In; split; assumption).
    rewrite E in Hin. destruct Hin.
Qed.

(** The score is 0 for a prompt no token matches and the phrase does not
    occur in; otherwise it is at least 8 and at most 30 per query token
    plus 20. *)
Lemma calculateScore_cases prompt queryTokens fuzzy :
  (calculateScore prompt queryTokens fuzzy = 0%Z
   /\ ~ some_token_matches prompt queryTokens fuzzy
   /\ phrase_found prompt queryTokens = false)
  \/ ((8 <= calculateScore prompt queryTokens fuzzy
          <= 30 * Z.of_nat (length queryTokens) + 20)%Z
      /\ (some_token_matches prompt queryTokens fuzzy \/ phrase_found prompt queryTokens = true)).
Proof.
  rewrite calculateScore_split.
  pose proof (phrase_points_cases prompt queryTokens) as Hbonus.
  destruct (sum_token_weights prompt fuzzy queryTokens) as (Hs & Hs0 & Hs1).
  set (matched := List.filter (token_matched prompt fuzzy) queryTokens) in *.
  destruct (distinct_count_bounds matched) as (Hd & Hd1 & _).
  pose proof (filter_length_bound (token_matched prompt fuzzy) queryTokens) as Hlen.
  fold matched in Hlen.
  assert (Hsome : some_token_matches prompt queryTokens fuzzy <-> matched <> [])
    by (symmetry; apply filter_nonempty_iff).
  destruct matched as [|m ms] eqn:Em.
  - specialize (Hs0 eq_refl). rewrite Hs0. unfold distinct_count. simpl.
    destruct Hbonus as [[Hf Hp]|[Hf Hp]].
    + left. rewrite Hp. split; [reflexivity|]. split; [|exact Hf].
      rewrite Hsome. intros H. apply H. reflexivity.
    + right. split; [lia|right; exact Hf].
  - right. assert (Hne : m :: ms <> []) by discriminate.
    specialize (Hs1 Hne). specialize (Hd1 Hne).
    split; [|left; apply Hsome; exact Hne].
    destruct Hbonus as [[_ Hp]|[_ Hp]]; lia.
Qed.

(** X7: Bounds of the score, read off lines 117-151: it is never negative, at
    most 30 for each query token plus the phrase bonus 20, and never lies
    strictly between 0 and 8; it is positive exactly when some query token
    matches some field or the joined query occurs in a text field; without
    query tokens it is 0. *)
Theorem calculateScore_range prompt queryTokens fuzzy :
  (0 <= calculateScore prompt queryTokens fuzzy
     <= 30 * Z.of_nat (length queryTokens) + 20)%Z
  /\ (calculateScore prompt queryTokens fuzzy = 0
      \/ 8 <= calculateScore prompt queryTokens fuzzy)%Z
  /\ ((0 < calculateScore prompt queryTokens fuzzy)%Z
      <-> some_token_matches prompt queryTokens fuzzy \/ phrase_found prompt queryTokens = true)
  /\ calculateScore prompt [] fuzzy = 0%Z.
Proof.
  split; [|split; [|split]].
  - destruct (calculateScore_cases prompt queryTokens fuzzy) as [(H & _)|(H & _)]; lia.
  - destruct (calculateScore_cases prompt queryTokens fuzzy) as [(H & _)|(H & _)]; lia.
  - destruct (calculateScore_cases prompt queryTokens fuzzy) as [(H & Hn & Hp)|(H & Hm)].
    + split; [lia|]. intros [Hm|Hf]; [contradiction|congruence].
    + split; [intros _; exact Hm|lia].
  - reflexivity.
Qed.

Lemma termMatches_exact_fuzzy term textTokens threshold :
  termMatches term textTokens false threshold = true ->
  termMatches term textTokens true threshold = true.
Proof.
  unfold termMatches. destruct (Js.arr_includes textTokens term); [reflexivity|discriminate].
Qed.

Lemma token_fuzzy_monotone prompt queryToken :
  (token_weight prompt false queryToken <= token_weight prompt true queryToken)%Z
  /\ (token_matched prompt false queryToken = true -> token_matched prompt true queryToken = true).
Proof.
  unfold token_weight, token_matched, field_weight. cbv zeta.
  pose proof (termMatches_exact_fuzzy queryToken (ft_title (promptFieldTokens prompt))
                FUZZY_MATCH_THRESHOLD) as H1.
  pose proof (termMatches_exact_fuzzy queryToken (ft_description (promptFieldTokens prompt))
                FUZZY_MATCH_THRESHOLD) as H2.
  pose proof (termMatches_exact_fuzzy queryToken (ft_content (promptFieldTokens prompt))
                FUZZY_MATCH_THRESHOLD) as H3.
  pose proof (termMatches_exact_fuzzy queryToken (ft_tags (promptFieldTokens prompt))
                FUZZY_MATCH_THRESHOLD) as H4.
  destruct (termMatches queryToken (ft_title _) false _);
    [rewrite (H1 eq_refl)|destruct (termMatches queryToken (ft_title _) true _)];
  (destruct (termMatches queryToken (ft_description _) false _);
    [rewrite (H2 eq_refl)|destruct (termMatches queryToken (ft_description _) true _)]);
  (destruct (termMatches queryToken (ft_content _) false _);
    [rewrite (H3 eq_refl)|destruct (termMatches queryToken (ft_content _) true _)]);
  (destruct (termMatches queryToken (ft_tags _) false _);
    [rewrite (H4 eq_refl)|destruct (termMatches queryToken (ft_tags _) true _)]);
  cbn [orb]; split; try lia; try reflexivity; try discriminate.
Qed.

Lemma sumZ_pointwise {A} (f g : A -> Z) l :
  (forall x, f x <= g x)%Z -> (sumZ (map f l) <= sumZ (map g l))%Z.
Proof.
  intros H. induction l as [|x l IH]; simpl; [lia|]. specialize (H x). lia.
Qed.

(** X8: Turning fuzzy matching on never lowers a score: every prompt the
    exact search ranks is ranked by the fuzzy search with at least the
    same score. *)
Theorem calculateScore_fuzzy_monotone prompt queryTokens :
  (calculateScore prompt queryTokens false <= calculateScore prompt queryTokens true)%Z.
Proof.
  rewrite !calculateScore_split.
  pose proof (sumZ_pointwise (token_weight prompt false) (token_weight prompt true) queryTokens
                (fun t => proj1 (token_fuzzy_monotone prompt t))) as Hsum.
  assert (Hcount : distinct_count (List.filter (token_matched prompt false) queryTokens)
                   <= distinct_count (List.filter (token_matched prompt true) queryTokens)).
  { apply distinct_count_incl. intros t Ht. apply filter_In in Ht. destruct Ht as [Hin Hm].
    apply filter_In. split; [exact Hin|]. apply (proj2 (token_fuzzy_monotone prompt t)), Hm. }
  lia.
Qed.

(** * Ranking *)

(** The sort moves an element only past elements it compares greater
    than: elements no two of which compare so keep their order. *)
Section Stable.

Context {A : Type} (cmp : A -> A -> option Z) (sel : A -> bool).

Hypothesis sel_tied :
  forall x y, sel x = true -> sel y = true -> is_positive (cmp x y) = false.



End Stable.


Section Ranking.

Context {env : DateEnv}.

Lemma above_threshold_attach queryTokens fuzzy prompt :
  above_threshold (attach_score queryTokens fuzzy prompt)
  = (0 <? calculateScore prompt queryTokens fuzzy)%Z.
Proof using Type.
  unfold above_threshold, attach_score. cbn [Prompt.with_score Prompt._searchScore].
  unfold Qle_bool, SCORE_THRESHOLD, inject_Z. cbn [Qnum Qden].
  destruct (Z.leb_spec (1 * 1) (calculateScore prompt queryTokens fuzzy * 10)),
           (Z.ltb_spec 0 (calculateScore prompt queryTokens fuzzy)); try reflexivity; lia.
Qed.

(** The branch of [compute] taken by a query with tokens. *)
Lemma compute_query allPrompts queryTokens filters fuzzy :
  queryTokens <> [] ->
  compute allPrompts queryTokens filters fuzzy
  = {| results :=
         map strip_score
           (array_sort (fun a b => Some (calculateScore b queryTokens fuzzy
                                         - calculateScore a queryTokens fuzzy)%Z)
              (List.filter (fun p => (0 <? calculateScore p queryTokens fuzzy)%Z)
                 (applyFilters allPrompts filters)));
       highlightTerms := queryTokens |}.
Proof using Type.
  intros Hne. unfold compute. cbv zeta.
  assert (Hf : (if Nat.ltb 0 (Filters.keys_length filters)
                then applyFilters allPrompts filters else allPrompts)
               = applyFilters allPrompts filters).
  { destruct (Nat.ltb_spec 0 (Filters.keys_length filters)) as [_|Hz]; [reflexivity|].
    rewrite applyFilters_no_keys by lia. reflexivity. }
  rewrite Hf.
  destruct (Nat.ltb_spec 0 (length queryTokens)) as [_|Hz];
    [|destruct queryTokens; [congruence|simpl in Hz; lia]].
  f_equal.
  rewrite <- (map_filter_comm (attach_score queryTokens fuzzy) above_threshold).
  rewrite (List.filter_ext _ (fun p => (0 <? calculateScore p queryTokens fuzzy)%Z))
    by (intros p; apply above_threshold_attach).
  rewrite <- (array_sort_map (attach_score queryTokens fuzzy) by_score).
  rewrite map_map. apply map_ext. intros p. apply strip_attach.
Qed.


End Ranking.


(** * More on applyFilters *)

Lemma filter_filter_and {A} (f g : A -> bool) l :
  List.filter f (List.filter g l) = List.filter (fun x => g x && f x) l.
Proof.
  induction l as [|x l IH]; simpl; [reflexivity|].
  destruct (g x); simpl; [destruct (f x)|]; rewrite IH; reflexivity.
Qed.

Section FilterLaws.

Context {env : DateEnv}.

Lemma filter_when_passes f l : filter_when f l = List.filter (passes f) l.
Proof using Type.
  destruct f as [keep|]; simpl; [reflexivity|].
  induction l as [|x l IH]; simpl; [reflexivity|]. rewrite <- IH. reflexivity.
Qed.

Lemma applyFilters_accepts prompts filters :
  applyFilters prompts filters = List.filter (accepts filters) prompts.
Proof using Type.
  unfold applyFilters. cbv zeta. rewrite !filter_when_passes, !filter_filter_and.
  apply List.filter_ext. intros p. unfold accepts. apply andb_assoc.
Qed.

(** X10: [applyFilters] keeps exactly the prompts every active filter
    accepts, in their order; hence filtering twice changes nothing,
    filtering a concatenation is filtering its parts, and two filter
    objects can be applied in either order. *)
Theorem applyFilters_laws prompts filters :
  (forall p, In p (applyFilters prompts filters) <-> In p prompts /\ accepts filters p = true)
  /\ applyFilters (applyFilters prompts filters) filters = applyFilters prompts filters
  /\ (forall more, applyFilters (prompts ++ more) filters
                   = applyFilters prompts filters ++ applyFilters more filters)
  /\ (forall other, applyFilters (applyFilters prompts filters) other
                    = applyFilters (applyFilters prompts other) filters)
  /\ length (applyFilters prompts filters) <= length prompts.
Proof using Type.
  split; [|split; [|split; [|split]]].
  - intros p. rewrite applyFilters_accepts. apply filter_In.
  - rewrite !applyFilters_accepts, filter_filter_and.
    apply List.filter_ext. intros p. destruct (accepts filters p); reflexivity.
  - intros more. rewrite !applyFilters_accepts. apply List.filter_app.
  - intros other. rewrite !applyFilters_accepts, !filter_filter_and.
    apply List.filter_ext. intros p. apply andb_comm.
  - rewrite applyFilters_accepts. apply filter_length_bound.
Qed.

Lemma in_date_range_spec start end_ p :
  in_date_range start end_ p = true
  <-> exists t, prompt_date p = Some t /\ within start end_ t.
Proof using Type.
  unfold in_date_range, prompt_date, within.
  destruct (Js.or_else (Prompt.updated_at p) (Prompt.created_at p)) as [d|].
  2:{ split; [discriminate|]. intros (t & Ht & _). discriminate. }
  destruct (newDate d) as [t|].
  2:{ split; [discriminate|]. intros (t & Ht & _). discriminate. }
  split.
  - intros H. exists t. split; [reflexivity|]. split.
    + intros s ->. destruct (Z.ltb_spec t s); [discriminate|lia].
    + intros e ->. destruct start as [s|].
      * destruct (Z.ltb_spec t s); [discriminate|].
        destruct (Z.ltb_spec (endOfDay e) t); [discriminate|lia].
      * destruct (Z.ltb_spec (endOfDay e) t); [discriminate|lia].
  - intros (t' & Ht & Hs & He). apply Some_eq in Ht. subst t'.
    destruct start as [s|].
    + specialize (Hs s eq_refl). destruct (Z.ltb_spec t s); [lia|].
      destruct end_ as [e|]; [|reflexivity].
      specialize (He e eq_refl). destruct (Z.ltb_spec (endOfDay e) t); [lia|reflexivity].
    + destruct end_ as [e|]; [|reflexivity].
      specialize (He e eq_refl). destruct (Z.ltb_spec (endOfDay e) t); [lia|reflexivity].
Qed.

Lemma accepts_without_dateRange filters p :
  accepts filters p = accepts (without_dateRange filters) p && passes (date_filter filters) p.
Proof using Type.
  unfold accepts, without_dateRange, category_filter, tags_filter, date_filter.
  cbn [Filters.category Filters.tags Filters.dateRange passes].
  rewrite andb_true_r. reflexivity.
Qed.

(** X11: The date range of lines 182-205.  A bound that is missing, empty or
    not a date is ignored, and a range without a usable bound filters
    nothing, prompts without a date included.  With a usable bound the
    prompts kept are those whose [updated_at], else [created_at], parses
    to a date not before the start and not after the last millisecond of
    the end day; a prompt without a date that parses is dropped. *)
Theorem applyFilters_date_range prompts filters r :
  Filters.dateRange filters = Some r ->
  let start := bound_date (Filters.startDate r) in
  let end_ := bound_date (Filters.endDate r) in
  (start = None -> end_ = None ->
   applyFilters prompts filters = applyFilters prompts (without_dateRange filters))
  /\ (start <> None \/ end_ <> None ->
      forall p, In p (applyFilters prompts filters)
                <-> In p (applyFilters prompts (without_dateRange filters))
                    /\ exists t, prompt_date p = Some t /\ within start end_ t).
Proof using Type.
  intros Hr start end_. rewrite !applyFilters_accepts. split.
  - intros Hs He. apply List.filter_ext. intros p.
    rewrite accepts_without_dateRange. unfold date_filter. rewrite Hr. cbv zeta.
    fold start end_. rewrite Hs, He. cbn [is_some orb passes]. apply andb_true_r.
  - intros Hbound p. rewrite !filter_In, accepts_without_dateRange.
    assert (Hd : date_filter filters = Some (in_date_range start end_)).
    { unfold date_filter. rewrite Hr. cbv zeta. fold start end_.
      destruct start, end_; try reflexivity. destruct Hbound; congruence. }
    rewrite Hd. cbn [passes]. rewrite andb_true_iff, in_date_range_spec. tauto.
Qed.

End FilterLaws.

Lemma applyFilters_date_range_witness :
  In p3 (applyFilters (env := sample_dates) [p1; p2; p3] since_february)
  <-> In p3 (applyFilters (env := sample_dates) [p1; p2; p3]
               (without_dateRange since_february))
      /\ exists t, prompt_date (env := sample_dates) p3 = Some t
                   /\ within (env := sample_dates) (Some 1706745600000%Z) None t.
Proof.
  apply (applyFilters_date_range (env := sample_dates) [p1; p2; p3] since_february
           (Filters.mkRange (Some "2024-02-01") None)).
  - reflexivity.
  - left. vm_compute. discriminate.
Defined.

(** * What a call does to the module state *)

Section Effects.

Context {env : DateEnv}.



End Effects.


(** * highlightMatches *)

Module RegExpFacts.

Import RegExp.

Lemma plain_char c :
  is_special c = false ->
  Ascii.eqb c backslash = false /\ Ascii.eqb c bar = false /\ Ascii.eqb c rparen = false.
Proof. destruct c as [[] [] [] [] [] [] [] []]; vm_compute; intros H; repeat split; congruence. Qed.

(** Reading an escaped term gives the term back. *)
Lemma parse_escaped l : forall cur alts rest,
  parse_group cur alts
    (flat_map (fun c => if is_special c then [backslash; c] else [c]) l ++ rest)
  = parse_group (rev l ++ cur) alts rest.
Proof.
  induction l as [|c l IH]; intros cur alts rest; [reflexivity|].
  cbn [flat_map]. destruct (is_special c) eqn:Ec.
  - cbn [app parse_group]. change (Ascii.eqb backslash backslash) with true. cbn iota.
    rewrite Ec, IH. cbn [rev]. rewrite <- app_assoc. reflexivity.
  - destruct (plain_char c Ec) as (H1 & H2 & H3).
    cbn [app parse_group]. rewrite H1, H2, H3, Ec, IH. cbn [rev].
    rewrite <- app_assoc. reflexivity.
Qed.

Lemma chars_escape term :
  Js.chars (escape term)
  = flat_map (fun c => if is_special c then [backslash; c] else [c]) (Js.chars term).
Proof. unfold escape. apply chars_str. Qed.

Lemma chars_join_bar x y l :
  Js.chars (Js.join (String bar EmptyString) (x :: y :: l))
  = Js.chars x ++ bar :: Js.chars (Js.join (String bar EmptyString) (y :: l)).
Proof.
  change (Js.join (String bar EmptyString) (x :: y :: l))
    with (x ++ String bar EmptyString ++ Js.join (String bar EmptyString) (y :: l))%string.
  rewrite !chars_append. reflexivity.
Qed.

Lemma parse_joined terms : forall x cur alts,
  parse_group cur alts
    (Js.chars (Js.join (String bar EmptyString) (map escape (x :: terms))) ++ [rparen])
  = Some (rev alts ++ (rev cur ++ Js.chars x) :: map Js.chars terms).
Proof.
  induction terms as [|y terms IH]; intros x cur alts.
  - cbn [map Js.join]. rewrite chars_escape, parse_escaped.
    cbn [parse_group]. change (Ascii.eqb rparen backslash) with false.
    change (Ascii.eqb rparen bar) with false. change (Ascii.eqb rparen rparen) with true.
    cbn iota. cbn [rev map]. rewrite rev_app_distr, rev_involutive. reflexivity.
  - change (map escape (x :: y :: terms)) with (escape x :: escape y :: map escape terms).
    rewrite chars_join_bar, <- app_assoc, chars_escape, parse_escaped.
    cbn [app parse_group]. change (Ascii.eqb bar backslash) with false.
    change (Ascii.eqb bar bar) with true. cbn iota.
    change (escape y :: map escape terms) with (map escape (y :: terms)).
    rewrite IH. cbn [rev map app]. rewrite rev_app_distr, rev_involutive, <- app_assoc.
    reflexivity.
Qed.

Lemma compile_escaped x terms :
  compile (pattern_of (map escape (x :: terms))) = Some (map Js.chars (x :: terms)).
Proof.
  unfold compile, pattern_of.
  change (Js.chars (String lparen ?s ++ ?r)%string) with (lparen :: Js.chars (s ++ r)%string).
  cbn iota. change (Ascii.eqb lparen lparen) with true. cbn iota.
  rewrite chars_append. change (Js.chars (String rparen EmptyString)) with [rparen].
  rewrite parse_joined. reflexivity.
Qed.

Lemma canonicalize_lower c : canonicalize (Js.lower_char c) = canonicalize c.
Proof. destruct c as [[] [] [] [] [] [] [] []]; vm_compute; reflexivity. Qed.

Lemma lower_canonicalize c : Js.lower_char (canonicalize c) = Js.lower_char c.
Proof. destruct c as [[] [] [] [] [] [] [] []]; vm_compute; reflexivity. Qed.

(** Two code units are equal for a pattern with the [i] flag exactly
    when their lower-case forms are equal. *)
Lemma canonicalize_eq_iff a b :
  canonicalize a = canonicalize b <-> Js.lower_char a = Js.lower_char b.
Proof.
  split; intros H.
  - rewrite <- (lower_canonicalize a), <- (lower_canonicalize b), H. reflexivity.
  - rewrite <- (canonicalize_lower a), <- (canonicalize_lower b), H. reflexivity.
Qed.

Lemma match_literal_Some lit : forall s m,
  match_literal lit s = Some m ->
  s = m ++ drop (length m) s /\ map Js.lower_char m = map Js.lower_char lit.
Proof.
  induction lit as [|a lit IH]; intros s m H.
  - destruct s; injection H as <-; split; reflexivity.
  - destruct s as [|b s]; [discriminate|]. cbn [match_literal] in H.
    destruct (Ascii.eqb (canonicalize a) (canonicalize b)) eqn:E; [|discriminate].
    apply Ascii.eqb_eq, canonicalize_eq_iff in E.
    destruct (match_literal lit s) as [m'|] eqn:Em; [|discriminate].
    injection H as <-. destruct (IH s m' Em) as [Hs Hm].
    split; [cbn [length drop app]; f_equal; exact Hs|].
    cbn [map]. rewrite Hm, E. reflexivity.
Qed.

Lemma match_literal_prefix lit : forall s,
  match_literal lit s <> None
  <-> Js.prefix_of (map Js.lower_char lit) (map Js.lower_char s) = true.
Proof.
  induction lit as [|a lit IH]; intros s.
  - destruct s; split; intros; [reflexivity|discriminate|reflexivity|discriminate].
  - destruct s as [|b s]; [split; [intros H; contradiction H; reflexivity|discriminate]|].
    cbn [match_literal map Js.prefix_of].
    destruct (Ascii.eqb (canonicalize a) (canonicalize b)) eqn:E.
    + apply Ascii.eqb_eq, canonicalize_eq_iff in E. rewrite E, Ascii.eqb_refl. cbn [andb].
      rewrite <- IH. destruct (match_literal lit s); cbn [option_map];
        [split; intros _; discriminate|tauto].
    + assert (Hne : Ascii.eqb (Js.lower_char a) (Js.lower_char b) = false).
      { apply Ascii.eqb_neq. intros H. apply canonicalize_eq_iff in H.
        apply Ascii.eqb_neq in E. contradiction. }
      rewrite Hne. split; [intros H; contradiction H; reflexivity|discriminate].
Qed.

Lemma exec_at_Some re : forall s m,
  exec_at re s = Some m ->
  s = m ++ drop (length m) s
  /\ exists lit, In lit re /\ map Js.lower_char m = map Js.lower_char lit.
Proof.
  induction re as [|lit re IH]; intros s m H; [discriminate|].
  cbn [exec_at] in H. destruct (match_literal lit s) as [m'|] eqn:Em.
  - injection H as <-. destruct (match_literal_Some lit s m' Em) as [Hs Hm].
    split; [exact Hs|]. exists lit. split; [left; reflexivity|exact Hm].
  - destruct (IH s m H) as (Hs & lit' & Hin & Hm).
    split; [exact Hs|]. exists lit'. split; [right; exact Hin|exact Hm].
Qed.

Lemma exec_at_None re s :
  exec_at re s = None
  <-> forall lit, In lit re ->
                  Js.prefix_of (map Js.lower_char lit) (map Js.lower_char s) = false.
Proof.
  induction re as [|lit re IH].
  - split; [intros _ lit []|reflexivity].
  - cbn [exec_at]. pose proof (match_literal_prefix lit s) as Hp.
    destruct (match_literal lit s) as [m|].
    + split; [discriminate|]. intros H. specialize (H lit (or_introl eq_refl)).
      assert (Js.prefix_of (map Js.lower_char lit) (map Js.lower_char s) = true)
        by (apply Hp; discriminate).
      congruence.
    + rewrite IH. split.
      * intros H lit' [<-|Hin]; [|apply H, Hin].
        destruct (Js.prefix_of _ _); [|reflexivity].
        exfalso. apply (proj2 Hp eq_refl). reflexivity.
      * intros H lit' Hin. apply H. right. exact Hin.
Qed.

Lemma erase_plain c segs : erase (Plain c :: segs) = c :: erase segs.
Proof. reflexivity. Qed.

Lemma erase_matched m segs : erase (Matched m :: segs) = m ++ erase segs.
Proof. reflexivity. Qed.

Lemma marks_plain c segs : marks (Plain c :: segs) = marks segs.
Proof. reflexivity. Qed.

Lemma marks_matched m segs : marks (Matched m :: segs) = m :: marks segs.
Proof. reflexivity. Qed.

(** The segments spell the text, and every match is an alternative up
    to letter case. *)
Lemma scan_spec re s : forall inside,
  inside <= length s ->
  erase (scan re inside s) = drop inside s
  /\ forall m, In m (marks (scan re inside s)) ->
               exists lit, In lit re /\ map Js.lower_char m = map Js.lower_char lit.
Proof.
  induction s as [|c s IH]; intros inside Hin.
  - destruct inside; [|simpl in Hin; lia]. cbn [scan].
    destruct (exec_at re []) as [[|x m']|] eqn:E.
    + split; [reflexivity|]. intros m [<-|[]].
      destruct (exec_at_Some re [] [] E) as (_ & lit & H). exists lit. exact H.
    + destruct (exec_at_Some re [] _ E) as (Hs & _). discriminate.
    + split; [reflexivity|]. intros m [].
  - destruct inside as [|k].
    + cbn [scan]. destruct (exec_at re (c :: s)) as [[|x m']|] eqn:E.
      * destruct (IH 0 ltac:(lia)) as [He Hm].
        rewrite erase_matched, erase_plain, marks_matched, marks_plain, He.
        split; [reflexivity|].
        intros m [<-|H]; [|apply Hm, H].
        destruct (exec_at_Some re _ _ E) as (_ & lit & H). exists lit. exact H.
      * destruct (exec_at_Some re _ _ E) as (Hs & lit & Hlit).
        cbn [length drop app] in Hs. injection Hs as <- Hs.
        assert (Hlen : length m' <= length s).
        { pose proof (f_equal (@length ascii) Hs) as Hl. rewrite length_app in Hl. lia. }
        destruct (IH (length m') Hlen) as [He Hm].
        rewrite erase_matched, marks_matched, He.
        split.
        -- cbn [drop]. rewrite <- app_comm_cons, <- Hs. reflexivity.
        -- intros m [<-|H]; [exists lit; exact Hlit|apply Hm, H].
      * destruct (IH 0 ltac:(lia)) as [He Hm].
        rewrite erase_plain, marks_plain, He.
        split; [reflexivity|exact Hm].
    + cbn [scan]. cbn [length] in Hin. destruct (IH k ltac:(lia)) as [He Hm].
      split; [exact He|exact Hm].
Qed.

Lemma absent_tail re c s : absent re (c :: s) -> absent re s.
Proof.
  intros H lit Hin. specialize (H lit Hin). cbn [map Js.includes_chars] in H.
  apply orb_false_elim in H. tauto.
Qed.

Lemma absent_head re s : absent re s -> exec_at re s = None.
Proof.
  intros H. apply exec_at_None. intros lit Hin. specialize (H lit Hin).
  destruct s; cbn [map Js.includes_chars] in H; apply orb_false_elim in H; tauto.
Qed.

Lemma scan_absent re s : absent re s -> scan re 0 s = map Plain s.
Proof.
  induction s as [|c s IH]; intros H; cbn [scan]; rewrite (absent_head re _ H).
  - reflexivity.
  - cbn [map]. rewrite (IH (absent_tail re c s H)). reflexivity.
Qed.

Lemma scan_no_marks re s :
  marks (scan re 0 s) = [] -> absent re s.
Proof.
  induction s as [|c s IH]; cbn [scan]; intros H.
  - destruct (exec_at re []) as [[|x m']|] eqn:E; try discriminate.
    intros lit Hin. pose proof (proj1 (exec_at_None re []) E lit Hin) as Hp.
    cbn [map Js.includes_chars] in *. rewrite Hp. reflexivity.
  - destruct (exec_at re (c :: s)) as [[|x m']|] eqn:E; try discriminate.
    rewrite marks_plain in H.
    intros lit Hin. pose proof (proj1 (exec_at_None re (c :: s)) E lit Hin) as Hp.
    pose proof (IH H lit Hin) as Ht.
    cbn [map Js.includes_chars] in *. rewrite Hp, Ht. reflexivity.
Qed.

Lemma expand_length segs :
  length (flat_map expand segs) = length (erase segs) + 13 * length (marks segs).
Proof.
  induction segs as [|[c|m] segs IH].
  - reflexivity.
  - rewrite erase_plain, marks_plain. cbn [flat_map expand app length]. rewrite IH. lia.
  - rewrite erase_matched, marks_matched. cbn [flat_map expand].
    rewrite !length_app, IH. cbn [length Js.chars list_ascii_of_string]. lia.
Qed.

End RegExpFacts.

Lemma highlight_degenerate text terms :
  text = EmptyString \/ terms = [] ->
  highlightMatches (Some text) (Some terms) = Some (Some text).
Proof.
  intros [-> | ->]; [reflexivity|].
  unfold highlightMatches. cbn [length Nat.eqb]. rewrite orb_true_r. reflexivity.
Qed.

(** What the function computes when it reaches line 302. *)
Lemma highlight_segments text terms :
  text <> EmptyString -> terms <> [] ->
  highlightMatches (Some text) (Some terms)
  = Some (Some (render_segments (RegExp.scan (map Js.chars terms) 0 (Js.chars text)))).
Proof.
  intros Htext Hterms. unfold highlightMatches.
  assert (Ht : Js.truthy text = true).
  { destruct (Js.truthy text) eqn:T; [reflexivity|].
    apply truthy_false_iff in T. contradiction. }
  rewrite Ht. destruct terms as [|x terms]; [congruence|].
  cbn [negb orb length Nat.eqb map]. cbv zeta.
  change (RegExp.escape x :: map RegExp.escape terms) with (map RegExp.escape (x :: terms)).
  rewrite RegExpFacts.compile_escaped. reflexivity.
Qed.

Lemma lowered_chars_eq m term :
  map Js.lower_char m = map Js.lower_char (Js.chars term) ->
  Js.toLowerCase (Js.str m) = Js.toLowerCase term.
Proof. intros H. unfold Js.toLowerCase. rewrite chars_str, H. reflexivity. Qed.

Lemma render_plain s : render_segments (map RegExp.Plain s) = Js.str s.
Proof.
  unfold render_segments. f_equal.
  induction s as [|c s IH]; [reflexivity|]. cbn [map flat_map RegExp.expand app].
  rewrite IH. reflexivity.
Qed.

(** X14: The escaping of line 297 makes every term a literal: the pattern
    built from a non-empty list of terms is read as the alternation of the
    terms as they are, so the function gives a result for every text and
    every list of terms; a term made of letters, digits and underscores,
    such as a token of the tokenizer, needs no escaping. *)
Theorem highlightMatches_pattern :
  (forall x terms,
      RegExp.compile (RegExp.pattern_of (map RegExp.escape (x :: terms)))
      = Some (map Js.chars (x :: terms)))
  /\ (forall text terms, highlightMatches text terms <> None)
  /\ (forall tok, word_token tok -> RegExp.escape tok = tok).
Proof.
  split; [exact RegExpFacts.compile_escaped|]. split.
  - intros [text|] [terms|]; try discriminate.
    destruct (string_dec text EmptyString) as [->|Htext]; [discriminate|].
    destruct terms as [|x terms]; [rewrite highlight_degenerate by (right; reflexivity)|
                                   rewrite highlight_segments by congruence]; discriminate.
  - intros tok [_ Htok]. unfold RegExp.escape.
    rewrite <- (str_chars tok) at 2. f_equal.
    induction Htok as [|c l Hc _ IH]; [reflexivity|]. cbn [flat_map].
    assert (Hs : RegExp.is_special c = false).
    { revert Hc. clear. destruct c as [[] [] [] [] [] [] [] []]; vm_compute; congruence. }
    rewrite Hs, IH. reflexivity.
Qed.

(** X15: Highlighting only inserts tags: the result is the text with some
    pieces wrapped in [<mark>] and [</mark>], the pieces and what lies
    between them spelling the text, and every wrapped piece is one of the
    terms up to letter case. *)
Theorem highlightMatches_marks text terms :
  exists segs,
    highlightMatches (Some text) (Some terms) = Some (Some (render_segments segs))
    /\ erase segs = Js.chars text
    /\ forall m, In m (marks segs) ->
                 exists term, In term terms /\ Js.toLowerCase (Js.str m) = Js.toLowerCase term.
Proof.
  destruct (string_dec text EmptyString) as [Htext|Htext];
    [|destruct terms as [|x terms]].
  - exists []. rewrite highlight_degenerate by (left; exact Htext). subst text.
    split; [reflexivity|]. split; [reflexivity|]. intros m [].
  - exists (map RegExp.Plain (Js.chars text)).
    rewrite highlight_degenerate by (right; reflexivity). rewrite render_plain, str_chars.
    split; [reflexivity|]. split.
    + induction (Js.chars text) as [|c l IH]; [reflexivity|].
      cbn [map]. rewrite RegExpFacts.erase_plain, IH. reflexivity.
    + intros m Hm. exfalso. induction (Js.chars text) as [|c l IH]; [destruct Hm|].
      cbn [map] in Hm. rewrite RegExpFacts.marks_plain in Hm. exact (IH Hm).
  - exists (RegExp.scan (map Js.chars (x :: terms)) 0 (Js.chars text)).
    rewrite highlight_segments by congruence.
    destruct (RegExpFacts.scan_spec (map Js.chars (x :: terms)) (Js.chars text) 0 ltac:(lia))
      as [He Hm].
    split; [reflexivity|]. split; [exact He|].
    intros m Hin. destruct (Hm m Hin) as (lit & Hlit & Heq).
    apply in_map_iff in Hlit. destruct Hlit as (term & <- & Hterm).
    exists term. split; [exact Hterm|apply lowered_chars_eq, Heq].
Qed.

Lemma absent_iff terms text :
  absent (map Js.chars terms) (Js.chars text)
  <-> forall term, In term terms -> occurs_ignoring_case term (Some text) = false.
Proof.
  unfold absent, occurs_ignoring_case, Js.includes, Js.toLowerCase.
  split.
  - intros H term Hin. rewrite !chars_str. apply H, in_map, Hin.
  - intros H lit Hin. apply in_map_iff in Hin. destruct Hin as (term & <- & Hin).
    specialize (H term Hin). rewrite !chars_str in H. exact H.
Qed.

(** X16: The text comes back unchanged exactly when it is empty, or there is
    no term, or no term occurs in it, letter case ignored (an empty term
    occurs everywhere); a missing text or a missing list of terms gives the
    text argument back. *)
Theorem highlightMatches_unchanged :
  (forall terms, highlightMatches None terms = Some None)
  /\ (forall text, highlightMatches text None = Some text)
  /\ (forall text terms,
         highlightMatches (Some text) (Some terms) = Some (Some text)
         <-> text = EmptyString \/ terms = []
             \/ forall term, In term terms -> occurs_ignoring_case term (Some text) = false).
Proof.
  split; [reflexivity|]. split; [intros [t|]; reflexivity|].
  intros text terms.
  destruct (string_dec text EmptyString) as [Htext|Htext].
  { split; [intros _; left; exact Htext|intros _; apply highlight_degenerate; left; exact Htext]. }
  destruct terms as [|x terms].
  { split; [intros _; right; left; reflexivity|].
    intros _. apply highlight_degenerate. right. reflexivity. }
  rewrite highlight_segments by congruence. rewrite <- absent_iff. split.
  - intros H. right. right. apply RegExpFacts.scan_no_marks.
    apply Some_eq, Some_eq in H.
    pose proof (f_equal Js.chars H) as Hc. unfold render_segments in Hc.
    rewrite chars_str in Hc. apply (f_equal (@length ascii)) in Hc.
    rewrite RegExpFacts.expand_length in Hc.
    destruct (RegExpFacts.scan_spec (map Js.chars (x :: terms)) (Js.chars text) 0 ltac:(lia))
      as [He _].
    rewrite He in Hc. change (drop 0 (Js.chars text)) with (Js.chars text) in Hc.
    destruct (marks _); [reflexivity|cbn [length] in Hc; lia].
  - intros [H|[H|H]]; [contradiction|discriminate|].
    rewrite (RegExpFacts.scan_absent _ _ H), render_plain, str_chars. reflexivity.
Qed.

(** X17: With the highlight terms [search] returns, that is the tokens of a
    query, every wrapped piece of text is not empty and its lower-case
    form is one of the tokens. *)
Theorem highlightMatches_of_tokens text query :
  let terms := tokenizeAndNormalize query in
  exists segs,
    highlightMatches (Some text) (Some terms) = Some (Some (render_segments segs))
    /\ erase segs = Js.chars text
    /\ forall m, In m (marks segs) -> m <> [] /\ In (Js.toLowerCase (Js.str m)) terms.
Proof.
  intros terms.
  destruct (string_dec text EmptyString) as [Htext|Htext];
    [|destruct terms as [|x rest] eqn:Eterms].
  - exists []. rewrite highlight_degenerate by (left; exact Htext). subst text.
    split; [reflexivity|]. split; [reflexivity|]. intros m [].
  - exists (map RegExp.Plain (Js.chars text)).
    rewrite highlight_degenerate by (right; reflexivity). rewrite render_plain, str_chars.
    split; [reflexivity|]. split.
    + induction (Js.chars text) as [|c l IH]; [reflexivity|].
      cbn [map]. rewrite RegExpFacts.erase_plain, IH. reflexivity.
    + intros m Hm. exfalso. induction (Js.chars text) as [|c l IH]; [destruct Hm|].
      cbn [map] in Hm. rewrite RegExpFacts.marks_plain in Hm. exact (IH Hm).
  - exists (RegExp.scan (map Js.chars (x :: rest)) 0 (Js.chars text)).
    rewrite highlight_segments by congruence.
    destruct (RegExpFacts.scan_spec (map Js.chars (x :: rest)) (Js.chars text) 0 ltac:(lia))
      as [He Hm].
    split; [reflexivity|]. split; [exact He|].
    intros m Hin. destruct (Hm m Hin) as (lit & Hlit & Heq).
    apply in_map_iff in Hlit. destruct Hlit as (term & <- & Hterm).
    assert (Hnorm : normalized_token term).
    { pose proof (tokenizeAndNormalize_normalized query) as Hall.
      fold terms in Hall. rewrite Eterms in Hall.
      rewrite List.Forall_forall in Hall. apply Hall, Hterm. }
    destruct Hnorm as [Hne Hlow]. split.
    + intros ->. destruct (Js.chars term) eqn:Ec; [|discriminate].
      apply chars_nil_iff in Ec. contradiction.
    + rewrite (lowered_chars_eq m term Heq), Hlow. exact Hterm.
Qed.

(** * LRUCache *)

Module MapFacts.

Import SearchCache CacheFacts.

Section Facts.

Context {V : Type}.
Implicit Types (c : list (string * V)) (v : V).

Lemma length_delete c k : length (delete c k) <= length c.
Proof.
  induction c as [|[k' v] c IH]; simpl; [lia|].
  destruct (String.eqb k' k); simpl; lia.
Qed.

Lemma length_delete_has c k : has c k = true -> S (length (delete c k)) = length c.
Proof.
  unfold has. induction c as [|[k' v] c IH]; simpl; [discriminate|].
  destruct (String.eqb k' k); simpl; [reflexivity|]. intros H. rewrite IH by exact H.
  reflexivity.
Qed.

Lemma length_set c k v : length (set c k v) <= S (length c).
Proof.
  induction c as [|[k' v'] c IH]; simpl; [lia|].
  destruct (String.eqb k' k); simpl; lia.
Qed.

Lemma get_set_ne c k k' v : k' <> k -> get (set c k' v) k = get c k.
Proof.
  intros Hne. induction c as [|[k0 v0] c IH]; simpl.
  - destruct (String.eqb_spec k' k); [contradiction|reflexivity].
  - destruct (String.eqb_spec k0 k') as [->|H0]; simpl.
    + destruct (String.eqb_spec k' k); [contradiction|reflexivity].
    + destruct (String.eqb k0 k); [reflexivity|exact IH].
Qed.

Lemma get_delete_ne c k k' : k' <> k -> get (delete c k') k = get c k.
Proof.
  intros Hne. induction c as [|[k0 v0] c IH]; simpl; [reflexivity|].
  destruct (String.eqb_spec k0 k') as [->|H0]; simpl.
  - destruct (String.eqb_spec k' k); [contradiction|reflexivity].
  - destruct (String.eqb k0 k); [reflexivity|exact IH].
Qed.

Lemma keys_delete_NoDup c k :
  List.NoDup (keys c) -> List.NoDup (keys (delete c k)) /\ ~ In k (keys (delete c k)).
Proof.
  induction c as [|[k' v] c IH]; simpl; intros Hnd; [split; [constructor|tauto]|].
  apply List.NoDup_cons_iff in Hnd. destruct Hnd as [Hk' Hnd].
  destruct (String.eqb_spec k' k) as [->|Hne].
  - split; assumption.
  - destruct (IH Hnd) as [IH1 IH2]. simpl. split.
    + constructor; [|exact IH1]. intros H. apply Hk'. apply (keys_delete_subset _ _ _ H).
    + intros [H|H]; [contradiction|tauto].
Qed.

Lemma keys_set c k v :
  keys (set c k v) = if has c k then keys c else keys c ++ [k].
Proof.
  destruct (has c k) eqn:E.
  - apply has_true_keys in E. induction c as [|[k' v'] c IH]; simpl in *; [tauto|].
    destruct (String.eqb_spec k' k) as [->|Hne]; [reflexivity|].
    simpl. f_equal. apply IH. destruct E; [contradiction|assumption].
  - apply has_false_keys in E. rewrite set_fresh by exact E.
    unfold keys. rewrite map_app. reflexivity.
Qed.

Lemma keys_set_NoDup c k v : List.NoDup (keys c) -> List.NoDup (keys (set c k v)).
Proof.
  intros Hnd. rewrite keys_set. destruct (has c k) eqn:E; [exact Hnd|].
  apply has_false_keys in E.
  apply (Permutation.Permutation_NoDup (Permutation.Permutation_cons_append _ k)).
  constructor; assumption.
Qed.

Import LRUCalls.

Lemma from_key_delete c k k' :
  k' <> k -> length (from_key k (delete c k')) <= length (from_key k c).
Proof.
  intros Hne. induction c as [|[k0 v0] c IH]; simpl; [lia|].
  destruct (String.eqb_spec k0 k') as [->|H0].
  - destruct (String.eqb_spec k' k); [contradiction|]. lia.
  - simpl. destruct (String.eqb k0 k); simpl.
    + pose proof (length_delete c k'). lia.
    + exact IH.
Qed.

Lemma from_key_set c k k' v :
  k' <> k -> length (from_key k (set c k' v)) <= S (length (from_key k c)).
Proof.
  intros Hne. induction c as [|[k0 v0] c IH]; simpl.
  - destruct (String.eqb_spec k' k); [contradiction|]. simpl. lia.
  - destruct (String.eqb_spec k0 k') as [->|H0]; simpl.
    + destruct (String.eqb_spec k' k); [contradiction|]. lia.
    + destruct (String.eqb k0 k); simpl.
      * pose proof (length_set c k' v). lia.
      * exact IH.
Qed.

Lemma from_key_oldest c k : oldestKey c = Some k -> from_key k c = c.
Proof.
  destruct c as [|[k' v] c]; simpl; [discriminate|].
  intros [= ->]. rewrite String.eqb_refl. reflexivity.
Qed.

Lemma from_key_last c k v : ~ In k (keys c) -> from_key k (c ++ [(k, v)]) = [(k, v)].
Proof.
  induction c as [|[k' v'] c IH]; simpl; intros Hn.
  - rewrite String.eqb_refl. reflexivity.
  - destruct (String.eqb_spec k' k) as [->|Hne]; [tauto|]. apply IH. tauto.
Qed.

End Facts.

End MapFacts.

Section LRU.

Import SearchCache CacheFacts MapFacts LRUCalls.

Context {V : Type}.
Implicit Types (c : LRUCache.t V) (v : V).

Lemma get_capacity c k : LRUCache.capacity (snd (LRUCache.get c k)) = LRUCache.capacity c.
Proof using Type.
  unfold LRUCache.get. destruct (negb (has (LRUCache.cache c) k)); [reflexivity|].
  destruct (get (LRUCache.cache c) k); reflexivity.
Qed.

Lemma step_capacity c op : LRUCache.capacity (step c op) = LRUCache.capacity c.
Proof using Type. destruct op; try reflexivity. apply get_capacity. Qed.

Lemma run_capacity ops : forall c, LRUCache.capacity (run c ops) = LRUCache.capacity c.
Proof using Type.
  induction ops as [|op ops IH]; intros c; [reflexivity|].
  cbn [run fold_left]. fold (run (step c op) ops). rewrite IH. apply step_capacity.
Qed.

(** The cache of [get]: as it was, or with the key moved to the end. *)
Lemma get_cases c k :
  (get (LRUCache.cache c) k = None /\ LRUCache.get c k = (None, c))
  \/ exists v, get (LRUCache.cache c) k = Some v
               /\ LRUCache.get c k
                  = (Some v, LRUCache.mk (LRUCache.capacity c)
                               (set (delete (LRUCache.cache c) k) k v)).
Proof using Type.
  unfold LRUCache.get, has. destruct (get (LRUCache.cache c) k) as [v|].
  - right. exists v. split; reflexivity.
  - left. split; reflexivity.
Qed.

Lemma step_ok c op : lru_ok c -> lru_ok (step c op).
Proof using Type.
  intros [Hnd Hsize]. unfold lru_ok, LRUCache.size, size in *. destruct op as [k|k v|k|].
  - cbn [step]. destruct (get_cases c k) as [[_ ->]|(v & Hget & ->)]; [split; assumption|].
    cbn [snd LRUCache.cache LRUCache.capacity].
    assert (Hhas : has (LRUCache.cache c) k = true) by (unfold has; rewrite Hget; reflexivity).
    pose proof (length_delete_has _ _ Hhas). pose proof (length_set (delete (LRUCache.cache c) k) k v).
    split; [apply keys_set_NoDup, keys_delete_NoDup, Hnd|lia].
  - cbn [step]. unfold LRUCache.put. cbn [LRUCache.cache LRUCache.capacity].
    destruct (has (LRUCache.cache c) k) eqn:Hhas.
    + pose proof (length_delete_has _ _ Hhas).
      pose proof (length_set (delete (LRUCache.cache c) k) k v).
      split; [apply keys_set_NoDup, keys_delete_NoDup, Hnd|lia].
    + destruct (Z.leb_spec (LRUCache.capacity c) (Z.of_nat (size (LRUCache.cache c))))
        as [Hfull|Hroom]; unfold size in *.
      * destruct (LRUCache.cache c) as [|[k0 v0] l] eqn:Ec; cbn [oldestKey].
        -- split; [apply List.NoDup_cons; [intros []|apply List.NoDup_nil]|cbn [set length]; lia].
        -- rewrite (delete_oldest ((k0, v0) :: l) k0 eq_refl). cbn [tl].
           pose proof (length_set l k v). cbn [length] in Hsize.
           split; [|lia]. apply keys_set_NoDup.
           cbn [keys map fst] in Hnd. apply List.NoDup_cons_iff in Hnd. tauto.
      * pose proof (length_set (LRUCache.cache c) k v).
        split; [apply keys_set_NoDup, Hnd|lia].
  - cbn [step LRUCache.delete LRUCache.cache LRUCache.capacity].
    pose proof (length_delete (LRUCache.cache c) k).
    split; [apply keys_delete_NoDup, Hnd|lia].
  - cbn [step LRUCache.clear LRUCache.cache LRUCache.capacity].
    split; [apply List.NoDup_nil|cbn [length]; lia].
Qed.

Lemma run_ok ops : forall c, lru_ok c -> lru_ok (run c ops).
Proof using Type.
  induction ops as [|op ops IH]; intros c Hc; [exact Hc|].
  cbn [run fold_left]. apply IH, step_ok, Hc.
Qed.

Lemma constructor_ok capacity : lru_ok (LRUCache.constructor (V := V) capacity).
Proof using Type.
  split; [apply List.NoDup_nil|].
  unfold LRUCache.size, LRUCache.constructor, size. cbn [LRUCache.cache LRUCache.capacity length]. lia.
Qed.

(** X18: Whatever calls are made on a new cache, it never holds more than
    [capacity] entries, one entry when [capacity] is below 1, and it
    holds each key once. *)
Theorem LRUCache_size_bound capacity (ops : list (Op V)) :
  let c := run (LRUCache.constructor capacity) ops in
  (Z.of_nat (LRUCache.size c) <= Z.max 1 capacity)%Z
  /\ List.NoDup (keys (LRUCache.cache c))
  /\ LRUCache.capacity c = capacity.
Proof using Type.
  cbv zeta. destruct (run_ok ops _ (constructor_ok capacity)) as [Hnd Hsize].
  rewrite run_capacity in Hsize. cbn [LRUCache.constructor LRUCache.capacity] in Hsize.
  split; [exact Hsize|]. split; [exact Hnd|]. apply run_capacity.
Qed.

(** X19: Reading back.  After [put] the key reads the value put, whatever the
    capacity; other keys read what they read before, unless [put] had
    to evict one of them; a key that is not there reads [null] and the
    cache stays as it is; after [delete] the key reads [null]; after
    [clear] every key does. *)
Theorem LRUCache_read_back capacity (ops : list (Op V)) k v :
  let c := run (LRUCache.constructor capacity) ops in
  fst (LRUCache.get (LRUCache.put c k v) k) = Some v
  /\ (forall k', k' <> k ->
                 fst (LRUCache.get (LRUCache.put c k v) k') = fst (LRUCache.get c k')
                 \/ (oldestKey (LRUCache.cache c) = Some k'
                     /\ has (LRUCache.cache c) k = false
                     /\ (LRUCache.capacity c <= Z.of_nat (LRUCache.size c))%Z
                     /\ fst (LRUCache.get (LRUCache.put c k v) k') = None))
  /\ (get (LRUCache.cache c) k = None -> LRUCache.get c k = (None, c))
  /\ fst (LRUCache.get (LRUCache.delete c k) k) = None
  /\ fst (LRUCache.get (LRUCache.clear c) k) = None.
Proof using Type.
  cbv zeta. set (c := run (LRUCache.constructor capacity) ops).
  destruct (run_ok ops _ (constructor_ok capacity)) as [Hnd _]. fold c in Hnd.
  assert (Hfst : forall c' key, fst (LRUCache.get c' key) = get (LRUCache.cache c') key).
  { intros c' key. destruct (get_cases c' key) as [[H ->]|(v' & H & ->)]; rewrite H; reflexivity. }
  rewrite !Hfst. split; [|split; [|split; [|split]]].
  - unfold LRUCache.put. cbn [LRUCache.cache]. apply get_set_eq.
  - intros k' Hne. rewrite !Hfst. unfold LRUCache.put, LRUCache.size. cbn [LRUCache.cache].
    rewrite get_set_ne by congruence.
    destruct (has (LRUCache.cache c) k) eqn:Hhas.
    + left. apply get_delete_ne. congruence.
    + destruct (Z.leb_spec (LRUCache.capacity c) (Z.of_nat (size (LRUCache.cache c))))
        as [Hfull|Hroom]; [|left; reflexivity].
      destruct (oldestKey (LRUCache.cache c)) as [k0|] eqn:Ho; [|left; reflexivity].
      destruct (string_dec k0 k') as [->|Hk0].
      * right. split; [reflexivity|]. split; [reflexivity|]. split; [exact Hfull|].
        apply get_None_keys. apply (keys_delete_NoDup _ k' Hnd).
      * left. apply get_delete_ne. exact Hk0.
  - intros H. destruct (get_cases c k) as [[_ Hg]|(v' & Hv & _)]; [exact Hg|congruence].
  - cbn [LRUCache.delete LRUCache.cache]. apply get_None_keys.
    apply (keys_delete_NoDup _ k Hnd).
  - reflexivity.
Qed.

(** The invariant behind the recency guarantee: [k] reads [v], and at
    most [n] entries sit at or after it. *)
Lemma step_keeps c op k v n :
  on_other_key k op ->
  get (LRUCache.cache c) k = Some v ->
  length (from_key k (LRUCache.cache c)) <= n ->
  (Z.of_nat n < LRUCache.capacity c)%Z ->
  get (LRUCache.cache (step c op)) k = Some v
  /\ length (from_key k (LRUCache.cache (step c op))) <= S n.
Proof using Type.
  intros Hop Hget Hfrom Hcap. destruct op as [k'|k' v'|k'|]; cbn [on_other_key] in Hop;
    try contradiction.
  - cbn [step]. destruct (get_cases c k') as [[_ ->]|(w & _ & ->)]; cbn [snd LRUCache.cache].
    + split; [exact Hget|lia].
    + rewrite get_set_ne, get_delete_ne by exact Hop. split; [exact Hget|].
      pose proof (from_key_set (delete (LRUCache.cache c) k') k k' w Hop).
      pose proof (from_key_delete (LRUCache.cache c) k k' Hop). lia.
  - cbn [step]. unfold LRUCache.put. cbn [LRUCache.cache].
    rewrite get_set_ne by exact Hop.
    set (l := if has (LRUCache.cache c) k' then _ else _).
    assert (Hl : get l k = Some v /\ length (from_key k l) <= n).
    { subst l. destruct (has (LRUCache.cache c) k').
      - rewrite get_delete_ne by exact Hop. split; [exact Hget|].
        pose proof (from_key_delete (LRUCache.cache c) k k' Hop). lia.
      - destruct (Z.leb_spec (LRUCache.capacity c) (Z.of_nat (size (LRUCache.cache c))))
          as [Hfull|Hroom]; [|split; assumption].
        destruct (oldestKey (LRUCache.cache c)) as [k0|] eqn:Ho; [|split; assumption].
        assert (Hk0 : k0 <> k).
        { intros ->. rewrite (from_key_oldest _ _ Ho) in Hfrom. unfold size in Hfull. lia. }
        rewrite get_delete_ne by exact Hk0. split; [exact Hget|].
        pose proof (from_key_delete (LRUCache.cache c) k k0 Hk0). lia. }
    destruct Hl as [Hlget Hlfrom]. split; [exact Hlget|].
    pose proof (from_key_set l k k' v' Hop). lia.
Qed.

Lemma run_keeps ops : forall c k v n,
  Forall (on_other_key k) ops ->
  get (LRUCache.cache c) k = Some v ->
  length (from_key k (LRUCache.cache c)) <= n ->
  (Z.of_nat n + Z.of_nat (length ops) <= LRUCache.capacity c)%Z ->
  get (LRUCache.cache (run c ops)) k = Some v.
Proof using Type.
  induction ops as [|op ops IH]; intros c k v n Hops Hget Hfrom Hcap; [exact Hget|].
  apply Forall_cons in Hops. destruct Hops as [Hop Hops].
  cbn [length] in Hcap.
  destruct (step_keeps c op k v n Hop Hget Hfrom ltac:(lia)) as [Hget' Hfrom'].
  cbn [run fold_left]. apply (IH (step c op) k v (S n) Hops Hget' Hfrom').
  rewrite step_capacity. lia.
Qed.

(** X20: Least recently used, not first in: a key that was just written
    is still there, with its value, after any [capacity - 1] calls of
    [get] and [put] on other keys. *)
Theorem LRUCache_keeps_recent capacity (before ops : list (Op V)) k v :
  Forall (on_other_key k) ops ->
  (Z.of_nat (length ops) < capacity)%Z ->
  let c := LRUCache.put (run (LRUCache.constructor capacity) before) k v in
  fst (LRUCache.get (run c ops) k) = Some v.
Proof using Type.
  intros Hops Hlen c.
  set (c0 := run (LRUCache.constructor capacity) before) in *.
  destruct (run_ok before _ (constructor_ok capacity)) as [Hnd _]. fold c0 in Hnd.
  assert (Hcap : LRUCache.capacity c = capacity).
  { unfold c, LRUCache.put. cbn [LRUCache.capacity]. unfold c0. apply run_capacity. }
  assert (Hget : get (LRUCache.cache c) k = Some v).
  { unfold c, LRUCache.put. cbn [LRUCache.cache]. apply get_set_eq. }
  assert (Hfrom : length (from_key k (LRUCache.cache c)) <= 1).
  { unfold c, LRUCache.put. cbn [LRUCache.cache].
    set (l := if has (LRUCache.cache c0) k then _ else _).
    assert (Hl : ~ In k (keys l)).
    { subst l. destruct (has (LRUCache.cache c0) k) eqn:Hhas.
      - apply (keys_delete_NoDup _ k Hnd).
      - apply has_false_keys in Hhas.
        destruct (Z.leb (LRUCache.capacity c0) _); [|exact Hhas].
        destruct (oldestKey (LRUCache.cache c0)); [|exact Hhas].
        intros H. apply Hhas. apply (keys_delete_subset _ _ _ H). }
    rewrite (set_fresh l k v Hl), (from_key_last l k v Hl). simpl. lia. }
  pose proof (run_keeps ops c k v 1 Hops Hget Hfrom ltac:(lia)) as Hfinal.
  destruct (get_cases (run c ops) k) as [[H _]|(v' & H & ->)]; [congruence|].
  cbn [fst]. congruence.
Qed.

End LRU.

Lemma LRUCache_keeps_recent_witness :
  fst (LRUCache.get
         (LRUCalls.run
            (LRUCache.put (LRUCalls.run (LRUCache.constructor 3) [LRUCalls.Put "a" 1%Z]) "b" 2%Z)
            [LRUCalls.Put "c" 3%Z; LRUCalls.Get "a"])
         "b")
  = Some 2%Z.
Proof.
  apply (LRUCache_keeps_recent 3 [LRUCalls.Put "a" 1%Z] [LRUCalls.Put "c" 3%Z; LRUCalls.Get "a"]
           "b" 2%Z).
  - repeat constructor; discriminate.
  - simpl. lia.
Defined.

(** * The window of renderVisible and the viewport *)



Lemma ceil_div_le a b k : (0 < b)%Z -> (a <= k * b)%Z -> (ceil_div a b <= k)%Z.
Proof.
  intros Hb H. unfold ceil_div.
  assert (- k <= (- a) / b)%Z by (apply Z.div_le_lower_bound; lia). lia.
Qed.

Section Viewport.

Import PromptList Window WindowFacts Viewport.








(** X23: In the grid view the window is taken over prompt indices, one per
    [ITEM_HEIGHT] of scroll, while the blocks are laid out by rows of
    [colCount] prompts.  With two columns or more, once the list is
    scrolled [ceil(containerHeight / 260) + 7] rows down, the first
    prompt of the row at the top of the viewport meets the viewport and
    has no block after a pass. *)
Theorem renderVisible_grid_window_by_index st :
  idle st ->
  viewMode st = GridView ->
  (2 <= colCount st)%Z ->
  (0 < containerHeight st)%Z ->
  let row := floor_div (scrollTop st) 260 in
  let i := (row * colCount st)%Z in
  (ceil_div (containerHeight st) 260 + 7 <= row)%Z ->
  (i < total st)%Z ->
  visible st (make_block st i) /\ ~ rendered (renderVisible st) i.
Proof using Type.
  intros Hidle Hgrid Hcols Hheight row i Hrow Htotal.
  destruct (renderVisible_window st (idle_consistent st Hidle)) as [[Hwin _] _].
  assert (Hrow_lo : (row * 260 <= scrollTop st)%Z).
  { unfold row, floor_div. pose proof (Z.mul_div_le (scrollTop st) 260 ltac:(lia)). lia. }
  assert (Hrow_hi : (scrollTop st < (row + 1) * 260)%Z).
  { unfold row, floor_div.
    pose proof (Z.mul_succ_div_gt (scrollTop st) 260 ltac:(lia)). lia. }
  split.
  - unfold visible, make_block. rewrite Hgrid. cbn [top ITEM_HEIGHT].
    fold (colCount st).
    assert (Hr : floor_div i (colCount st) = row).
    { unfold i, floor_div. apply Z.div_mul. lia. }
    rewrite Hr. split; lia.
  - intros Hr. apply Hwin in Hr. destruct Hr as [_ Hend].
    unfold endIdx_of in Hend. rewrite Hgrid in Hend. unfold BUFFER, ITEM_HEIGHT in Hend.
    assert (Hch : (containerHeight st <= ceil_div (containerHeight st) 260 * 260)%Z).
    { unfold ceil_div. pose proof (Z.mul_div_le (- containerHeight st) 260 ltac:(lia)).
      lia. }
    pose proof (ceil_div_le (scrollTop st + containerHeight st) 260
                  (row + 1 + ceil_div (containerHeight st) 260) ltac:(lia) ltac:(lia)) as Hq.
    unfold i in Hend. nia.
Qed.

End Viewport.



Lemma renderVisible_grid_window_by_index_witness :
  Viewport.visible Viewport.scrolled_grid
    (PromptList.make_block Viewport.scrolled_grid 60)
  /\ ~ Window.rendered (PromptList.renderVisible Viewport.scrolled_grid) 60.
Proof.
  apply (renderVisible_grid_window_by_index Viewport.scrolled_grid).
  - apply Window.idle_scroll, Window.idle_initial.
  - reflexivity.
  - vm_compute. discriminate.
  - reflexivity.
  - vm_compute. discriminate.
  - reflexivity.
Defined.

(** * VirtualScroller: elements and container *)



Module ElementFacts.

Import VirtualScroller ScrollerWindow ScrollerSpec ScrollerFacts.

Lemma map_get_In m i e : map_get m i = Some e -> In (i, e) m.
Proof.
  induction m as [|[k e'] m IH]; simpl; [discriminate|].
  destruct (Z.eqb_spec k i) as [->|Hne].
  - intros [= ->]. left. reflexivity.
  - intros H. right. apply IH, H.
Qed.

Lemma map_delete_In m i x : In x (map_delete m i) -> In x m.
Proof.
  induction m as [|[k e'] m IH]; simpl; [tauto|].
  destruct (Z.eqb k i); [tauto|]. intros [H|H]; [left; exact H|right; apply IH, H].
Qed.




Section Render.

Context {Item : Type} (renderItemFn : Item -> Z -> option Element).

(** The three things one turn of the loop can do. *)
Lemma render_index_cases (st : @State Item) p x :
  render_index renderItemFn st p x = p
  \/ ((0 <= x < item_count st)%Z
      /\ exists e0,
           ((map_get (old_items p) x = Some e0
             /\ attached (render_index renderItemFn st p x) = attached p)
            \/ (map_get (old_items p) x = None
                /\ (exists item, lookup_index (allItems st) x = Some item
                                 /\ renderItemFn item x = Some e0)
                /\ attached (render_index renderItemFn st p x) = attached p ++ [x]))
           /\ old_items (render_index renderItemFn st p x) = map_delete (old_items p) x
           /\ new_items (render_index renderItemFn st p x)
              = map_set (new_items p) x (placed st x e0)).
Proof using Type.
  unfold render_index.
  destruct ((x <? 0)%Z || (item_count st <=? x)%Z) eqn:Hout; [left; reflexivity|].
  apply orb_false_elim in Hout. destruct Hout as [H1 H2].
  apply Z.ltb_ge in H1. apply Z.leb_gt in H2.
  destruct (map_get (old_items p) x) as [e0|] eqn:Hget.
  - right. split; [lia|]. exists e0. split; [left; split; reflexivity|].
    split; reflexivity.
  - destruct (lookup_index (allItems st) x) as [item|] eqn:Hitem; [|left; reflexivity].
    destruct (renderItemFn item x) as [e0|] eqn:Hrender; [|left; reflexivity].
    right. split; [lia|]. exists e0. split; [|split; reflexivity].
    right. split; [reflexivity|]. split; [|reflexivity].
    exists item. split; [reflexivity|exact Hrender].
Qed.

Lemma render_index_elements (st : @State Item) done p x :
  elements_inv renderItemFn st done p ->
  elements_inv renderItemFn st (done ++ [x]) (render_index renderItemFn st p x).
Proof using Type.
  intros [Hnew Hold].
  assert (Hweak : elements_inv renderItemFn st (done ++ [x]) p).
  { split; [|exact Hold]. intros i e Hi. destruct (Hnew i e Hi) as (Hd & Hrest).
    split; [apply in_or_app; left; exact Hd|exact Hrest]. }
  destruct (render_index_cases st p x) as [->|(Hrange & e0 & Hsrc & Ho & Hn)];
    [exact Hweak|].
  split.
  - rewrite Hn. intros i e Hi. destruct (Z.eq_dec x i) as [<-|Hne].
    + rewrite map_get_set_eq in Hi. injection Hi as <-.
      split; [apply in_or_app; right; left; reflexivity|]. split; [exact Hrange|].
      exists e0. split; [reflexivity|].
      destruct Hsrc as [[Hget _]|(_ & Hitem & _)].
      * left. apply Hold, map_get_In, Hget.
      * right. exact Hitem.
    + rewrite map_get_set_ne in Hi by exact Hne. apply (proj1 Hweak), Hi.
  - rewrite Ho. intros i e Hi. apply Hold. apply (map_delete_In _ _ _ Hi).
Qed.


(** X24: Every element of the map after a pass, in either mode, belongs to
    an index of the window that is an index of [allItems]; it is the
    element the previous pass had for that index, or what the callback
    made of the item of that index, placed at the offset of the index:
    [i * itemHeight] with fixed heights, [itemPositions[i]] with
    variable heights. *)
Theorem render_elements (st : @State Item) i e :
  map_get (renderedItems (render renderItemFn st)) i = Some e ->
  (_getStartIndex st <= i <= _getEndIndex st)%Z
  /\ (0 <= i < item_count st)%Z
  /\ exists e0, e = placed st i e0 /\ source renderItemFn st i e0.
Proof using Type.
  unfold render. cbn [renderedItems].
  set (indices := zrange (_getStartIndex st)
                         (Z.to_nat (_getEndIndex st - _getStartIndex st + 1))).
  assert (Hinv : elements_inv renderItemFn st indices
                   (fold_left (render_index renderItemFn st) indices
                      (mkPass (renderedItems st) [] (container st)))).
  { apply (fold_left_prefix_inv (render_index renderItemFn st)
             (fun done p => elements_inv renderItemFn st done p)).
    - split; [intros j el H; discriminate|intros j el H; exact H].
    - intros done x acc Hacc. apply render_index_elements, Hacc. }
  intros Hi. destruct (proj1 Hinv i e Hi) as (Hin & Hrange & Hsrc).
  split; [|split; assumption].
  subst indices. apply zrange_In in Hin. lia.
Qed.


End Render.

End ElementFacts.

Lemma render_elements_witness :
  exists e0,
    VirtualScroller.mkElement (Some 50%Z) (Some 50%Z) = ScrollerSpec.placed sample_scroller 1 e0
    /\ ScrollerSpec.source render_always sample_scroller 1 e0.
Proof.
  apply (ElementFacts.render_elements render_always sample_scroller 1
           (VirtualScroller.mkElement (Some 50%Z) (Some 50%Z))).
  reflexivity.
Defined.

(** * VirtualScroller: positions and life cycle *)

Lemma running_sums_length t l : length (ScrollerLife.running_sums t l) = length l.
Proof. revert t. induction l as [|x l IH]; intros t; simpl; [reflexivity|]. rewrite IH. reflexivity. Qed.

Lemma running_sums_lookup l : forall t k,
  k < length l -> ScrollerLife.running_sums t l !! k = Some (t + sumZ (take k l))%Z.
Proof.
  induction l as [|x l IH]; intros t k Hk; simpl in Hk; [lia|].
  destruct k as [|k]; simpl.
  - f_equal. lia.
  - rewrite IH by lia. f_equal. lia.
Qed.

Lemma sumZ_take_bounds l :
  Forall (fun x => (0 <= x)%Z) l ->
  forall j k, j <= k -> (0 <= sumZ (take j l) <= sumZ (take k l))%Z
                        /\ (sumZ (take k l) <= sumZ l)%Z.
Proof.
  induction 1 as [|x l Hx _ IH]; intros j k Hjk.
  - rewrite !take_nil. simpl. lia.
  - destruct k as [|k].
    + assert (j = 0) by lia. subst j. simpl.
      destruct (IH 0 0 ltac:(lia)) as [_ H0]. rewrite take_0 in H0. simpl in H0. lia.
    + destruct j as [|j]; simpl.
      * destruct (IH 0 k ltac:(lia)) as [H1 H2]. rewrite take_0 in H1. simpl in H1. lia.
      * destruct (IH j k ltac:(lia)) as [H1 H2]. lia.
Qed.

Module LifeFacts.

Import VirtualScroller VirtualScrollerMethods ScrollerSpec ScrollerLife ElementFacts.

Section Life.

Context {Item : Type} (renderItemFn : Item -> Z -> option Element).

Lemma fold_push_position (h : Z -> Item -> Z) entries : forall ps t,
  fold_left (push_position h) entries (ps, t)
  = (ps ++ running_sums t (map (fun entry => h (fst entry) (snd entry)) entries),
     (t + sumZ (map (fun entry => h (fst entry) (snd entry)) entries))%Z).
Proof using Type.
  induction entries as [|[i item] entries IH]; intros ps t.
  - simpl. rewrite app_nil_r. f_equal. lia.
  - cbn [fold_left push_position map running_sums sumZ fold_right fst snd].
    rewrite IH, <- app_assoc. cbn [app]. f_equal. unfold sumZ. lia.
Qed.

Lemma heights_length (h : Z -> Item -> Z) items : length (heights h items) = length items.
Proof using Type.
  unfold heights, indexed. rewrite length_map, length_combine.
  unfold zrange. rewrite length_map, length_seq. lia.
Qed.

(** What [_calculateTotalContentHeight] computes. *)
Lemma calculate_variable (st : @State Item) h :
  getItemHeightFn st = Some h ->
  _calculateTotalContentHeight st
  = ({| allItems := allItems st;
        itemHeight := itemHeight st;
        bufferSize := bufferSize st;
        getItemHeightFn := getItemHeightFn st;
        itemPositions := running_sums 0 (heights h (allItems st));
        scrollTop := scrollTop st;
        viewportHeight := viewportHeight st;
        renderedItems := renderedItems st;
        container := container st |},
     sumZ (heights h (allItems st))).
Proof using Type.
  intros Hh. unfold _calculateTotalContentHeight. rewrite Hh, fold_push_position.
  reflexivity.
Qed.

Lemma calculate_fixed (st : @State Item) :
  getItemHeightFn st = None ->
  _calculateTotalContentHeight st = (st, (item_count st * itemHeight st)%Z).
Proof using Type.
  intros Hh. unfold _calculateTotalContentHeight. rewrite Hh. reflexivity.
Qed.

(** X25: With variable heights [itemPositions] holds, for every item, the
    sum of the heights of the items before it, and
    [totalContentHeight] is the sum of all heights; when no height is
    negative the positions ascend and stay within the total.  With a
    fixed height the positions are left alone and the total is the
    number of items times [itemHeight]. *)
Theorem calculateTotalContentHeight_positions (st : @State Item) :
  (forall h, getItemHeightFn st = Some h ->
     let st' := fst (_calculateTotalContentHeight st) in
     let hs := heights h (allItems st) in
     length (itemPositions st') = length (allItems st)
     /\ (forall k, k < length (allItems st) ->
                   itemPositions st' !! k = Some (sumZ (take k hs)))
     /\ snd (_calculateTotalContentHeight st) = sumZ hs
     /\ (Forall (fun x => (0 <= x)%Z) hs ->
         forall j k pj pk, j <= k ->
                           itemPositions st' !! j = Some pj ->
                           itemPositions st' !! k = Some pk ->
                           (0 <= pj <= pk)%Z /\ (pk <= sumZ hs)%Z))
  /\ (getItemHeightFn st = None ->
      _calculateTotalContentHeight st = (st, (item_count st * itemHeight st)%Z)).
Proof using Type.
  split; [|apply calculate_fixed].
  intros h Hh. cbv zeta. rewrite (calculate_variable st h Hh). cbn [fst snd itemPositions].
  pose proof (heights_length h (allItems st)) as Hlen.
  assert (Hlook : forall k, k < length (allItems st) ->
            running_sums 0 (heights h (allItems st)) !! k
            = Some (sumZ (take k (heights h (allItems st))))).
  { intros k Hk. rewrite running_sums_lookup by lia. reflexivity. }
  split; [rewrite running_sums_length; exact Hlen|]. split; [exact Hlook|].
  split; [reflexivity|].
  intros Hpos j k pj pk Hjk Hj Hk.
  assert (Hkn : k < length (allItems st)).
  { apply lookup_lt_Some in Hk. rewrite running_sums_length in Hk. lia. }
  rewrite Hlook in Hj by lia. rewrite Hlook in Hk by lia.
  apply Some_eq in Hj, Hk. subst pj pk.
  destruct (sumZ_take_bounds _ Hpos j k Hjk) as [H1 H2]. split; assumption.
Qed.

Lemma calculate_keeps (st : @State Item) :
  let st' := fst (_calculateTotalContentHeight st) in
  allItems st' = allItems st /\ itemHeight st' = itemHeight st
  /\ bufferSize st' = bufferSize st /\ getItemHeightFn st' = getItemHeightFn st
  /\ scrollTop st' = scrollTop st /\ viewportHeight st' = viewportHeight st
  /\ renderedItems st' = renderedItems st /\ container st' = container st
  /\ positions_known st'
  /\ (getItemHeightFn st = None -> itemPositions st' = itemPositions st).
Proof using Type.
  cbv zeta. destruct (getItemHeightFn st) as [h|] eqn:Hh.
  - rewrite (calculate_variable st h Hh). cbn [fst]. unfold positions_known.
    cbn [allItems itemHeight bufferSize getItemHeightFn scrollTop viewportHeight
         renderedItems container itemPositions].
    rewrite Hh, running_sums_length, heights_length.
    repeat split; try reflexivity. discriminate.
  - rewrite (calculate_fixed st Hh). cbn [fst]. unfold positions_known. rewrite Hh.
    repeat split; reflexivity.
Qed.

(** X26: After [updateItems] nothing of the old list is left: every
    element of the map was made by the callback from the new item of
    its index, and stands at the offset of that index, which with
    variable heights is the sum of the heights of the new items
    before it. *)
Theorem updateItems_renders_afresh (st : @State Item) newItems :
  let st' := fst (updateItems renderItemFn st newItems) in
  allItems st' = newItems
  /\ snd (updateItems renderItemFn st newItems)
     = match getItemHeightFn st with
       | Some h => sumZ (heights h newItems)
       | None => (Z.of_nat (length newItems) * itemHeight st)%Z
       end
  /\ forall i e,
       map_get (renderedItems st') i = Some e ->
       exists item e0,
         lookup_index newItems i = Some item
         /\ renderItemFn item i = Some e0
         /\ style_top e
            = Some (match getItemHeightFn st with
                    | Some h => sumZ (take (Z.to_nat i) (heights h newItems))
                    | None => (i * itemHeight st)%Z
                    end)
         /\ style_height e
            = match getItemHeightFn st with
              | Some _ => style_height e0
              | None => Some (itemHeight st)
              end.
Proof using Type.
  cbv zeta. unfold updateItems.
  set (s0 := mkState newItems (itemHeight st) (bufferSize st) (getItemHeightFn st)
                     (itemPositions st) (scrollTop st) (viewportHeight st)
                     (renderedItems st) (container st)).
  destruct (_calculateTotalContentHeight s0) as [s1 total] eqn:Hcalc.
  cbn [fst snd].
  set (s2 := mkState (allItems s1) (itemHeight s1) (bufferSize s1) (getItemHeightFn s1)
                     (itemPositions s1) (scrollTop s1) (viewportHeight s1) [] []).
  assert (Hs1 : s1 = fst (_calculateTotalContentHeight s0)) by (rewrite Hcalc; reflexivity).
  assert (Htotal : total = snd (_calculateTotalContentHeight s0))
    by (rewrite Hcalc; reflexivity).
  destruct (calculate_keeps s0) as (Ha & Hh & Hb & Hg & _). rewrite <- Hs1 in *.
  cbn [allItems itemHeight bufferSize getItemHeightFn s0] in Ha, Hh, Hb, Hg.
  split; [exact Ha|]. split.
  - rewrite Htotal. destruct (getItemHeightFn st) as [h|] eqn:Hfn.
    + rewrite (calculate_variable s0 h eq_refl). reflexivity.
    + rewrite (calculate_fixed s0 eq_refl). reflexivity.
  - intros i e Hi.
    destruct (render_elements renderItemFn s2 i e Hi) as (_ & Hrange & e0 & -> & Hsrc).
    destruct Hsrc as [[]|(item & Hitem & Hrender)].
    cbn [allItems s2] in Hitem. rewrite Ha in Hitem.
    exists item, e0. split; [exact Hitem|]. split; [exact Hrender|].
    unfold placed, top_of. cbn [style_top style_height getItemHeightFn itemHeight
                               itemPositions s2].
    rewrite Hg, Hh. destruct (getItemHeightFn st) as [h|] eqn:Hfn; [|split; reflexivity].
    split; [|reflexivity].
    unfold item_count in Hrange. cbn [allItems s2] in Hrange. rewrite Ha in Hrange.
    rewrite Hs1, (calculate_variable s0 h eq_refl). cbn [fst itemPositions allItems s0].
    unfold lookup_index. destruct (Z.ltb_spec i 0) as [Hneg|_]; [lia|].
    rewrite running_sums_lookup by (rewrite heights_length; lia). reflexivity.
Qed.





End Life.

End LifeFacts.


(** * The filter of the list and the search engine *)

Section ListFilter.

Context {env : DateEnv}.

(** X28: Without search text and user filter, the list keeps the prompts
    [applyFilters] keeps for the same category and the same tag: the two
    modules agree on what a category filter and a tag filter mean. *)
Theorem filteredPrompts_is_applyFilters params sessionUser allPrompts :
  RenderPrompts.search params = None ->
  RenderPrompts.userId params = None ->
  RenderPrompts.filteredPrompts params sessionUser allPrompts
  = applyFilters allPrompts (filters_of_params params).
Proof using Type.
  intros Hs Hu. unfold RenderPrompts.filteredPrompts, applyFilters. cbv zeta.
  rewrite Hs, Hu.
  unfold category_filter, tags_filter, date_filter, filters_of_params.
  cbn [Filters.category Filters.tags Filters.dateRange filter_when].
  destruct (RenderPrompts.category params) as [c|];
    [destruct (Js.truthy c)|]; cbn [filter_when];
    (destruct (RenderPrompts.tag params) as [t|];
      [destruct (Js.truthy t)|]; cbn [filter_when length Nat.ltb Nat.leb]; try reflexivity;
      apply List.filter_ext; intros p; destruct (Prompt.tags p); try reflexivity;
      cbn [forallb]; rewrite andb_true_r; reflexivity).
Qed.

Lemma toLowerCase_empty s : Js.toLowerCase s = EmptyString -> s = EmptyString.
Proof using Type.
  unfold Js.toLowerCase. intros H. apply chars_nil_iff in H. rewrite chars_str in H.
  apply chars_nil_iff. destruct (Js.chars s); [reflexivity|discriminate].
Qed.

(** X29: For a plain search text, every prompt the list keeps is found by
    the search engine too: its title or content holds the query as a
    phrase, so its score is 10 at least and it is among the results of
    an uncached call without filters, fuzzy or not. *)
Theorem filteredPrompts_within_search s sessionUser allPrompts fuzzy p :
  plain_query s ->
  In p (RenderPrompts.filteredPrompts (text_only s) sessionUser allPrompts) ->
  (10 <= calculateScore p (queryTokens_of (Some s)) fuzzy)%Z
  /\ In (strip_score p)
        (results (compute allPrompts (queryTokens_of (Some s)) Filters.empty fuzzy)).
Proof using Type.
  intros [Hne Hplain] Hin.
  unfold RenderPrompts.filteredPrompts, text_only in Hin. cbv zeta in Hin.
  cbn [RenderPrompts.search RenderPrompts.userId RenderPrompts.category RenderPrompts.tag] in Hin.
  assert (Hs : Js.truthy s = true).
  { destruct (Js.truthy s) eqn:T; [reflexivity|].
    apply truthy_false_iff in T. subst s. exfalso. apply Hne. reflexivity. }
  assert (Ht : String.eqb (Js.trim s) EmptyString = false) by (apply String.eqb_neq, Hne).
  rewrite Hs, Ht in Hin. cbn [andb negb] in Hin.
  apply filter_In in Hin. destruct Hin as [Hall Htext].
  rewrite <- Hplain in Htext.
  set (tokens := queryTokens_of (Some s)) in *.
  assert (Hlen : Nat.ltb 0 (String.length (Js.join " " tokens)) = true).
  { apply Nat.ltb_lt. rewrite Hplain.
    destruct (Js.toLowerCase (Js.trim s)) eqn:E; [|simpl; lia].
    apply toLowerCase_empty in E. contradiction. }
  assert (Hfound : phrase_found p tokens = true).
  { unfold phrase_found. cbv zeta. rewrite Hlen. cbn [andb].
    change (checkPhrase (Js.join " " tokens) (Prompt.title p))
      with (RenderPrompts.text_includes (Prompt.title p) (Js.join " " tokens)).
    change (checkPhrase (Js.join " " tokens) (Prompt.content p))
      with (RenderPrompts.text_includes (Prompt.content p) (Js.join " " tokens)).
    apply orb_prop in Htext. destruct Htext as [H|H]; rewrite H;
      [reflexivity|apply orb_true_r]. }
  assert (Hscore : (10 <= calculateScore p tokens fuzzy)%Z).
  { rewrite calculateScore_split.
    destruct (phrase_points_cases p tokens) as [[Hf _]|[_ Hp]]; [congruence|].
    destruct (sum_token_weights p fuzzy tokens) as (Hsum & _). lia. }
  split; [exact Hscore|].
  assert (Htok : tokens <> []).
  { intros E. rewrite E in Hlen. discriminate. }
  rewrite (compute_query _ _ _ _ Htok). cbn [results].
  apply in_map.
  apply (Permutation_in _ (Permutation_sym (array_sort_perm _ _))).
  apply filter_In. split.
  - rewrite applyFilters_no_keys by reflexivity. exact Hall.
  - apply Z.ltb_lt. lia.
Qed.

End ListFilter.

Lemma filteredPrompts_is_applyFilters_witness :
  RenderPrompts.filteredPrompts (RenderPrompts.mkParams None None (Some "cat1") (Some "react"))
    None [p1; p2; p3]
  = applyFilters (env := sample_dates) [p1; p2; p3]
      (Filters.mk (PStr "cat1") (Some ["react"]) None).
Proof.
  apply (filteredPrompts_is_applyFilters (env := sample_dates)
           (RenderPrompts.mkParams None None (Some "cat1") (Some "react")) None [p1; p2; p3]);
    reflexivity.
Defined.

Lemma filteredPrompts_within_search_witness :
  (10 <= calculateScore p3 (queryTokens_of (Some "React Hooks")) false)%Z
  /\ In (strip_score p3)
        (results (compute (env := sample_dates) [p1; p2; p3]
                    (queryTokens_of (Some "React Hooks")) Filters.empty false)).
Proof.
  apply (filteredPrompts_within_search (env := sample_dates) "React Hooks" None [p1; p2; p3]
           false p3).
  - split; [vm_compute; discriminate|vm_compute; reflexivity].
  - vm_compute. left. reflexivity.
Defined.

(** * VirtualScroller: the window with variable heights *)

Lemma zrange_cons lo n : zrange lo (S n) = lo :: zrange (lo + 1) n.
Proof.
  unfold zrange. cbn [seq map]. f_equal; [lia|].
  rewrite <- seq_shift, map_map. apply map_ext. intros k. lia.
Qed.

(** [find] on a range of integers: the first one that passes. *)
Lemma find_zrange (test : Z -> bool) n : forall lo,
  match List.find test (zrange lo n) with
  | Some j => (lo <= j < lo + Z.of_nat n)%Z /\ test j = true
              /\ forall k, (lo <= k < j)%Z -> test k = false
  | None => forall k, (lo <= k < lo + Z.of_nat n)%Z -> test k = false
  end.
Proof.
  induction n as [|n IH]; intros lo.
  - cbn. intros k Hk. lia.
  - rewrite zrange_cons. cbn [List.find]. destruct (test lo) eqn:E.
    + split; [lia|]. split; [exact E|]. intros k Hk. lia.
    + specialize (IH (lo + 1)%Z). destruct (List.find test (zrange (lo + 1) n)) as [j|].
      * destruct IH as (Hj & Htj & Hbefore). split; [lia|]. split; [exact Htj|].
        intros k Hk. destruct (Z.eq_dec k lo) as [->|Hne]; [exact E|apply Hbefore; lia].
      * intros k Hk. destruct (Z.eq_dec k lo) as [->|Hne]; [exact E|apply IH; lia].
Qed.

Module VariableWindow.

Import VirtualScroller VirtualScrollerMethods ScrollerSpec ScrollerLife LifeFacts.

Section Window.

Context {Item : Type}.

(** X30: With variable heights, positions as [_calculateTotalContentHeight]
    leaves them, no negative height and no negative buffer, every item
    whose rows meet the viewport lies in the window of [render],
    between [_getStartIndex] and [_getEndIndex]. *)
Theorem variable_window_covers_viewport (st : @State Item) h i pos :
  getItemHeightFn st = Some h ->
  itemPositions st = itemPositions (fst (_calculateTotalContentHeight st)) ->
  Forall (fun x => (0 <= x)%Z) (heights h (allItems st)) ->
  (0 <= bufferSize st)%Z ->
  lookup_index (itemPositions st) i = Some pos ->
  (pos < scrollTop st + viewportHeight st)%Z ->
  (scrollTop st < pos + height_at st h i)%Z ->
  (_getStartIndex st <= i <= _getEndIndex st)%Z.
Proof using Type.
  intros Hh Hpos Hnonneg Hbuf Hi Hbelow Habove.
  rewrite (calculate_variable st h Hh) in Hpos. cbn [fst itemPositions] in Hpos.
  set (hs := heights h (allItems st)) in *.
  assert (Hlen : length (itemPositions st) = length (allItems st)).
  { rewrite Hpos, running_sums_length. apply heights_length. }
  assert (Hhs : length hs = length (allItems st)) by apply heights_length.
  assert (Hlook : forall k, (0 <= k < Z.of_nat (length (allItems st)))%Z ->
            lookup_index (itemPositions st) k = Some (sumZ (take (Z.to_nat k) hs))).
  { intros k Hk. unfold lookup_index. destruct (Z.ltb_spec k 0); [lia|].
    rewrite Hpos, running_sums_lookup by lia. reflexivity. }
  assert (Hirange : (0 <= i < Z.of_nat (length (allItems st)))%Z).
  { unfold lookup_index in Hi. destruct (Z.ltb_spec i 0); [discriminate|].
    apply lookup_lt_Some in Hi. lia. }
  assert (Hipos : pos = sumZ (take (Z.to_nat i) hs)).
  { rewrite (Hlook i Hirange) in Hi. apply Some_eq in Hi. congruence. }
  assert (Hstart : (_getStartIndex st <= i)%Z).
  { unfold _getStartIndex. rewrite Hh. unfold first_index.
    pose proof (find_zrange
                  (fun j => (scrollTop st <? default 0%Z (lookup_index (itemPositions st) j)
                                             + height_at st h j)%Z)
                  (length (itemPositions st)) 0) as Hfind.
    destruct (List.find _ (zrange 0 (length (itemPositions st)))) as [j|].
    - destruct Hfind as (_ & _ & Hbefore).
      destruct (Z.le_gt_cases j i) as [Hle|Hgt]; [lia|].
      specialize (Hbefore i ltac:(lia)). cbv beta in Hbefore.
      rewrite Hi in Hbefore. cbn [default from_option] in Hbefore. unfold id in Hbefore.
      apply Z.ltb_ge in Hbefore. lia.
    - lia. }
  split; [exact Hstart|].
  unfold _getEndIndex. rewrite Hh. unfold first_index, item_count.
  assert (Hfrom0 : (0 <= _getStartIndex st)%Z) by (unfold _getStartIndex; lia).
  set (from := _getStartIndex st) in *.
  set (last := (Z.of_nat (length (itemPositions st)) - 1)%Z).
  pose proof (find_zrange
                (fun j => (scrollTop st + viewportHeight st
                           <=? default 0%Z (lookup_index (itemPositions st) j))%Z
                          || (j =? last)%Z)
                (Z.to_nat (Z.of_nat (length (itemPositions st)) - from)) from) as Hfind.
  destruct (List.find _ (zrange from _)) as [j|].
  - destruct Hfind as (Hj & Htest & _).
    destruct (Z.le_gt_cases i j) as [Hle|Hgt]; [lia|]. exfalso.
    apply orb_prop in Htest. destruct Htest as [Hpast|Hlast].
    + rewrite (Hlook j ltac:(lia)) in Hpast. cbn [default from_option] in Hpast.
      unfold id in Hpast. apply Z.leb_le in Hpast.
      destruct (sumZ_take_bounds hs Hnonneg (Z.to_nat j) (Z.to_nat i) ltac:(lia)) as [H1 _].
      lia.
    + apply Z.eqb_eq in Hlast. unfold last in Hlast. lia.
  - exfalso. specialize (Hfind last ltac:(unfold last; lia)). cbv beta in Hfind.
    rewrite Z.eqb_refl, orb_true_r in Hfind. discriminate.
Qed.

End Window.

End VariableWindow.

Lemma variable_window_covers_viewport_witness :
  (VirtualScroller._getStartIndex
     (fst (VirtualScrollerMethods.constructor render_always ["a"; "b"; "c"; "d"; "e"]
             None (Some 1%Z) (Some sample_heights) 35 30)) <= 3)%Z
  /\ (3 <= VirtualScroller._getEndIndex
             (fst (VirtualScrollerMethods.constructor render_always ["a"; "b"; "c"; "d"; "e"]
                     None (Some 1%Z) (Some sample_heights) 35 30)))%Z.
Proof.
  apply (VariableWindow.variable_window_covers_viewport
           (fst (VirtualScrollerMethods.constructor render_always ["a"; "b"; "c"; "d"; "e"]
                   None (Some 1%Z) (Some sample_heights) 35 30))
           sample_heights 3 60%Z).
  - reflexivity.
  - reflexivity.
  - vm_compute. repeat constructor; discriminate.
  - vm_compute. discriminate.
  - reflexivity.
  - reflexivity.
  - reflexivity.
Defined.
